(** * rocket_sim: N-body physics, trail recording, rasterizer projection,
      BMP encoder and trajectory dump, embedded from the C sources.

    The C [double] is kept abstract behind the interface [Double], so every
    function below is written once, in the order of operations of the C
    source, and can be read at two instances:
    - [float_Double]: IEEE-754 binary64 (primitive floats), executable;
    - [R_Double]: the real numbers, the idealised arithmetic in which the
      closed forms of the specification are stated.

    C [int] values are modelled in [Z]; array indices are [nat] positions in
    lists.  A loop [for (i = 0; i < n; i++)] is a left fold over
    [seq 0 (Z.to_nat n)], so a non-positive bound runs no iteration. *)

From Stdlib Require Import Floats Uint63.
From Stdlib Require Import ZArith List Lia QArith Reals Qreals Lra.
From Stdlib Require String.
From stdpp Require Import base list.
Import ListNotations.
Import String.StringSyntax.
Delimit Scope string_scope with string.
Bind Scope string_scope with String.string.
Open Scope Z_scope.

(* ================================================================== *)
(** ** The arithmetic of [double] *)

Class Double (F : Type) : Type := {
  dadd : F -> F -> F;
  dsub : F -> F -> F;
  dmul : F -> F -> F;
  ddiv : F -> F -> F;
  dsqrt : F -> F;
  (** [dgt a b] is the C comparison [a > b]. *)
  dgt : F -> F -> bool;
  (** conversion [int -> double], also used for literals such as [50.0] *)
  of_int : Z -> F;
  (** a decimal literal such as [0.1], given as a rational *)
  lit : Q -> F;
  (** the cast [(int)x]: the fractional part is discarded *)
  to_int : F -> Z
}.

Declare Scope dbl_scope.
Delimit Scope dbl_scope with D.
Infix "+" := dadd : dbl_scope.
Infix "-" := dsub : dbl_scope.
Infix "*" := dmul : dbl_scope.
Infix "/" := ddiv : dbl_scope.

(** *** Instance 1: the real numbers *)

Definition R_gt (a b : R) : bool := if Rlt_dec b a then true else false.

(** Truncation toward zero: the floor of a non-negative value, the ceiling
    of a negative one. *)
Definition R_trunc (r : R) : Z :=
  if Rle_dec 0 r then Int_part r else (- Int_part (- r))%Z.

#[export] Instance R_Double : Double R := {|
  dadd := Rplus; dsub := Rminus; dmul := Rmult; ddiv := Rdiv;
  dsqrt := sqrt; dgt := R_gt; of_int := IZR; lit := Q2R; to_int := R_trunc
|}.

(** *** Instance 2: binary64 *)

Definition float_of_Z (z : Z) : float :=
  if (0 <=? z)%Z then PrimFloat.of_uint63 (Uint63.of_Z z)
  else PrimFloat.opp (PrimFloat.of_uint63 (Uint63.of_Z (- z))).

(** The literal [n/d] with [n] and [d] exactly representable is the
    correctly rounded quotient, i.e. the double nearest to the decimal. *)
Definition float_lit (q : Q) : float :=
  PrimFloat.div (float_of_Z (Qnum q)) (float_of_Z (Zpos (Qden q))).

(** [(int)x] on a finite double [(-1)^s * m * 2^e]; zero, infinities and NaN
    give [0] here (the cast of the last two is undefined in C). *)
Definition float_trunc (x : float) : Z :=
  match Prim2SF x with
  | S754_finite s m e =>
      let mag := if (0 <=? e)%Z then (Zpos m * 2 ^ e)%Z
                 else (Zpos m / 2 ^ (- e))%Z in
      if s then (- mag)%Z else mag
  | _ => 0%Z
  end.

#[export] Instance float_Double : Double float := {|
  dadd := PrimFloat.add; dsub := PrimFloat.sub; dmul := PrimFloat.mul;
  ddiv := PrimFloat.div; dsqrt := PrimFloat.sqrt;
  dgt := fun a b => PrimFloat.ltb b a;
  of_int := float_of_Z; lit := float_lit; to_int := float_trunc
|}.

(* ================================================================== *)
(** ** include/nbody.h: constants and data structures *)

Definition WIDTH : Z := 800.
Definition HEIGHT : Z := 800.
Definition MAX_BODIES : Z := 20.
Definition MAX_ROCKETS : Z := 10.
Definition STEPS : Z := 5000.
Definition FRAMES : Z := 100.

Definition G {F} `{Double F} : F := of_int 1.
Definition SOFTENING {F} `{Double F} : F := lit (1 # 10).

Module Body.
Record t {F : Type} : Type := mk {
  x : F; y : F;
  vx : F; vy : F;
  ax : F; ay : F;
  mass : F
}.
Arguments t : clear implicits.
Arguments mk {F}.
End Body.
Abbreviation Body := Body.t.

Module Rocket.
Record t {F : Type} : Type := mk {
  x : F; y : F;
  vx : F; vy : F;
  ax : F; ay : F;
  (** [int active]: zero means inactive *)
  active : Z;
  (** the two malloc'ed buffers, one slot per list element *)
  trail_x : list F;
  trail_y : list F;
  trail_length : Z;
  trail_capacity : Z
}.
Arguments t : clear implicits.
Arguments mk {F}.
End Rocket.
Abbreviation Rocket := Rocket.t.

Module Pixel.
(** [struct { unsigned char b, g, r; }], each channel in [0, 256) *)
Record t : Type := mk { b : Z; g : Z; r : Z }.
End Pixel.
Abbreviation Pixel := Pixel.t.

Record SimConfig {F : Type} : Type := {
  cfg_dt : F;
  cfg_steps : Z;
  cfg_frames : Z;
  cfg_save_interval : Z;
  cfg_g : F
}.
Arguments SimConfig : clear implicits.

(** The iteration space of [for (i = lo; i < hi; i++)]. *)
Definition range (lo hi : Z) : list nat :=
  seq (Z.to_nat lo) (Z.to_nat hi - Z.to_nat lo).

(* ================================================================== *)
(** ** src/physics.c *)

Section Physics.
Context {F : Type} `{Double F}.
Local Open Scope dbl_scope.

Definition set_acc (b : Body F) (ax ay : F) : Body F :=
  Body.mk (Body.x b) (Body.y b) (Body.vx b) (Body.vy b) ax ay (Body.mass b).

(** [bodies[i].ax = 0.0; bodies[i].ay = 0.0;] *)
Definition reset_acc (b : Body F) : Body F :=
  set_acc b (of_int 0) (of_int 0).

(** The body of the inner loop of [compute_forces] for the pair [(i, j)].
    An index outside the array (undefined in C) leaves the array alone. *)
Definition pair_force (g : F) (i j : nat) (bodies : list (Body F))
  : list (Body F) :=
  match bodies !! i, bodies !! j with
  | Some bi, Some bj =>
      let dx := Body.x bj - Body.x bi in
      let dy := Body.y bj - Body.y bi in
      let dist_sq := dx * dx + dy * dy + SOFTENING * SOFTENING in
      let dist := dsqrt dist_sq in
      let force := g / dist_sq in
      let fx := force * dx / dist in
      let fy := force * dy / dist in
      let bodies1 :=
        alter (fun b => set_acc b (Body.ax b + fx * Body.mass bj)
                                  (Body.ay b + fy * Body.mass bj)) i bodies in
      alter (fun b => set_acc b (Body.ax b - fx * Body.mass bi)
                                (Body.ay b - fy * Body.mass bi)) j bodies1
  | _, _ => bodies
  end.

Definition compute_forces (bodies : list (Body F)) (n : Z) (g : F)
  : list (Body F) :=
  let bodies0 :=
    fold_left (fun bs i => alter reset_acc i bs) (range 0 n) bodies in
  fold_left
    (fun bs i =>
       fold_left (fun bs' j => pair_force g i j bs')
                 (range (Z.of_nat i + 1) n) bs)
    (range 0 n) bodies0.

Definition set_racc (r : Rocket F) (ax ay : F) : Rocket F :=
  Rocket.mk (Rocket.x r) (Rocket.y r) (Rocket.vx r) (Rocket.vy r) ax ay
            (Rocket.active r) (Rocket.trail_x r) (Rocket.trail_y r)
            (Rocket.trail_length r) (Rocket.trail_capacity r).

(** The body of the inner loop of [compute_rocket_forces]. *)
Definition rocket_pull (g : F) (r : Rocket F) (bj : Body F) : Rocket F :=
  let dx := Body.x bj - Rocket.x r in
  let dy := Body.y bj - Rocket.y r in
  let dist_sq := dx * dx + dy * dy + SOFTENING * SOFTENING in
  let dist := dsqrt dist_sq in
  let acc := g * Body.mass bj / dist_sq in
  set_racc r (Rocket.ax r + acc * dx / dist) (Rocket.ay r + acc * dy / dist).

(** One iteration of the outer loop of [compute_rocket_forces]. *)
Definition rocket_forces_at (bodies : list (Body F)) (n_bodies : Z) (g : F)
  (r : Rocket F) : Rocket F :=
  if (Rocket.active r =? 0)%Z then r
  else
    fold_left
      (fun r' j => match bodies !! j with
                   | Some bj => rocket_pull g r' bj
                   | None => r'
                   end)
      (range 0 n_bodies) (set_racc r (of_int 0) (of_int 0)).

Definition compute_rocket_forces (rockets : list (Rocket F)) (n_rockets : Z)
  (bodies : list (Body F)) (n_bodies : Z) (g : F) : list (Rocket F) :=
  fold_left (fun rs i => alter (rocket_forces_at bodies n_bodies g) i rs)
            (range 0 n_rockets) rockets.

(** The body of the integration loop of [update_bodies]. *)
Definition integrate_body (dt : F) (b : Body F) : Body F :=
  let vx := Body.vx b + Body.ax b * dt in
  let vy := Body.vy b + Body.ay b * dt in
  let x := Body.x b + vx * dt in
  let y := Body.y b + vy * dt in
  Body.mk x y vx vy (Body.ax b) (Body.ay b) (Body.mass b).

Definition update_bodies (bodies : list (Body F)) (n : Z) (dt g : F)
  : list (Body F) :=
  let bodies1 := compute_forces bodies n g in
  fold_left (fun bs i => alter (integrate_body dt) i bs) (range 0 n) bodies1.

(** [buf[i] = v]; outside the buffer (undefined in C) nothing is stored. *)
Definition poke (buf : list F) (i : Z) (v : F) : list F :=
  if (i <? 0)%Z then buf else <[Z.to_nat i := v]> buf.

(** The body of the integration loop of [update_rockets] for one rocket.
    The second component is the distance printed by the
    "left simulation area" message, when there is one. *)
Definition integrate_rocket (dt : F) (r : Rocket F)
  : Rocket F * option F :=
  if (Rocket.active r =? 0)%Z then (r, None)
  else
    let vx := Rocket.vx r + Rocket.ax r * dt in
    let vy := Rocket.vy r + Rocket.ay r * dt in
    let x := Rocket.x r + vx * dt in
    let y := Rocket.y r + vy * dt in
    let '(tx, ty, len) :=
      if (Rocket.trail_length r <? Rocket.trail_capacity r)%Z
      then (poke (Rocket.trail_x r) (Rocket.trail_length r) x,
            poke (Rocket.trail_y r) (Rocket.trail_length r) y,
            (Rocket.trail_length r + 1)%Z)
      else (Rocket.trail_x r, Rocket.trail_y r, Rocket.trail_length r) in
    let dist := dsqrt (x * x + y * y) in
    if dgt dist (of_int 50)
    then (Rocket.mk x y vx vy (Rocket.ax r) (Rocket.ay r) 0 tx ty len
                    (Rocket.trail_capacity r), Some dist)
    else (Rocket.mk x y vx vy (Rocket.ax r) (Rocket.ay r) (Rocket.active r)
                    tx ty len (Rocket.trail_capacity r), None).

(** The messages written to standard output: rocket index and distance. *)
Definition Log : Type := list (nat * F).

Definition integrate_at (dt : F) (st : list (Rocket F) * Log) (i : nat)
  : list (Rocket F) * Log :=
  match fst st !! i with
  | Some r =>
      let '(r', msg) := integrate_rocket dt r in
      (<[i := r']> (fst st),
       match msg with
       | Some d => snd st ++ [(i, d)]
       | None => snd st
       end)
  | None => st
  end.

Definition update_rockets (rockets : list (Rocket F)) (n_rockets : Z)
  (bodies : list (Body F)) (n_bodies : Z) (dt g : F)
  : list (Rocket F) * Log :=
  let rockets1 :=
    compute_rocket_forces rockets n_rockets bodies n_bodies g in
  fold_left (integrate_at dt) (range 0 n_rockets) (rockets1, []).

(** What one call of [update_rockets] makes of a rocket of its range:
    the two loop bodies, one after the other. *)
Definition advance (bodies : list (Body F)) (n_bodies : Z) (dt g : F)
  (r : Rocket F) : Rocket F :=
  fst (integrate_rocket dt (rocket_forces_at bodies n_bodies g r)).

(** The samples recorded so far: the first [trail_length] slots. *)
Definition trail (r : Rocket F) : list (F * F) :=
  take (Z.to_nat (Rocket.trail_length r))
       (zip (Rocket.trail_x r) (Rocket.trail_y r)).

(** The position the semi-implicit step gives a rocket: the velocity is
    advanced first and the advanced velocity moves the rocket. *)
Definition moved_x (dt : F) (r : Rocket F) : F :=
  Rocket.x r + (Rocket.vx r + Rocket.ax r * dt) * dt.
Definition moved_y (dt : F) (r : Rocket F) : F :=
  Rocket.y r + (Rocket.vy r + Rocket.ay r * dt) * dt.
End Physics.

(* ================================================================== *)
(** ** src/init.c and src/file_io.c: creation of the rockets *)

Section Setup.
Context {F : Type} `{Double F}.
Local Open Scope dbl_scope.

(** [malloc(n * sizeof(double))]: [n] slots.  Their initial content is
    indeterminate in C; no function below reads a slot it has not
    written, and the model fills them with [0.0]. *)
Definition malloc_doubles (n : Z) : list F :=
  replicate (Z.to_nat n) (of_int 0).

(** The eleven assignments both setup functions make to [rockets[k]]:
    kinematic state, [active = 1], two buffers of [STEPS] slots, the
    initial position stored in slot 0, [trail_length = 1]. *)
Definition new_rocket (x y vx vy : F) : Rocket F :=
  Rocket.mk x y vx vy (of_int 0) (of_int 0) 1
            (<[0%nat := x]> (malloc_doubles STEPS))
            (<[0%nat := y]> (malloc_doubles STEPS))
            1 STEPS.

(** [init_rockets_default(rockets, &n)]: the array and the value of [*n]. *)
Definition init_rockets_default (rockets : list (Rocket F))
  : list (Rocket F) * Z :=
  let semi_major := of_int 5 in
  let eccentricity := lit (6 # 10) in
  let r := semi_major * (of_int 1 - eccentricity) in
  let M_central := of_int 100 in
  let v_perihelion :=
    dsqrt (G * M_central * (of_int 1 + eccentricity)
           / (semi_major * (of_int 1 - eccentricity))) in
  (<[0%nat := new_rocket r (of_int 0) (of_int 0) v_perihelion]> rockets, 1%Z).

(** What [sscanf(line, "%lf %lf %lf %lf", ...)] makes of one line of the
    rockets file: [None] for a comment, an empty line or a line that does
    not scan as four doubles. *)
Definition scanned : Type := option (F * F * F * F).

Fixpoint load_rockets_loop (lines : list scanned)
  (rockets : list (Rocket F)) (count max_rockets : Z)
  : list (Rocket F) * Z :=
  match lines with
  | [] => (rockets, count)
  | l :: rest =>
      if (count <? max_rockets)%Z then
        match l with
        | Some (x, y, vx, vy) =>
            load_rockets_loop rest
              (<[Z.to_nat count := new_rocket x y vx vy]> rockets)
              (count + 1)%Z max_rockets
        | None => load_rockets_loop rest rockets count max_rockets
        end
      else (rockets, count)
  end.

(** [load_rockets(filename, rockets, max_rockets)]; the file is [None]
    when it cannot be opened, and the result is then [-1]. *)
Definition load_rockets (file : option (list scanned))
  (rockets : list (Rocket F)) (max_rockets : Z) : list (Rocket F) * Z :=
  match file with
  | None => (rockets, (-1)%Z)
  | Some lines => load_rockets_loop lines rockets 0 max_rockets
  end.

(** The rocket set-up of [main]: the file, or else the default. *)
Definition setup_rockets (file : option (list scanned))
  (rockets : list (Rocket F)) : list (Rocket F) * Z :=
  let '(rockets1, n_rockets) := load_rockets file rockets MAX_ROCKETS in
  if (n_rockets <? 0)%Z then init_rockets_default rockets1
  else (rockets1, n_rockets).

(** One iteration of the main loop of [main], without its output, and the
    loop over [steps] iterations. *)
Definition sim_step (n_bodies n_rockets : Z) (dt g : F)
  (st : list (Body F) * list (Rocket F)) : list (Body F) * list (Rocket F) :=
  let bodies1 := update_bodies (fst st) n_bodies dt g in
  let rockets1 :=
    fst (update_rockets (snd st) n_rockets bodies1 n_bodies dt g) in
  (bodies1, rockets1).

Fixpoint sim_loop (steps : nat) (n_bodies n_rockets : Z) (dt g : F)
  (st : list (Body F) * list (Rocket F)) : list (Body F) * list (Rocket F) :=
  match steps with
  | O => st
  | S k => sim_loop k n_bodies n_rockets dt g
                    (sim_step n_bodies n_rockets dt g st)
  end.

(** The configuration [main] starts from:
    [{DT, STEPS, FRAMES, STEPS/FRAMES, G}]. *)
Definition default_config : SimConfig F :=
  {| cfg_dt := lit (1 # 100); cfg_steps := STEPS; cfg_frames := FRAMES;
     cfg_save_interval := STEPS `quot` FRAMES; cfg_g := G |}.

(** The main loop of [main]: [config.steps] iterations with [config.dt]
    and [config.g]. *)
Definition main_loop (config : SimConfig F) (n_bodies n_rockets : Z)
  (st : list (Body F) * list (Rocket F)) : list (Body F) * list (Rocket F) :=
  sim_loop (Z.to_nat (cfg_steps config)) n_bodies n_rockets
           (cfg_dt config) (cfg_g config) st.
End Setup.

(* ================================================================== *)
(** ** src/render.c *)

(** Conversion to [unsigned char]. *)
Definition uchar (z : Z) : Z := z mod 256.

(** The iteration space of [for (k = lo; k <= hi; k++)] over [int]. *)
Definition zrange (lo hi : Z) : list Z :=
  map (fun k => lo + Z.of_nat k) (seq 0 (Z.to_nat (hi - lo + 1))).

(** The iteration space of [for (k = 0; k < hi; k += step)]. *)
Definition stride (hi step : Z) : list Z :=
  map (fun k => step * Z.of_nat k) (seq 0 (Z.to_nat ((hi + step - 1) / step))).

(** [img[y * WIDTH + x] = (r, g, b)] *)
Definition store (img : list Pixel) (x y r g b : Z) : list Pixel :=
  <[Z.to_nat (y * WIDTH + x) := Pixel.mk b g r]> img.

(** The guarded store shared by [draw_line] and [draw_circle]. *)
Definition plot (img : list Pixel) (x y r g b : Z) : list Pixel :=
  if (0 <=? x) && (x <? WIDTH) && (0 <=? y) && (y <? HEIGHT)
  then store img x y r g b else img.

(** The [while (1)] loop of [draw_line]; [fuel] bounds the iterations
    ([draw_line] starts it with enough: [draw_line_returns]). *)
Fixpoint draw_line_loop (fuel : nat) (img : list Pixel)
  (x y x2 y2 dx dy sx sy err r g b : Z) : list Pixel :=
  match fuel with
  | O => img
  | S fuel' =>
      let img1 := plot img x y r g b in
      if (x =? x2) && (y =? y2) then img1
      else
        let e2 := 2 * err in
        let '(err1, x1) :=
          if e2 >? - dy then (err - dy, x + sx) else (err, x) in
        let '(err2, y1) :=
          if e2 <? dx then (err1 + dx, y + sy) else (err1, y) in
        draw_line_loop fuel' img1 x1 y1 x2 y2 dx dy sx sy err2 r g b
  end.

Definition draw_line (img : list Pixel) (x1 y1 x2 y2 r g b : Z)
  : list Pixel :=
  let dx := Z.abs (x2 - x1) in
  let dy := Z.abs (y2 - y1) in
  let sx := if x1 <? x2 then 1 else -1 in
  let sy := if y1 <? y2 then 1 else -1 in
  let err := dx - dy in
  draw_line_loop (Z.to_nat (dx + dy + 1)) img x1 y1 x2 y2 dx dy sx sy err
                 (uchar r) (uchar g) (uchar b).

Definition draw_circle (img : list Pixel) (cx cy radius r g b : Z)
  : list Pixel :=
  fold_left
    (fun img1 dy =>
       fold_left
         (fun img2 dx =>
            if dx * dx + dy * dy <=? radius * radius
            then plot img2 (cx + dx) (cy + dy) (uchar r) (uchar g) (uchar b)
            else img2)
         (zrange (- radius) radius) img1)
    (zrange (- radius) radius) img.

Section Render.
Context {F : Type} `{Double F}.
Local Open Scope dbl_scope.

(** [(int)(v * scale + DIM / 2)]: the world-to-pixel projection, written
    the same way at every use in [render] and in [tools/plot_trails.c].
    [DIM / 2] is an integer division, converted to [double] for the sum. *)
Definition project (v scale : F) (dim : Z) : Z :=
  to_int (v * scale + of_int (dim `quot` 2)).

Definition in_image (px py : Z) : bool :=
  (0 <=? px)%Z && (px <? WIDTH)%Z && (0 <=? py)%Z && (py <? HEIGHT)%Z.

(** One segment of a rocket's trail: iteration [t] of the trail loop. *)
Definition render_segment (scale : F) (r : Rocket F) (img : list Pixel)
  (t : nat) : list Pixel :=
  match Rocket.trail_x r !! t, Rocket.trail_y r !! t,
        Rocket.trail_x r !! S t, Rocket.trail_y r !! S t with
  | Some x1, Some y1, Some x2, Some y2 =>
      let px1 := project x1 scale WIDTH in
      let py1 := project y1 scale HEIGHT in
      let px2 := project x2 scale WIDTH in
      let py2 := project y2 scale HEIGHT in
      let brightness :=
        (100 + (155 * Z.of_nat t) `quot`
               (if (Rocket.trail_length r >? 0)%Z
                then Rocket.trail_length r else 1))%Z in
      draw_line img px1 py1 px2 py2
                brightness (brightness `quot` 2) (brightness `quot` 2)
  | _, _, _, _ => img
  end.

Definition render_rocket (scale : F) (img : list Pixel) (r : Rocket F)
  : list Pixel :=
  let img1 :=
    fold_left (render_segment scale r)
              (range 0 (Rocket.trail_length r - 1)) img in
  if (Rocket.trail_length r >? 0)%Z then
    let px := project (Rocket.x r) scale WIDTH in
    let py := project (Rocket.y r) scale HEIGHT in
    if in_image px py then draw_circle img1 px py 4 255 50 50 else img1
  else img1.

Definition render_body (scale : F) (img : list Pixel) (i : nat)
  (b : Body F) : list Pixel :=
  let px := project (Body.x b) scale WIDTH in
  let py := project (Body.y b) scale HEIGHT in
  if in_image px py then
    let radius := if (i =? 0)%nat then 8%Z else 4%Z in
    if (i =? 0)%nat then draw_circle img px py radius 255 255 100
    else draw_circle img px py radius
                     (uchar (100 + Z.of_nat i * 30)) 150 255
  else img.

Definition black : Pixel := Pixel.mk 0 0 0.

Definition render (bodies : list (Body F)) (n_bodies : Z)
  (rockets : list (Rocket F)) (n_rockets : Z) (img : list Pixel) (scale : F)
  : list Pixel :=
  let size := Z.to_nat (WIDTH * HEIGHT) in
  let img0 := replicate size black ++ drop size img in
  let img1 :=
    fold_left (fun im i =>
                 fold_left (fun im' j => store im' i j 20 20 20)
                           (zrange 0 (HEIGHT - 1)) im)
              (stride WIDTH 50) img0 in
  let img2 :=
    fold_left (fun im j =>
                 fold_left (fun im' i => store im' i j 20 20 20)
                           (zrange 0 (WIDTH - 1)) im)
              (stride HEIGHT 50) img1 in
  let img3 :=
    fold_left (fun im i => match rockets !! i with
                           | Some r => render_rocket scale im r
                           | None => im
                           end)
              (range 0 n_rockets) img2 in
  fold_left (fun im i => match bodies !! i with
                         | Some b => render_body scale im i b
                         | None => im
                         end)
            (range 0 n_bodies) img3.
End Render.

(* ================================================================== *)
(** ** src/bmp_io.c *)

(** Two's-complement wrap-around of 32-bit [int] arithmetic. *)
Definition wrap32 (z : Z) : Z := (z + 2 ^ 31) mod 2 ^ 32 - 2 ^ 31.

(** The four initialisers [v & 0xFF, (v >> 8) & 0xFF, (v >> 16) & 0xFF,
    (v >> 24) & 0xFF] of the header array. *)
Definition header_word (v : Z) : list Z :=
  [Z.land v 255; Z.land (Z.shiftr v 8) 255;
   Z.land (Z.shiftr v 16) 255; Z.land (Z.shiftr v 24) 255].

(** [fwrite(p, 3, 1, f)]: the three bytes of a [Pixel], in memory order. *)
Definition pixel_bytes (p : Pixel) : list Z :=
  [Pixel.b p; Pixel.g p; Pixel.r p].

(** One iteration of the row loop of [write_bmp]; a pixel outside the
    buffer (undefined in C) writes nothing. *)
Definition bmp_row (img : list Pixel) (w pad_size y : Z) : list Z :=
  concat (map (fun x => let i := wrap32 (wrap32 (y * w) + x) in
                        if i <? 0 then []
                        else match img !! Z.to_nat i with
                             | Some p => pixel_bytes p
                             | None => []
                             end)
              (zrange 0 (w - 1)))
  ++ (if pad_size >? 0 then replicate (Z.to_nat pad_size) 0 else []).

(** [write_bmp(filename, img, w, h)]: the content of the file, or [None]
    when [fopen] fails ([opened = false]). *)
Definition write_bmp (opened : bool) (img : list Pixel) (w h : Z)
  : option (list Z) :=
  if opened then
    let row_size := Z.land (wrap32 (wrap32 (w * 3) + 3)) (Z.lnot 3) in
    let img_size := wrap32 (row_size * h) in
    let file_size := wrap32 (54 + img_size) in
    let header :=
      [66; 77] ++ header_word file_size
      ++ [0; 0; 0; 0]
      ++ [54; 0; 0; 0]
      ++ [40; 0; 0; 0]
      ++ header_word w ++ header_word h
      ++ [1; 0]
      ++ [24; 0]
      ++ [0; 0; 0; 0]
      ++ header_word img_size
      ++ [0; 0; 0; 0] ++ [0; 0; 0; 0] ++ [0; 0; 0; 0] ++ [0; 0; 0; 0] in
    let pad_size := wrap32 (row_size - wrap32 (w * 3)) in
    Some (header
          ++ concat (map (bmp_row img w pad_size) (rev (zrange 0 (h - 1)))))
  else None.

(* ================================================================== *)
(** ** The object representation of [int] and [double] in a file *)

(** [fwrite(&n, sizeof(int), 1, f)]: four bytes, least significant first. *)
Definition int_bytes (n : Z) : list Z :=
  map (fun k => (n / 2 ^ (8 * Z.of_nat k)) mod 256) (seq 0 4).

(** The unsigned value of little-endian bytes. *)
Fixpoint le_value (bs : list Z) : Z :=
  match bs with
  | [] => 0
  | b :: rest => b + 256 * le_value rest
  end.

(** [fread(&n, sizeof(int), 1, f)]: the [int] read and the rest of the
    file, or [None] when fewer than four bytes are left. *)
Definition read_int (input : list Z) : option (Z * list Z) :=
  if (4 <=? length input)%nat
  then Some (wrap32 (le_value (take 4 input)), drop 4 input)
  else None.

(** The 64-bit pattern of a [double] and back. *)
Class Repr64 (F : Type) : Type := {
  to_bits : F -> Z;
  of_bits : Z -> F
}.

Definition sign_bit (s : bool) : Z := if s then 2 ^ 63 else 0.

(** binary64: sign, 11 exponent bits biased by 1023, 52 fraction bits. *)
Definition float_to_bits (x : float) : Z :=
  match Prim2SF x with
  | S754_zero s => sign_bit s
  | S754_infinity s => sign_bit s + 2047 * 2 ^ 52
  | S754_nan => 2047 * 2 ^ 52 + 2 ^ 51
  | S754_finite s m e =>
      if Zpos m <? 2 ^ 52 then sign_bit s + Zpos m
      else sign_bit s + (e + 1075) * 2 ^ 52 + (Zpos m - 2 ^ 52)
  end.

Definition bits_to_SF (b : Z) : spec_float :=
  let s := Z.testbit b 63 in
  let ex := (b / 2 ^ 52) mod 2 ^ 11 in
  let fr := b mod 2 ^ 52 in
  if ex =? 0 then
    if fr =? 0 then S754_zero s else S754_finite s (Z.to_pos fr) (-1074)
  else if ex =? 2047 then
    if fr =? 0 then S754_infinity s else S754_nan
  else S754_finite s (Z.to_pos (fr + 2 ^ 52)) (ex - 1075).

Definition float_of_bits (b : Z) : float := SF2Prim (bits_to_SF b).

#[export] Instance float_Repr64 : Repr64 float := {|
  to_bits := float_to_bits; of_bits := float_of_bits
|}.

Section TrailFile.
Context {F : Type} `{Repr64 F}.

Definition double_bytes (x : F) : list Z :=
  map (fun k => (to_bits x / 2 ^ (8 * Z.of_nat k)) mod 256) (seq 0 8).

(** [fwrite(buf, sizeof(double), count, f)]: the first [count] doubles. *)
Definition doubles_bytes (buf : list F) (count : Z) : list Z :=
  concat (map double_bytes (take (Z.to_nat count) buf)).

(** [fread(buf, sizeof(double), count, f)] into a fresh buffer of [count]
    doubles: the buffer and the rest of the file, or [None] when the file
    holds fewer than [count] doubles (the caller then stops). *)
Fixpoint read_doubles (count : nat) (input : list Z)
  : option (list F * list Z) :=
  match count with
  | O => Some ([], input)
  | S k =>
      if (8 <=? length input)%nat then
        match read_doubles k (drop 8 input) with
        | Some (xs, rest) => Some (of_bits (le_value (take 8 input)) :: xs, rest)
        | None => None
        end
      else None
  end.

(** The three [fwrite] calls of one iteration of the loop of
    [save_rocket_trails_bin]. *)
Definition rocket_bytes (r : Rocket F) : list Z :=
  int_bytes (Rocket.trail_length r)
  ++ doubles_bytes (Rocket.trail_x r) (Rocket.trail_length r)
  ++ doubles_bytes (Rocket.trail_y r) (Rocket.trail_length r).

(** src/file_io.c, [save_rocket_trails_bin(filename, rockets, n)]: the
    content of the file once it is opened. *)
Definition save_rocket_trails_bin (rockets : list (Rocket F)) (n : Z)
  : list Z :=
  int_bytes n
  ++ concat
       (map (fun i =>
               match rockets !! i with
               | Some r => rocket_bytes r
               | None => []
               end)
            (range 0 n)).
End TrailFile.

(* ================================================================== *)
(** ** tools/plot_trails.c *)

Section PlotTrails.
Context {F : Type} `{Double F} `{Repr64 F}.
Local Open Scope dbl_scope.

Definition colors : list (Z * Z * Z) :=
  [(255, 100, 100); (100, 255, 100); (100, 100, 255); (255, 255, 100);
   (255, 100, 255); (100, 255, 255); (255, 150, 100); (150, 100, 255);
   (100, 255, 150); (255, 100, 150)]%Z.

(** The drawing of one loaded trajectory: segments, start and end marks. *)
Definition plot_trajectory (scale : F) (img : list Pixel) (i : nat)
  (trail_length : Z) (trail_x trail_y : list F) : list Pixel :=
  let '(r, g, b) := nth (i mod 10) colors (0, 0, 0)%Z in
  let img1 :=
    fold_left
      (fun im j =>
         match trail_x !! j, trail_y !! j, trail_x !! S j, trail_y !! S j with
         | Some x1, Some y1, Some x2, Some y2 =>
             let px1 := project x1 scale WIDTH in
             let py1 := project y1 scale HEIGHT in
             let px2 := project x2 scale WIDTH in
             let py2 := project y2 scale HEIGHT in
             let brightness :=
               (100 + (155 * Z.of_nat j) `quot` trail_length)%Z in
             draw_line im px1 py1 px2 py2
                       ((r * brightness) `quot` 255)
                       ((g * brightness) `quot` 255)
                       ((b * brightness) `quot` 255)
         | _, _, _, _ => im
         end)
      (range 0 (trail_length - 1)) img in
  let img2 :=
    match trail_x !! 0%nat, trail_y !! 0%nat with
    | Some x0, Some y0 =>
        draw_circle img1 (project x0 scale WIDTH) (project y0 scale HEIGHT)
                    4 100 255 100
    | _, _ => img1
    end in
  match trail_x !! Z.to_nat (trail_length - 1),
        trail_y !! Z.to_nat (trail_length - 1) with
  | Some xe, Some ye =>
      draw_circle img2 (project xe scale WIDTH) (project ye scale HEIGHT)
                  6 r g b
  | _, _ => img2
  end.

(** The "load and plot each rocket" loop: iterations [i, i + todo) on the
    rest of the file.  The result is the image and, for each iteration
    that got as far as drawing, the two arrays it read.  A failed read or
    allocation is the [break] of the C loop.
    [malloc(trail_length * sizeof(double))] fails for a negative
    [trail_length] (a huge [size_t]) and, with a C library that returns
    [NULL] for a request of size zero ([null_on_zero]), for
    [trail_length = 0]; every other allocation is taken to succeed. *)
Fixpoint plot_loop (null_on_zero : bool) (todo : nat) (i : nat)
  (input : list Z) (img : list Pixel)
  : list Pixel * list (list F * list F) :=
  match todo with
  | O => (img, [])
  | S todo' =>
      match read_int input with
      | None => (img, [])
      | Some (trail_length, rest) =>
          if (trail_length <? 0)%Z
             || (null_on_zero && (trail_length =? 0)%Z)
          then (img, [])
          else
            match read_doubles (Z.to_nat trail_length) rest with
            | None => (img, [])
            | Some (trail_x, rest1) =>
                match read_doubles (Z.to_nat trail_length) rest1 with
                | None => (img, [])
                | Some (trail_y, rest2) =>
                    let img1 :=
                      plot_trajectory (of_int 50) img i trail_length
                                      trail_x trail_y in
                    let '(img2, trails) :=
                      plot_loop null_on_zero todo' (S i) rest2 img1 in
                    (img2, (trail_x, trail_y) :: trails)
                end
            end
      end
  end.

(** [main] of the plotting tool on the bytes of the input file: [None]
    is exit status 1 (no rocket count could be read); otherwise the
    trajectories loaded and the bytes of the image written. *)
Definition plot_main (null_on_zero : bool) (input : list Z)
  : option (list (list F * list F) * option (list Z)) :=
  match read_int input with
  | None => None
  | Some (n_rockets, rest) =>
      let img0 := replicate (Z.to_nat (WIDTH * HEIGHT)) black in
      let img1 :=
        fold_left (fun im i =>
                     fold_left (fun im' j => store im' i j 30 30 30)
                               (zrange 0 (HEIGHT - 1)) im)
                  (stride WIDTH 50) img0 in
      let img2 :=
        fold_left (fun im j =>
                     fold_left (fun im' i => store im' i j 30 30 30)
                               (zrange 0 (WIDTH - 1)) im)
                  (stride HEIGHT 50) img1 in
      let img3 :=
        draw_circle img2 (WIDTH `quot` 2) (HEIGHT `quot` 2) 5 255 255 100 in
      let '(img4, trails) :=
        plot_loop null_on_zero (Z.to_nat n_rockets) 0 rest img3 in
      Some (trails, write_bmp true img4 WIDTH HEIGHT)
  end.
End PlotTrails.

(* ================================================================== *)
(** ** The core operations as a transition system *)

Section World.
Context {F : Type} `{Double F}.

Record World : Type := {
  w_bodies : list (Body F);
  w_rockets : list (Rocket F);
  w_img : list Pixel
}.

(** A call of one of the three core operations, with its scalar
    arguments; the arrays are those of the world. *)
Inductive Op : Type :=
| UpdateBodies (n : Z) (dt g : F)
| UpdateRockets (n_rockets n_bodies : Z) (dt g : F)
| Render (n_bodies n_rockets : Z) (scale : F).

Definition exec (w : World) (op : Op) : World :=
  match op with
  | UpdateBodies n dt g =>
      {| w_bodies := update_bodies (w_bodies w) n dt g;
         w_rockets := w_rockets w;
         w_img := w_img w |}
  | UpdateRockets n_rockets n_bodies dt g =>
      {| w_bodies := w_bodies w;
         w_rockets :=
           fst (update_rockets (w_rockets w) n_rockets
                               (w_bodies w) n_bodies dt g);
         w_img := w_img w |}
  | Render n_bodies n_rockets scale =>
      {| w_bodies := w_bodies w;
         w_rockets := w_rockets w;
         w_img := render (w_bodies w) n_bodies (w_rockets w) n_rockets
                         (w_img w) scale |}
  end.

Definition run (ops : list Op) (w : World) : World := fold_left exec ops w.
End World.

(* ================================================================== *)
(** ** The specification's formulas *)

(** The unordered pairs [(i, j)], [i < j < n], by ascending [i], then
    ascending [j]. *)
Definition pairs (n : nat) : list (nat * nat) :=
  flat_map (fun i => map (pair i) (seq (S i) (n - S i))) (seq 0 n).

Section ForceKernel.
Context {F : Type} `{Double F}.
Local Open Scope dbl_scope.

(** All that [compute_forces] reads of a body. *)
Definition pos_mass (b : Body F) : F * F * F :=
  (Body.x b, Body.y b, Body.mass b).

Definition acc (b : Body F) : F * F := (Body.ax b, Body.ay b).

(** What the pair [(i, j)] does to the accumulators [a] of body [k], with
    the operations in the order of the source. *)
Definition accumulate (g : F) (pm : list (F * F * F)) (k : nat)
  (a : F * F) (ij : nat * nat) : F * F :=
  match pm !! fst ij, pm !! snd ij with
  | Some (xi, yi, mi), Some (xj, yj, mj) =>
      let dx := xj - xi in
      let dy := yj - yi in
      let dist_sq := dx * dx + dy * dy + SOFTENING * SOFTENING in
      let dist := dsqrt dist_sq in
      let force := g / dist_sq in
      let fx := force * dx / dist in
      let fy := force * dy / dist in
      if decide (k = fst ij) then (fst a + fx * mj, snd a + fy * mj)
      else if decide (k = snd ij) then (fst a - fx * mi, snd a - fy * mi)
      else a
  | _, _ => a
  end.

(** The accumulators of body [k] after the pairs [ps], from zero. *)
Definition accumulated (g : F) (pm : list (F * F * F)) (ps : list (nat * nat))
  (k : nat) : F * F :=
  fold_left (accumulate g pm k) ps (of_int 0, of_int 0).

(** The array in which body [k < n] carries the accumulators [A k] and
    every other field, and every other body, is as in [bodies]. *)
Definition lay (bodies : list (Body F)) (n : nat) (A : nat -> F * F)
  : list (Body F) :=
  imap (fun k b => if decide (k < n)%nat
                   then set_acc b (fst (A k)) (snd (A k)) else b) bodies.
End ForceKernel.

Section OverTheReals.
Local Open Scope R_scope.

(** The contribution of the pair [(i, j)] to the acceleration of body [k],
    in the words of the specification: the vector
    [(g/d2) * (dx/d, dy/d)] times [mass_j] for body [i], its negation
    times [mass_i] for body [j]. *)
Definition contribution (g : R) (pm : list (R * R * R)) (k : nat)
  (ij : nat * nat) : R * R :=
  match pm !! fst ij, pm !! snd ij with
  | Some (xi, yi, mi), Some (xj, yj, mj) =>
      let dx := xj - xi in
      let dy := yj - yi in
      let d2 := dx * dx + dy * dy + (1 / 10) * (1 / 10) in
      let d := sqrt d2 in
      let ux := (g / d2) * (dx / d) in
      let uy := (g / d2) * (dy / d) in
      if decide (k = fst ij) then (ux * mj, uy * mj)
      else if decide (k = snd ij) then (- ux * mi, - uy * mi)
      else (0, 0)
  | _, _ => (0, 0)
  end.

Definition vsum (vs : list (R * R)) : R * R :=
  fold_left (fun s v => (fst s + fst v, snd s + snd v)) vs (0, 0).

(** The acceleration of body [k]: the sum of the contributions, taken in
    the order of [pairs]. *)
Definition spec_accel (g : R) (pm : list (R * R * R)) (n : nat) (k : nat)
  : R * R :=
  vsum (map (contribution g pm k) (pairs n)).

Definition norm (v : R * R) : R := sqrt (fst v * fst v + snd v * snd v).

(** [u] is a negative multiple of [v]. *)
Definition antiparallel (u v : R * R) : Prop :=
  exists c : R, 0 < c /\ u = (- c * fst v, - c * snd v).

(** Newton's third law as the specification words it, for every two
    distinct bodies of an array. *)
Definition third_law (bodies : list (Body R)) : Prop :=
  forall i j bi bj, i <> j ->
    bodies !! i = Some bi -> bodies !! j = Some bj ->
    Body.mass bi * norm (acc bi) = Body.mass bj * norm (acc bj)
    /\ antiparallel (acc bi) (acc bj).

(** [z] is an integer nearest to [v]: what any rounding to nearest
    returns, whatever it does with ties. *)
(** Three unit masses in a row on the x axis, at rest. *)
Definition collinear_three : list (Body R) :=
  [Body.mk (-1) 0 0 0 0 0 1; Body.mk 0 0 0 0 0 0 1; Body.mk 1 0 0 0 0 0 1].


(** [z] is [v] with its fractional part discarded. *)
Definition truncation (v : R) (z : Z) : Prop :=
  (0 <= v -> IZR z <= v < IZR z + 1) /\ (v <= 0 -> IZR z - 1 < v <= IZR z).
End OverTheReals.


(** *** The image container, field by field *)

Definition le_bytes (k : nat) (v : Z) : list Z :=
  map (fun i => (v / 2 ^ (8 * Z.of_nat i)) mod 256) (seq 0 k).
Definition u16 (v : Z) : list Z := le_bytes 2 v.
Definition u32 (v : Z) : list Z := le_bytes 4 v.
Definition i32 (v : Z) : list Z := le_bytes 4 (v mod 2 ^ 32).

Definition rowStride (w : Z) : Z := Z.land (w * 3 + 3) (Z.lnot 3).

(** The header as the specification lists it, with two reserved [u32]. *)
Definition claimed_header (w h : Z) : list Z :=
  [66; 77] ++ u32 (54 + rowStride w * h)
  ++ u32 0 ++ u32 0
  ++ u32 54 ++ u32 40 ++ i32 w ++ i32 h ++ u16 1 ++ u16 24 ++ u32 0
  ++ u32 (rowStride w * h)
  ++ u32 0 ++ u32 0 ++ u32 0 ++ u32 0.

(** The same with one reserved [u32] (the two reserved [u16] of the
    format). *)
Definition bmp_header (w h : Z) : list Z :=
  [66; 77] ++ u32 (54 + rowStride w * h)
  ++ u32 0
  ++ u32 54 ++ u32 40 ++ i32 w ++ i32 h ++ u16 1 ++ u16 24 ++ u32 0
  ++ u32 (rowStride w * h)
  ++ u32 0 ++ u32 0 ++ u32 0 ++ u32 0.

(** Row [y] of a row-major buffer of width [w]. *)
Definition image_row (img : list Pixel) (w : Z) (y : nat) : list Pixel :=
  take (Z.to_nat w) (drop (y * Z.to_nat w) img).

(** Bottom row first; each row as BGR triples, then zero bytes up to
    [rowStride]. *)
Definition pixel_data (img : list Pixel) (w h : Z) : list Z :=
  concat
    (map (fun y =>
            concat (map (fun p => [Pixel.b p; Pixel.g p; Pixel.r p])
                        (image_row img w y))
            ++ replicate (Z.to_nat (rowStride w - w * 3)) 0)
         (rev (seq 0 (Z.to_nat h)))).

(** *** The trajectory dump *)

(** The samples a rocket has recorded, as its two coordinate arrays. *)
Definition recorded {F : Type} (r : Rocket F) : list F * list F :=
  (take (Z.to_nat (Rocket.trail_length r)) (Rocket.trail_x r),
   take (Z.to_nat (Rocket.trail_length r)) (Rocket.trail_y r)).

(** A [double] in the file: the eight bytes of its pattern, least
    significant first. *)
Definition f64 {F : Type} `{Repr64 F} (x : F) : list Z :=
  le_bytes 8 (to_bits x).

(** The layout of the dump: the count, then per rocket the trail length,
    the x values, the y values. *)
Definition dump_layout {F : Type} `{Repr64 F} (rockets : list (Rocket F))
  : list Z :=
  i32 (Z.of_nat (length rockets))
  ++ concat (map (fun r =>
                    i32 (Rocket.trail_length r)
                    ++ concat (map f64 (fst (recorded r)))
                    ++ concat (map f64 (snd (recorded r))))
                 rockets).

(** A rocket whose trail length is a non-negative [int] within its two
    buffers. *)
Definition well_formed {F : Type} (r : Rocket F) : Prop :=
  0 <= Rocket.trail_length r < 2 ^ 31
  /\ (Z.to_nat (Rocket.trail_length r) <= length (Rocket.trail_x r))%nat
  /\ (Z.to_nat (Rocket.trail_length r) <= length (Rocket.trail_y r))%nat.

(** The reader can allocate the arrays of this rocket: always, unless the
    C library returns [NULL] for an empty request and the trail is empty. *)
Definition loadable {F : Type} (null_on_zero : bool) (r : Rocket F) : Prop :=
  null_on_zero = true -> 0 < Rocket.trail_length r.

(** *** Sample inputs *)

(** The two bodies of the two-body force test, at rest, in binary64. *)
Definition binary_pair : list (Body float) :=
  [Body.mk (of_int 0) (of_int 0) (of_int 0) (of_int 0) (of_int 0) (of_int 0)
           (of_int 10);
   Body.mk (of_int 2) (of_int 0) (of_int 0) (of_int 0) (of_int 0) (of_int 0)
           (of_int 5)].

(** The same two bodies entering with stale accelerations. *)
Definition binary_pair_stale : list (Body float) :=
  [Body.mk (of_int 0) (of_int 0) (of_int 0) (of_int 0) (of_int 7) (of_int 7)
           (of_int 10);
   Body.mk (of_int 2) (of_int 0) (of_int 0) (of_int 0) (of_int 7) (of_int 7)
           (of_int 5)].

(** An array slot of [main] before set-up (its content is indeterminate). *)
Definition blank : Rocket float :=
  Rocket.mk (of_int 0) (of_int 0) (of_int 0) (of_int 0) (of_int 0) (of_int 0)
            0 [] [] 0 0.

(** A single body of mass 100 at the origin. *)
Definition star : list (Body float) :=
  [Body.mk (of_int 0) (of_int 0) (of_int 0) (of_int 0) (of_int 0) (of_int 0)
           (of_int 100)].

(** The rockets after the main loop, from the default rocket (no rockets
    file), around [star]. *)
Definition default_run (config : SimConfig float) : list (Rocket float) :=
  let '(rockets, n_rockets) := setup_rockets None (replicate 10 blank) in
  snd (main_loop config 1 n_rockets (star, rockets)).

(** An active rocket with a three-slot trail holding one sample, and the
    same rocket frozen. *)
Definition probe : Rocket float :=
  Rocket.mk (of_int 49) (of_int 0) (of_int 200) (of_int 0) (of_int 0)
            (of_int 0) 1
            [of_int 49; of_int 0; of_int 0] [of_int 0; of_int 0; of_int 0] 1 3.

Definition frozen : Rocket float :=
  Rocket.mk (of_int 49) (of_int 0) (of_int 200) (of_int 0) (of_int 0)
            (of_int 0) 0
            [of_int 49; of_int 0; of_int 0] [of_int 0; of_int 0; of_int 0] 1 3.

(* ================================================================== *)
(** ** src/file_io.c: the bodies file, the configuration file, the
       trajectory statistics *)

Section Files.
Context {F : Type} `{Double F}.
Local Open Scope dbl_scope.

(** The seven assignments [load_bodies] makes to [bodies[count]]. *)
Definition new_body (x y vx vy mass : F) : Body F :=
  Body.mk x y vx vy (of_int 0) (of_int 0) mass.

(** What [sscanf(line, "%lf %lf %lf %lf %lf", ...)] makes of one line of
    the bodies file: [None] for a comment, an empty line or a line that
    does not scan as five doubles. *)
Definition scanned_body : Type := option (F * F * F * F * F).

Fixpoint load_bodies_loop (lines : list scanned_body)
  (bodies : list (Body F)) (count max_bodies : Z) : list (Body F) * Z :=
  match lines with
  | [] => (bodies, count)
  | l :: rest =>
      if (count <? max_bodies)%Z then
        match l with
        | Some (x, y, vx, vy, mass) =>
            load_bodies_loop rest
              (<[Z.to_nat count := new_body x y vx vy mass]> bodies)
              (count + 1)%Z max_bodies
        | None => load_bodies_loop rest bodies count max_bodies
        end
      else (bodies, count)
  end.

(** [load_bodies(filename, bodies, max_bodies)]; the file is [None] when
    it cannot be opened, and the result is then [-1]. *)
Definition load_bodies (file : option (list scanned_body))
  (bodies : list (Body F)) (max_bodies : Z) : list (Body F) * Z :=
  match file with
  | None => (bodies, (-1)%Z)
  | Some lines => load_bodies_loop lines bodies 0 max_bodies
  end.




(** Iteration [j] of the trail loop of [save_trajectory_stats], on the
    pair [(max_dist, total_distance)]. *)
Definition stats_sample (r : Rocket F) (s : F * F) (j : nat) : F * F :=
  match Rocket.trail_x r !! j, Rocket.trail_y r !! j with
  | Some xj, Some yj =>
      let dist := dsqrt (xj * xj + yj * yj) in
      let max_dist := if dgt dist (fst s) then dist else fst s in
      if (0 <? j)%nat then
        match Rocket.trail_x r !! (j - 1)%nat, Rocket.trail_y r !! (j - 1)%nat with
        | Some xp, Some yp =>
            let dx := xj - xp in
            let dy := yj - yp in
            (max_dist, snd s + dsqrt (dx * dx + dy * dy))
        | _, _ => (max_dist, snd s)
        end
      else (max_dist, snd s)
  | _, _ => s
  end.

(** The four numbers [save_trajectory_stats] prints for one rocket after
    its index: trail length, final distance, maximum distance, average
    speed. *)
Definition trajectory_stats (dt : F) (r : Rocket F) : Z * F * F * F :=
  let final_dist :=
    dsqrt (Rocket.x r * Rocket.x r + Rocket.y r * Rocket.y r) in
  let s := fold_left (stats_sample r) (range 0 (Rocket.trail_length r))
                     (of_int 0, of_int 0) in
  let sim_time := of_int (Rocket.trail_length r) * dt in
  let avg_speed :=
    if dgt sim_time (of_int 0) then snd s / sim_time else of_int 0 in
  (Rocket.trail_length r, final_dist, fst s, avg_speed).
End Files.

(* ================================================================== *)
(** ** src/main.c: the frames *)

Section Frames.
Context {F : Type} `{Double F}.

(** [frame_interval] as [main] computes it.  The quotient
    [config.steps / config.frames] is evaluated first, whatever
    [save_interval] is; a zero divisor (undefined in C) gives [None]. *)
Definition frame_interval (config : SimConfig F) : option Z :=
  if cfg_frames config =? 0 then None
  else Some (if cfg_save_interval config >? 0 then cfg_save_interval config
             else cfg_steps config `quot` cfg_frames config).

(** The main loop with its output: iterations [step, step + todo).  Each
    frame is its number, its step and the content of [frame_NNNN.bmp]
    ([None] when the file cannot be created). *)
Fixpoint frame_loop (opened : bool) (todo : nat) (step interval : Z)
  (config : SimConfig F) (n_bodies n_rockets : Z)
  (st : list (Body F) * list (Rocket F)) (img : list Pixel)
  : list (Z * Z * option (list Z)) :=
  match todo with
  | O => []
  | S todo' =>
      let st1 := sim_step n_bodies n_rockets (cfg_dt config) (cfg_g config) st in
      if step `rem` interval =? 0 then
        let img1 :=
          render (fst st1) n_bodies (snd st1) n_rockets img (of_int 50) in
        (step `quot` interval, step, write_bmp opened img1 WIDTH HEIGHT)
        :: frame_loop opened todo' (step + 1) interval config
                      n_bodies n_rockets st1 img1
      else frame_loop opened todo' (step + 1) interval config
                      n_bodies n_rockets st1 img
  end.

(** The frames of a run of [main]; [None] when [main] divides by zero:
    [frames = 0], or a zero interval with at least one step to take. *)
Definition main_frames (opened : bool) (config : SimConfig F)
  (n_bodies n_rockets : Z) (st : list (Body F) * list (Rocket F))
  (img : list Pixel) : option (list (Z * Z * option (list Z))) :=
  match frame_interval config with
  | None => None
  | Some interval =>
      if (interval =? 0) && (0 <? cfg_steps config) then None
      else Some (frame_loop opened (Z.to_nat (cfg_steps config)) 0 interval
                            config n_bodies n_rockets st img)
  end.
End Frames.

(* ================================================================== *)
(** ** Quantities the further properties are stated with *)

(** The message the integration loop of [update_rockets] prints for
    index [i] of [rockets]. *)
Definition message_at {F : Type} `{Double F} (dt : F)
  (rockets : list (Rocket F)) (i : nat) : option (nat * F) :=
  match rockets !! i with
  | Some r => pair i <$> snd (integrate_rocket dt r)
  | None => None
  end.

(** The pixel at column [x] of row [y] of a frame buffer. *)
Definition pixel_at (img : list Pixel) (x y : Z) : option Pixel :=
  img !! Z.to_nat (y * WIDTH + x).

(** The pixel a drawing call with the [int] colour [(r, g, b)] stores. *)
Definition painted (r g b : Z) : Pixel :=
  Pixel.mk (uchar b) (uchar g) (uchar r).

(** The points the loop of [draw_line] visits, in order. *)
Fixpoint line_points (fuel : nat) (x y x2 y2 dx dy sx sy err : Z)
  : list (Z * Z) :=
  match fuel with
  | O => []
  | S fuel' =>
      (x, y) ::
      if (x =? x2) && (y =? y2) then []
      else
        let e2 := 2 * err in
        let '(err1, x1) :=
          if e2 >? - dy then (err - dy, x + sx) else (err, x) in
        let '(err2, y1) :=
          if e2 <? dx then (err1 + dx, y + sy) else (err1, y) in
        line_points fuel' x1 y1 x2 y2 dx dy sx sy err2
  end.

Definition line_pixels (x1 y1 x2 y2 : Z) : list (Z * Z) :=
  let dx := Z.abs (x2 - x1) in
  let dy := Z.abs (y2 - y1) in
  line_points (Z.to_nat (dx + dy + 1)) x1 y1 x2 y2 dx dy
              (if x1 <? x2 then 1 else -1) (if y1 <? y2 then 1 else -1)
              (dx - dy).

(** The frame buffer after the clearing and the grid of [render]. *)
Definition background (img : list Pixel) : list Pixel :=
  let size := Z.to_nat (WIDTH * HEIGHT) in
  fold_left (fun im j =>
               fold_left (fun im' i => store im' i j 20 20 20)
                         (zrange 0 (WIDTH - 1)) im)
            (stride HEIGHT 50)
            (fold_left (fun im i =>
                          fold_left (fun im' j => store im' i j 20 20 20)
                                    (zrange 0 (HEIGHT - 1)) im)
                       (stride WIDTH 50)
                       (replicate size black ++ drop size img)).

(** The colour [render] draws body [i] with. *)
Definition body_colour (i : nat) : Pixel :=
  if (i =? 0)%nat then painted 255 255 100
  else painted (uchar (100 + Z.of_nat i * 30)) 150 255.


(** A rocket whose trail fits its buffers: the length is not negative and
    neither it nor the capacity exceeds a buffer. *)
Definition trail_fits {F : Type} (r : Rocket F) : Prop :=
  0 <= Rocket.trail_length r
  /\ (Z.to_nat (Rocket.trail_length r) <= length (Rocket.trail_x r))%nat
  /\ (Z.to_nat (Rocket.trail_length r) <= length (Rocket.trail_y r))%nat
  /\ (Z.to_nat (Rocket.trail_capacity r) <= length (Rocket.trail_x r))%nat
  /\ (Z.to_nat (Rocket.trail_capacity r) <= length (Rocket.trail_y r))%nat.

(** The data lines of a file: the lines that scanned. *)
Definition data_lines {A : Type} (lines : list (option A)) : list A :=
  omap (fun l => l) lines.

(** The array element a data line of the rockets file, and of the bodies
    file, stands for. *)
Definition rocket_of_line {F : Type} `{Double F} (d : F * F * F * F)
  : Rocket F :=
  let '(x, y, vx, vy) := d in new_rocket x y vx vy.

Definition body_of_line {F : Type} `{Double F} (d : F * F * F * F * F)
  : Body F :=
  let '(x, y, vx, vy, mass) := d in new_body x y vx vy mass.

(** The loop the two loaders have in common: each data line fills the
    next slot, until the lines or the slots run out. *)
Fixpoint fill_loop {A D : Type} (mk : D -> A) (lines : list (option D))
  (slots : list A) (count max : Z) : list A * Z :=
  match lines with
  | [] => (slots, count)
  | l :: rest =>
      if count <? max then
        match l with
        | Some d =>
            fill_loop mk rest (<[Z.to_nat count := mk d]> slots) (count + 1) max
        | None => fill_loop mk rest slots count max
        end
      else (slots, count)
  end.


Section Mechanics.
Local Open Scope R_scope.

Definition total (l : list R) : R := fold_right Rplus 0 l.

(** Total momentum, and total force (mass times acceleration), of an
    array of bodies. *)
Definition momentum (bodies : list (Body R)) : R * R :=
  (total (map (fun b => Body.mass b * Body.vx b) bodies),
   total (map (fun b => Body.mass b * Body.vy b) bodies)).

Definition net_force (bodies : list (Body R)) : R * R :=
  (total (map (fun b => Body.mass b * Body.ax b) bodies),
   total (map (fun b => Body.mass b * Body.ay b) bodies)).

(** The acceleration body [b] gives a test particle at [(x, y)]:
    magnitude [g * mass / d2], directed at the body. *)
Definition pull (g x y : R) (b : Body R) : R * R :=
  let dx := Body.x b - x in
  let dy := Body.y b - y in
  let d2 := dx * dx + dy * dy + (1 / 10) * (1 / 10) in
  let d := sqrt d2 in
  (g * Body.mass b / d2 * (dx / d), g * Body.mass b / d2 * (dy / d)).

(** The length of the polygonal path through [pts]. *)
Fixpoint path_length (pts : list (R * R)) : R :=
  match pts with
  | p :: (q :: _) as rest =>
      norm (fst q - fst p, snd q - snd p) + path_length rest
  | _ => 0
  end.

(** The largest distance from the origin among [pts], [0] for none. *)
Definition max_norm (pts : list (R * R)) : R :=
  fold_right (fun p m => Rmax (norm p) m) 0 pts.
End Mechanics.

(* ================================================================== *)
(** * Proofs *)

(** ** Loops over index ranges *)

(** Splits on whether an index is inside the range of a loop; the branch
    that contradicts the context is closed by arithmetic. *)
Ltac in_range :=
  match goal with
  | |- context [decide (?k < ?n)%nat] =>
      destruct (decide (k < n)%nat); first [reflexivity | lia]
  end.

Lemma range_0 (n : Z) : range 0 n = seq 0 (Z.to_nat n).
Proof. unfold range. simpl. f_equal. lia. Qed.

Lemma range_succ (i : nat) (n : Z) :
  range (Z.of_nat i + 1) n = seq (S i) (Z.to_nat n - S i).
Proof. unfold range. f_equal; lia. Qed.

Lemma elem_of_range_0 (k : nat) (n : Z) :
  k ∈ range 0 n <-> (k < Z.to_nat n)%nat.
Proof. rewrite range_0, elem_of_seq. lia. Qed.

(** A loop that rewrites slot [i] at iteration [i] touches each slot of its
    range once and no other. *)
Lemma fold_alter_lookup {A} (f : A -> A) (idx : list nat) :
  NoDup idx -> forall (l : list A) (k : nat),
  fold_left (fun bs i => alter f i bs) idx l !! k
  = if decide (k ∈ idx) then f <$> l !! k else l !! k.
Proof.
  induction 1 as [|i idx Hi Hnd IH]; intros l k; simpl.
  - destruct (decide (k ∈ [])) as [Hin|]; [inversion Hin | reflexivity].
  - rewrite IH.
    destruct (decide (k = i)) as [->|Hne].
    + destruct (decide (i ∈ idx)); [contradiction|].
      rewrite list_lookup_alter_eq.
      destruct (decide (i ∈ i :: idx)) as [|Hn]; [reflexivity|].
      exfalso. apply Hn. left.
    + rewrite list_lookup_alter_ne by congruence.
      destruct (decide (k ∈ idx)) as [Hin|Hnin];
        destruct (decide (k ∈ i :: idx)) as [Hin'|Hnin']; try reflexivity.
      * exfalso. apply Hnin'. right. exact Hin.
      * exfalso. apply elem_of_cons in Hin' as [?|?]; [congruence|contradiction].
Qed.

Lemma loop_alter_lookup {A} (f : A -> A) (n : Z) (l : list A) (k : nat) :
  fold_left (fun bs i => alter f i bs) (range 0 n) l !! k
  = if decide (k < Z.to_nat n)%nat then f <$> l !! k else l !! k.
Proof.
  rewrite fold_alter_lookup by (rewrite range_0; apply NoDup_seq).
  destruct (decide (k ∈ range 0 n)) as [Hin|Hnin];
    destruct (decide (k < Z.to_nat n)%nat) as [Hlt|Hge]; try reflexivity;
    rewrite elem_of_range_0 in *; contradiction.
Qed.

Lemma fold_left_flat_map {A B C} (g : A -> C -> A) (h : B -> list C)
  (l : list B) (a : A) :
  fold_left g (flat_map h l) a
  = fold_left (fun a' b => fold_left g (h b) a') l a.
Proof.
  revert a. induction l as [|b l IH]; intros a; simpl; [reflexivity|].
  rewrite fold_left_app. apply IH.
Qed.

Lemma fold_left_map' {A B C} (g : A -> C -> A) (h : B -> C) (l : list B)
  (a : A) :
  fold_left g (map h l) a = fold_left (fun a' b => g a' (h b)) l a.
Proof. revert a. induction l as [|b l IH]; intros a; simpl; auto. Qed.

Lemma fold_left_ext_in {A B} (g g' : A -> B -> A) (l : list B) (a : A) :
  (forall a' b, In b l -> g a' b = g' a' b) ->
  fold_left g l a = fold_left g' l a.
Proof.
  revert a. induction l as [|b l IH]; intros a Hg; simpl; [reflexivity|].
  rewrite Hg by (left; reflexivity). apply IH.
  intros a' b' Hin. apply Hg. right. exact Hin.
Qed.

(** The two nested loops of [compute_forces] visit the pairs of [pairs]. *)
Lemma nested_loops_pairs {A} (step : nat -> nat -> A -> A) (n : Z) (a : A) :
  fold_left
    (fun bs i => fold_left (fun bs' j => step i j bs')
                           (range (Z.of_nat i + 1) n) bs)
    (range 0 n) a
  = fold_left (fun bs ij => step (fst ij) (snd ij) bs) (pairs (Z.to_nat n)) a.
Proof.
  unfold pairs. rewrite fold_left_flat_map, range_0.
  apply fold_left_ext_in. intros a' i _.
  rewrite range_succ, fold_left_map'. reflexivity.
Qed.

Lemma pairs_ordered (n : nat) (ij : nat * nat) :
  In ij (pairs n) -> (fst ij < snd ij < n)%nat.
Proof.
  unfold pairs. rewrite in_flat_map. intros (i & Hi & Hij).
  apply in_map_iff in Hij as (j & <- & Hj).
  apply in_seq in Hi. apply in_seq in Hj. simpl. lia.
Qed.

(* ================================================================== *)
(** ** The force kernel *)

Section ForceKernelProofs.
Context {F : Type} `{Double F}.
Implicit Types (bodies : list (Body F)) (g dt : F) (A : nat -> F * F).
Local Open Scope dbl_scope.

Lemma lay_lookup bodies n A k :
  lay bodies n A !! k
  = (fun b => if decide (k < n)%nat
              then set_acc b (fst (A k)) (snd (A k)) else b) <$> bodies !! k.
Proof. unfold lay. apply list_lookup_imap. Qed.

Lemma reset_loop_lay bodies n :
  fold_left (fun bs i => alter reset_acc i bs) (range 0 n) bodies
  = lay bodies (Z.to_nat n) (fun _ => (of_int 0, of_int 0)).
Proof.
  apply list_eq. intros k. rewrite loop_alter_lookup, lay_lookup.
  destruct (decide (k < Z.to_nat n)%nat); destruct (bodies !! k) as [b|];
    simpl; reflexivity.
Qed.

Lemma pair_force_lay g bodies n A i j :
  (i < j < n)%nat -> (n <= length bodies)%nat ->
  pair_force g i j (lay bodies n A)
  = lay bodies n
        (fun k => accumulate g (pos_mass <$> bodies) k (A k) (i, j)).
Proof.
  intros Hij Hn.
  destruct (lookup_lt_is_Some_2 bodies i ltac:(lia)) as [bi Hbi].
  destruct (lookup_lt_is_Some_2 bodies j ltac:(lia)) as [bj Hbj].
  unfold pair_force. rewrite !lay_lookup, Hbi, Hbj. simpl.
  destruct (decide (i < n)%nat); [|lia].
  destruct (decide (j < n)%nat); [|lia].
  apply list_eq. intros k.
  unfold accumulate. simpl.
  rewrite !list_lookup_fmap, Hbi, Hbj. simpl.
  destruct (decide (k = j)) as [->|Hkj].
  - rewrite list_lookup_alter_eq, list_lookup_alter_ne by lia.
    rewrite !lay_lookup, Hbj. simpl.
    destruct (decide (j < n)%nat); [|lia].
    destruct (decide (j = i)); [lia|].
    destruct (decide (j = j)); [|congruence].
    destruct bi, bj; reflexivity.
  - rewrite list_lookup_alter_ne by congruence.
    destruct (decide (k = i)) as [->|Hki].
    + rewrite list_lookup_alter_eq, !lay_lookup, Hbi. simpl.
      destruct (decide (i < n)%nat); [|lia].
      destruct (decide (i = i)); [|congruence].
      destruct bi, bj; reflexivity.
    + rewrite list_lookup_alter_ne by congruence.
      rewrite !lay_lookup.
      destruct (decide (k = i)); [congruence|].
      destruct (decide (k = j)); [congruence|].
      destruct (bodies !! k) as [bk|]; simpl; [|reflexivity].
      destruct (decide (k < n)%nat); reflexivity.
Qed.

Lemma pair_loop_lay g bodies n (ps : list (nat * nat)) :
  (n <= length bodies)%nat ->
  (forall ij, In ij ps -> (fst ij < snd ij < n)%nat) ->
  forall A,
  fold_left (fun bs ij => pair_force g (fst ij) (snd ij) bs) ps
            (lay bodies n A)
  = lay bodies n
        (fun k => fold_left (accumulate g (pos_mass <$> bodies) k) ps (A k)).
Proof.
  intros Hn. induction ps as [|[i j] ps IH]; intros Hps A; simpl.
  - reflexivity.
  - rewrite pair_force_lay by (apply (Hps (i, j)); left; reflexivity) || exact Hn.
    rewrite IH; [reflexivity|]. intros ij Hin. apply Hps. right. exact Hin.
Qed.

(** [compute_forces] in closed form, for any arithmetic: body [k < n]
    leaves with the accumulators obtained from zero by running through
    the pairs in order; nothing else changes. *)
Lemma compute_forces_closed (bodies : list (Body F)) (n : Z) (g : F) :
  (Z.to_nat n <= length bodies)%nat ->
  compute_forces bodies n g
  = lay bodies (Z.to_nat n)
        (accumulated g (pos_mass <$> bodies) (pairs (Z.to_nat n))).
Proof.
  intros Hn. unfold compute_forces.
  rewrite reset_loop_lay, nested_loops_pairs, pair_loop_lay; auto.
  intros ij. apply pairs_ordered.
Qed.

Lemma compute_forces_lookup (bodies : list (Body F)) (n : Z) (g : F)
  (k : nat) (b : Body F) :
  (Z.to_nat n <= length bodies)%nat -> (k < Z.to_nat n)%nat ->
  bodies !! k = Some b ->
  compute_forces bodies n g !! k
  = Some (set_acc b
            (fst (accumulated g (pos_mass <$> bodies) (pairs (Z.to_nat n)) k))
            (snd (accumulated g (pos_mass <$> bodies) (pairs (Z.to_nat n)) k))).
Proof.
  intros Hn Hk Hb. rewrite compute_forces_closed, lay_lookup, Hb by exact Hn.
  simpl. in_range.
Qed.

Lemma update_bodies_lookup (bodies : list (Body F)) (n : Z) (dt g : F)
  (k : nat) :
  update_bodies bodies n dt g !! k
  = if decide (k < Z.to_nat n)%nat
    then integrate_body dt <$> compute_forces bodies n g !! k
    else compute_forces bodies n g !! k.
Proof. unfold update_bodies. apply loop_alter_lookup. Qed.
End ForceKernelProofs.

Section ForceKernelIndependence.
Context {F : Type} `{Double F}.
Implicit Types (bodies : list (Body F)) (g dt : F).

Lemma acc_set_acc (b : Body F) (a1 a2 : F) :
  acc (set_acc b a1 a2) = (a1, a2).
Proof. reflexivity. Qed.

Lemma compute_forces_acc bodies (n : Z) g (k : nat) :
  (Z.to_nat n <= length bodies)%nat -> (k < Z.to_nat n)%nat ->
  acc <$> compute_forces bodies n g !! k
  = Some (accumulated g (pos_mass <$> bodies) (pairs (Z.to_nat n)) k).
Proof.
  intros Hn Hk.
  destruct (lookup_lt_is_Some_2 bodies k ltac:(lia)) as [b Hb].
  rewrite (compute_forces_lookup bodies n g k b Hn Hk Hb). simpl.
  rewrite acc_set_acc, <- surjective_pairing. reflexivity.
Qed.

(** The accelerations [compute_forces] leaves in bodies [0 .. n-1] are a
    function of the positions and masses alone. *)
Lemma compute_forces_forgets_acc bodies bodies' (n : Z) g :
  (Z.to_nat n <= length bodies)%nat ->
  pos_mass <$> bodies' = pos_mass <$> bodies ->
  acc <$> take (Z.to_nat n) (compute_forces bodies' n g)
  = acc <$> take (Z.to_nat n) (compute_forces bodies n g).
Proof.
  intros Hn Hpm.
  assert (Hlen : length bodies' = length bodies).
  { rewrite <- (length_fmap pos_mass bodies'), Hpm. apply length_fmap. }
  apply list_eq. intros k. rewrite !list_lookup_fmap.
  destruct (decide (k < Z.to_nat n)%nat) as [Hk|Hk].
  - rewrite !lookup_take_lt by exact Hk.
    rewrite !compute_forces_acc by lia. rewrite Hpm. reflexivity.
  - rewrite !lookup_take_ge by lia. reflexivity.
Qed.
End ForceKernelIndependence.

(** ** The force kernel over the reals *)

Lemma softening_R : (SOFTENING : R) = (1 / 10)%R.
Proof. unfold SOFTENING, lit. simpl. unfold Q2R. simpl. lra. Qed.

Lemma accumulate_contribution (g : R) pm k a ij :
  accumulate g pm k a ij
  = ((fst a + fst (contribution g pm k ij))%R,
     (snd a + snd (contribution g pm k ij))%R).
Proof.
  unfold accumulate, contribution.
  destruct (pm !! fst ij) as [[[xi yi] mi]|]; [|destruct a; simpl; f_equal; lra].
  destruct (pm !! snd ij) as [[[xj yj] mj]|]; [|destruct a; simpl; f_equal; lra].
  rewrite softening_R. simpl.
  destruct (decide (k = fst ij)); [simpl; f_equal; unfold Rdiv; ring|].
  destruct (decide (k = snd ij)); [simpl; f_equal; unfold Rdiv; ring|].
  destruct a; simpl; f_equal; lra.
Qed.

Lemma accumulated_spec_accel (g : R) pm n k :
  accumulated g pm (pairs n) k = spec_accel g pm n k.
Proof.
  unfold accumulated, spec_accel, vsum. simpl.
  generalize (0%R, 0%R). generalize (pairs n) as ps.
  induction ps as [|ij ps IH]; intros a; simpl; [reflexivity|].
  rewrite accumulate_contribution. apply IH.
Qed.

(** C1: for any arithmetic of [double] (binary64 included),
    [compute_forces] leaves in every body [k < n] the accumulators obtained
    from zero by running through the pairs [i < j] by ascending [i] then
    ascending [j], with the operations in the order of the source, and no
    other field changes; so the accelerations on return do not depend on
    the accelerations on entry.  Over the reals this is the sum of the pair
    contributions [(g/d2) * (dx/d, dy/d)], scaled by [mass_j] for body [i]
    and negated and scaled by [mass_i] for body [j], with
    [d2 = dx^2 + dy^2 + eps^2], [eps = 0.1 > 0], [d = sqrt d2]. *)
Theorem compute_forces_sums_pair_contributions :
  (forall (F : Type) (D : Double F) (bodies : list (Body F)) (n : Z) (g : F),
      (Z.to_nat n <= length bodies)%nat ->
      (forall k b, (k < Z.to_nat n)%nat -> bodies !! k = Some b ->
         compute_forces bodies n g !! k
         = Some (set_acc b
                   (fst (accumulated g (pos_mass <$> bodies)
                                     (pairs (Z.to_nat n)) k))
                   (snd (accumulated g (pos_mass <$> bodies)
                                     (pairs (Z.to_nat n)) k))))
      /\ (forall bodies' : list (Body F),
            pos_mass <$> bodies' = pos_mass <$> bodies ->
            acc <$> take (Z.to_nat n) (compute_forces bodies' n g)
            = acc <$> take (Z.to_nat n) (compute_forces bodies n g)))
  /\ (forall (bodies : list (Body R)) (n : Z) (g : R),
        (Z.to_nat n <= length bodies)%nat ->
        forall k b, (k < Z.to_nat n)%nat -> bodies !! k = Some b ->
          compute_forces bodies n g !! k
          = Some (set_acc b
                    (fst (spec_accel g (pos_mass <$> bodies) (Z.to_nat n) k))
                    (snd (spec_accel g (pos_mass <$> bodies) (Z.to_nat n) k))))
  /\ ((SOFTENING : R) = 1 / 10 /\ 0 < (SOFTENING : R))%R.
Proof.
  split; [|split].
  - intros F D bodies n g Hn. split.
    + intros k b Hk Hb. apply compute_forces_lookup; assumption.
    + intros bodies' Hpm. apply compute_forces_forgets_acc; assumption.
  - intros bodies n g Hn k b Hk Hb. rewrite <- accumulated_spec_accel.
    apply compute_forces_lookup; assumption.
  - rewrite softening_R. lra.
Qed.

Lemma compute_forces_sums_pair_contributions_witness :
  (Z.to_nat 3 <= length collinear_three)%nat
  /\ compute_forces collinear_three 3 1%R !! 1%nat
     = Some (set_acc (Body.mk 0 0 0 0 0 0 1)%R
               (fst (spec_accel 1%R (pos_mass <$> collinear_three) 3 1))
               (snd (spec_accel 1%R (pos_mass <$> collinear_three) 3 1)))
  /\ (Z.to_nat 2 <= length binary_pair)%nat
  /\ acc <$> take (Z.to_nat 2) (compute_forces binary_pair_stale 2 (of_int 1))
     = acc <$> take (Z.to_nat 2) (compute_forces binary_pair 2 (of_int 1)).
Proof.
  split; [simpl; lia|]. split.
  - apply (proj1 (proj2 compute_forces_sums_pair_contributions)
                 collinear_three 3 1%R ltac:(simpl; lia));
      [simpl; lia | reflexivity].
  - split; [simpl; lia|].
    apply (proj2 (proj1 compute_forces_sums_pair_contributions
                        float float_Double binary_pair 2 (of_int 1)
                        ltac:(simpl; lia)) binary_pair_stale).
    reflexivity.
Defined.

(** ** The integrator *)

(** C2: [update_bodies] runs [compute_forces] on the bodies it is given
    (which leaves positions, velocities and masses alone), then gives every
    body [k < n] the velocity [v + a * dt] and the position
    [x + (v + a * dt) * dt], with [a] the acceleration [compute_forces]
    computed for it: the position uses the updated velocity. *)
Theorem update_bodies_semi_implicit {F : Type} `{Double F}
  (bodies : list (Body F)) (n : Z) (dt g : F) (k : nat) (b : Body F) :
  (Z.to_nat n <= length bodies)%nat -> (k < Z.to_nat n)%nat ->
  bodies !! k = Some b ->
  exists ax ay : F,
    compute_forces bodies n g !! k = Some (set_acc b ax ay)
    /\ update_bodies bodies n dt g !! k
       = Some (Body.mk
                 (Body.x b + (Body.vx b + ax * dt) * dt)
                 (Body.y b + (Body.vy b + ay * dt) * dt)
                 (Body.vx b + ax * dt) (Body.vy b + ay * dt)
                 ax ay (Body.mass b))%D.
Proof.
  intros Hn Hk Hb.
  exists (fst (accumulated g (pos_mass <$> bodies) (pairs (Z.to_nat n)) k)),
         (snd (accumulated g (pos_mass <$> bodies) (pairs (Z.to_nat n)) k)).
  pose proof (compute_forces_lookup bodies n g k b Hn Hk Hb) as Hcf.
  split; [exact Hcf|].
  rewrite update_bodies_lookup, Hcf.
  destruct (decide (k < Z.to_nat n)%nat); [|lia].
  destruct b; reflexivity.
Qed.

Lemma update_bodies_semi_implicit_witness :
  exists ax ay : float,
    compute_forces binary_pair 2 (of_int 1) !! 0%nat
    = Some (set_acc (Body.mk (of_int 0) (of_int 0) (of_int 0) (of_int 0)
                             (of_int 0) (of_int 0) (of_int 10)) ax ay)
    /\ update_bodies binary_pair 2 (lit (1 # 100)) (of_int 1) !! 0%nat
       = Some (Body.mk
                 (of_int 0 + (of_int 0 + ax * lit (1 # 100)) * lit (1 # 100))
                 (of_int 0 + (of_int 0 + ay * lit (1 # 100)) * lit (1 # 100))
                 (of_int 0 + ax * lit (1 # 100))
                 (of_int 0 + ay * lit (1 # 100))
                 ax ay (of_int 10))%D.
Proof.
  apply (update_bodies_semi_implicit binary_pair 2 (lit (1 # 100)) (of_int 1)
           0%nat _ ltac:(simpl; lia) ltac:(simpl; lia) eq_refl).
Defined.

(** On the two-body test the new position is not the explicit-Euler
    position [x + v * dt] (in binary64, [dt = 0.01], [g = 1]). *)
Lemma update_bodies_is_not_explicit_euler :
  exists b' : Body float,
    update_bodies binary_pair 2 (lit (1 # 100)) (of_int 1) !! 0%nat = Some b'
    /\ Body.x b' <> (of_int 0 + of_int 0 * lit (1 # 100))%D.
Proof.
  eexists. split; [vm_compute; reflexivity|].
  intros Heq. apply (f_equal float_to_bits) in Heq.
  vm_compute in Heq. discriminate Heq.
Qed.

(** ** Newton's third law *)

Lemma acc_collinear_middle :
  accumulated 1%R (pos_mass <$> collinear_three) (pairs 3) 1 = (0%R, 0%R).
Proof.
  unfold accumulated, collinear_three, accumulate. simpl.
  replace (0 - -1)%R with 1%R by lra.
  replace (1 - 0)%R with 1%R by lra.
  f_equal; lra.
Qed.

Lemma pull_pos (d2 dx : R) :
  (0 < d2 -> 0 < dx -> 0 < 1 / d2 * dx / sqrt d2 * 1)%R.
Proof.
  intros Hd Hx. pose proof (sqrt_lt_R0 d2 Hd) as Hs.
  rewrite Rmult_1_r. apply Rdiv_lt_0_compat; [|exact Hs].
  apply Rmult_lt_0_compat; [|exact Hx].
  apply Rdiv_lt_0_compat; lra.
Qed.

Lemma acc_collinear_left :
  (0 < fst (accumulated 1%R (pos_mass <$> collinear_three) (pairs 3) 0))%R.
Proof.
  unfold accumulated, collinear_three, accumulate. simpl.
  rewrite Rplus_0_l.
  apply Rplus_lt_0_compat; apply pull_pos; lra.
Qed.

Lemma norm_pos_l (a b : R) : (0 < a -> 0 < norm (a, b))%R.
Proof. intros Hv. unfold norm. simpl. apply sqrt_lt_R0. nra. Qed.

Lemma norm_zero : norm (0%R, 0%R) = 0%R.
Proof.
  unfold norm. simpl. rewrite Rmult_0_l, Rplus_0_l. apply sqrt_0.
Qed.

(** C4, as stated, fails: of three unit masses in a row, the middle one is
    pulled equally from both sides and does not accelerate, while the outer
    ones do; so [mass * |accel|] differs between bodies 0 and 1. *)
Lemma third_law_fails_for_three_bodies :
  ~ third_law (compute_forces collinear_three 3 1%R).
Proof.
  intros Hlaw.
  assert (Hn : (Z.to_nat 3 <= length collinear_three)%nat) by (simpl; lia).
  pose proof (compute_forces_lookup collinear_three 3 1%R 0 _ Hn
                ltac:(lia) eq_refl) as H0.
  pose proof (compute_forces_lookup collinear_three 3 1%R 1 _ Hn
                ltac:(lia) eq_refl) as H1.
  destruct (Hlaw 0%nat 1%nat _ _ ltac:(lia) H0 H1) as [Hmag _].
  change (Z.to_nat 3) with 3%nat in Hmag.
  rewrite !acc_set_acc in Hmag.
  rewrite acc_collinear_middle in Hmag. cbn [fst snd] in Hmag.
  rewrite norm_zero in Hmag.
  pose proof (norm_pos_l _ (snd (accumulated 1%R (pos_mass <$> collinear_three)
                                             (pairs 3) 0)) acc_collinear_left)
    as Hpos.
  cbn [Body.mass set_acc] in Hmag. lra.
Qed.

Lemma scaled_sqrt (m s : R) :
  (0 <= m -> 0 <= s -> m * sqrt s = sqrt (m * m * s))%R.
Proof.
  intros Hm Hs. rewrite sqrt_mult by nra.
  rewrite sqrt_square by exact Hm. reflexivity.
Qed.

Lemma two_bodies_forces (b0 b1 : Body R) (g : R) :
  exists fx fy : R,
    compute_forces [b0; b1] 2 g
    = [set_acc b0 (0 + fx * Body.mass b1) (0 + fy * Body.mass b1);
       set_acc b1 (0 - fx * Body.mass b0) (0 - fy * Body.mass b0)]%R.
Proof.
  eexists. eexists.
  apply list_eq. intros k.
  destruct k as [|[|k]].
  - rewrite (compute_forces_lookup [b0; b1] 2 g 0 b0)
      by (simpl; lia || reflexivity).
    change (Z.to_nat 2) with 2%nat. unfold accumulated, accumulate. simpl.
    reflexivity.
  - rewrite (compute_forces_lookup [b0; b1] 2 g 1 b1)
      by (simpl; lia || reflexivity).
    change (Z.to_nat 2) with 2%nat. unfold accumulated, accumulate. simpl.
    reflexivity.
  - rewrite compute_forces_closed by (simpl; lia). rewrite lay_lookup.
    reflexivity.
Qed.

(** C4, amended: in a system of exactly two bodies of positive mass, after
    one [compute_forces] call [mass_0 * |accel_0| = mass_1 * |accel_1|]
    over the reals, and the two accelerations are antiparallel. *)
Theorem third_law_two_bodies (b0 b1 : Body R) (g : R) :
  (0 < Body.mass b0)%R -> (0 < Body.mass b1)%R ->
  third_law (compute_forces [b0; b1] 2 g).
Proof.
  intros Hm0 Hm1.
  destruct (two_bodies_forces b0 b1 g) as (fx & fy & ->).
  assert (Hsq : forall u v : R, (0 <= u * u + v * v)%R) by (intros; nra).
  intros i j bi bj Hij Hi Hj.
  destruct i as [|[|i]]; destruct j as [|[|j]]; try congruence;
    try discriminate; simpl in Hi, Hj; inversion Hi; inversion Hj; subst;
    rewrite !acc_set_acc; unfold norm, antiparallel; simpl.
  - split.
    + rewrite !scaled_sqrt by (apply Hsq || lra). f_equal. ring.
    + exists (Body.mass b1 / Body.mass b0)%R. split.
      * apply Rdiv_lt_0_compat; assumption.
      * f_equal; field; lra.
  - split.
    + rewrite !scaled_sqrt by (apply Hsq || lra). f_equal. ring.
    + exists (Body.mass b0 / Body.mass b1)%R. split.
      * apply Rdiv_lt_0_compat; assumption.
      * f_equal; field; lra.
Qed.

Lemma third_law_two_bodies_witness :
  (0 < 10)%R /\ (0 < 20)%R
  /\ third_law (compute_forces [Body.mk 0 0 0 0 0 0 10; Body.mk 3 4 0 0 0 0 20]%R
                               2 1%R).
Proof.
  split; [lra|]. split; [lra|].
  apply (third_law_two_bodies (Body.mk 0 0 0 0 0 0 10)%R
                              (Body.mk 3 4 0 0 0 0 20)%R 1%R); simpl; lra.
Defined.

(* ================================================================== *)
(** ** Rockets: forces, integration, trail, deactivation *)

Section RocketProofs.
Context {F : Type} `{Double F}.
Implicit Types (rockets : list (Rocket F)) (bodies : list (Body F))
         (r : Rocket F) (g dt : F).
Local Open Scope dbl_scope.

Lemma compute_rocket_forces_lookup rockets n_rockets bodies n_bodies g k :
  compute_rocket_forces rockets n_rockets bodies n_bodies g !! k
  = if decide (k < Z.to_nat n_rockets)%nat
    then rocket_forces_at bodies n_bodies g <$> rockets !! k
    else rockets !! k.
Proof. unfold compute_rocket_forces. apply loop_alter_lookup. Qed.

Lemma fst_integrate_at dt (st : list (Rocket F) * Log) i :
  fst (integrate_at dt st i)
  = alter (fun r => fst (integrate_rocket dt r)) i (fst st).
Proof.
  unfold integrate_at. apply list_eq. intros k.
  destruct (fst st !! i) as [r|] eqn:Hr.
  - destruct (integrate_rocket dt r) as [r' msg] eqn:Hi. simpl.
    destruct (decide (k = i)) as [->|Hne].
    + rewrite list_lookup_alter_eq, Hr, list_lookup_insert_eq
        by (apply lookup_lt_is_Some; eauto).
      simpl. rewrite Hi. reflexivity.
    + rewrite list_lookup_alter_ne, list_lookup_insert_ne by congruence.
      reflexivity.
  - destruct (decide (k = i)) as [->|Hne].
    + rewrite list_lookup_alter_eq, Hr. reflexivity.
    + rewrite list_lookup_alter_ne by congruence. reflexivity.
Qed.

Lemma fst_integrate_loop dt idx (st : list (Rocket F) * Log) :
  fst (fold_left (integrate_at dt) idx st)
  = fold_left (fun rs i => alter (fun r => fst (integrate_rocket dt r)) i rs)
              idx (fst st).
Proof.
  revert st. induction idx as [|i idx IH]; intros st; simpl; [reflexivity|].
  rewrite IH, fst_integrate_at. reflexivity.
Qed.

Lemma update_rockets_lookup rockets n_rockets bodies n_bodies dt g k :
  fst (update_rockets rockets n_rockets bodies n_bodies dt g) !! k
  = if decide (k < Z.to_nat n_rockets)%nat
    then advance bodies n_bodies dt g <$> rockets !! k
    else rockets !! k.
Proof.
  unfold update_rockets. rewrite fst_integrate_loop. simpl.
  rewrite loop_alter_lookup, compute_rocket_forces_lookup.
  destruct (decide (k < Z.to_nat n_rockets)%nat); [|reflexivity].
  destruct (rockets !! k); reflexivity.
Qed.

(** An inactive rocket goes through both loop bodies unchanged. *)
Lemma rocket_forces_at_inactive bodies n_bodies g r :
  Rocket.active r = 0%Z -> rocket_forces_at bodies n_bodies g r = r.
Proof. intros Hr. unfold rocket_forces_at. rewrite Hr. reflexivity. Qed.

Lemma integrate_rocket_inactive dt r :
  Rocket.active r = 0%Z -> integrate_rocket dt r = (r, None).
Proof. intros Hr. unfold integrate_rocket. rewrite Hr. reflexivity. Qed.

Lemma advance_inactive bodies n_bodies dt g r :
  Rocket.active r = 0%Z -> advance bodies n_bodies dt g r = r.
Proof.
  intros Hr. unfold advance.
  rewrite rocket_forces_at_inactive, integrate_rocket_inactive by exact Hr.
  reflexivity.
Qed.

(** The force loop changes the acceleration of a rocket and nothing else. *)
Lemma rocket_pull_loop bodies g r (js : list nat) : forall a1 a2,
  exists a1' a2',
    fold_left (fun r' j => match bodies !! j with
                           | Some bj => rocket_pull g r' bj
                           | None => r'
                           end) js (set_racc r a1 a2)
    = set_racc r a1' a2'.
Proof.
  induction js as [|j js IH]; intros a1 a2; simpl; [eauto|].
  destruct (bodies !! j) as [bj|]; [|apply IH].
  unfold rocket_pull. simpl. apply IH.
Qed.

Lemma rocket_forces_at_acc bodies n_bodies g r :
  exists a1 a2, rocket_forces_at bodies n_bodies g r = set_racc r a1 a2.
Proof.
  unfold rocket_forces_at. destruct (Rocket.active r =? 0)%Z.
  - exists (Rocket.ax r), (Rocket.ay r). destruct r; reflexivity.
  - apply rocket_pull_loop.
Qed.

(** Everything [integrate_rocket] does to an active rocket. *)
Lemma integrate_rocket_active dt r :
  Rocket.active r <> 0%Z ->
  let r' := fst (integrate_rocket dt r) in
  Rocket.x r' = moved_x dt r /\ Rocket.y r' = moved_y dt r
  /\ Rocket.vx r' = Rocket.vx r + Rocket.ax r * dt
  /\ Rocket.vy r' = Rocket.vy r + Rocket.ay r * dt
  /\ Rocket.ax r' = Rocket.ax r /\ Rocket.ay r' = Rocket.ay r
  /\ Rocket.trail_capacity r' = Rocket.trail_capacity r
  /\ Rocket.active r'
     = (if dgt (dsqrt (Rocket.x r' * Rocket.x r' + Rocket.y r' * Rocket.y r'))
               (of_int 50) then 0%Z else Rocket.active r)
  /\ snd (integrate_rocket dt r)
     = (if dgt (dsqrt (Rocket.x r' * Rocket.x r' + Rocket.y r' * Rocket.y r'))
               (of_int 50)
        then Some (dsqrt (Rocket.x r' * Rocket.x r' + Rocket.y r' * Rocket.y r'))
        else None)
  /\ (Rocket.trail_x r', Rocket.trail_y r', Rocket.trail_length r')
     = (if (Rocket.trail_length r <? Rocket.trail_capacity r)%Z
        then (poke (Rocket.trail_x r) (Rocket.trail_length r) (Rocket.x r'),
              poke (Rocket.trail_y r) (Rocket.trail_length r) (Rocket.y r'),
              (Rocket.trail_length r + 1)%Z)
        else (Rocket.trail_x r, Rocket.trail_y r, Rocket.trail_length r)).
Proof.
  intros Hact. unfold integrate_rocket, moved_x, moved_y.
  destruct (Rocket.active r =? 0)%Z eqn:Hz; [lia|].
  destruct (Rocket.trail_length r <? Rocket.trail_capacity r)%Z;
    match goal with
    | |- context [dgt ?d ?c] => destruct (dgt d c) eqn:Hgt
    end; simpl; rewrite ?Hgt; repeat split; reflexivity.
Qed.
End RocketProofs.

Section RocketSteps.
Context {F : Type} `{Double F}.
Implicit Types (rockets : list (Rocket F)) (bodies : list (Body F))
         (r : Rocket F) (g dt : F).
Local Open Scope dbl_scope.

(** Everything [update_rockets] does to an active rocket of its range. *)
Lemma advance_active bodies n_bodies dt g r :
  Rocket.active r <> 0%Z ->
  let r' := advance bodies n_bodies dt g r in
  Rocket.trail_capacity r' = Rocket.trail_capacity r
  /\ Rocket.active r'
     = (if dgt (dsqrt (Rocket.x r' * Rocket.x r' + Rocket.y r' * Rocket.y r'))
               (of_int 50) then 0%Z else Rocket.active r)
  /\ (Rocket.trail_x r', Rocket.trail_y r', Rocket.trail_length r')
     = (if (Rocket.trail_length r <? Rocket.trail_capacity r)%Z
        then (poke (Rocket.trail_x r) (Rocket.trail_length r) (Rocket.x r'),
              poke (Rocket.trail_y r) (Rocket.trail_length r) (Rocket.y r'),
              (Rocket.trail_length r + 1)%Z)
        else (Rocket.trail_x r, Rocket.trail_y r, Rocket.trail_length r)).
Proof.
  intros Hact. unfold advance.
  destruct (rocket_forces_at_acc bodies n_bodies g r) as (a1 & a2 & ->).
  destruct (integrate_rocket_active dt (set_racc r a1 a2) Hact)
    as (_ & _ & _ & _ & _ & _ & Hcap & Hactive & _ & Htrail).
  simpl in *. auto.
Qed.

(** The semi-implicit step of an active rocket: velocity first, then the
    position with the new velocity. *)
Lemma advance_moves bodies n_bodies dt g r :
  Rocket.active r <> 0%Z ->
  let r' := advance bodies n_bodies dt g r in
  exists ax ay : F,
    rocket_forces_at bodies n_bodies g r = set_racc r ax ay
    /\ Rocket.vx r' = Rocket.vx r + ax * dt
    /\ Rocket.vy r' = Rocket.vy r + ay * dt
    /\ Rocket.x r' = Rocket.x r + Rocket.vx r' * dt
    /\ Rocket.y r' = Rocket.y r + Rocket.vy r' * dt.
Proof.
  intros Hact. unfold advance.
  destruct (rocket_forces_at_acc bodies n_bodies g r) as (a1 & a2 & ->).
  exists a1, a2.
  destruct (integrate_rocket_active dt (set_racc r a1 a2) Hact)
    as (Hx & Hy & Hvx & Hvy & _).
  simpl in *. rewrite Hvx, Hvy. unfold moved_x, moved_y in *. simpl in *.
  auto.
Qed.

Lemma integrate_rocket_msg dt r d :
  snd (integrate_rocket dt r) = Some d -> dgt d (of_int 50) = true.
Proof.
  unfold integrate_rocket.
  destruct (Rocket.active r =? 0)%Z; [discriminate|].
  destruct (Rocket.trail_length r <? Rocket.trail_capacity r)%Z;
    match goal with
    | |- context [dgt ?x ?c] => destruct (dgt x c) eqn:Hgt
    end; simpl; congruence.
Qed.

Lemma integrate_at_log dt (st : list (Rocket F) * Log) i e :
  e ∈ snd (integrate_at dt st i) ->
  e ∈ snd st \/ exists r, snd (integrate_rocket dt r) = Some (snd e).
Proof.
  unfold integrate_at. destruct st as [rs log]. simpl.
  destruct (rs !! i) as [r|]; simpl; [|auto].
  destruct (integrate_rocket dt r) as [r' [d|]] eqn:Hi; simpl; [|auto].
  rewrite elem_of_app, list_elem_of_singleton. intros [He| ->]; [auto|].
  right. exists r. rewrite Hi. reflexivity.
Qed.

(** The only message [update_rockets] prints is the one that goes with a
    deactivation. *)
Lemma update_rockets_log rockets n_rockets bodies n_bodies dt g e :
  e ∈ snd (update_rockets rockets n_rockets bodies n_bodies dt g) ->
  dgt (snd e) (of_int 50) = true.
Proof.
  unfold update_rockets.
  set (st0 := (compute_rocket_forces rockets n_rockets bodies n_bodies g,
               @nil (nat * F))).
  assert (Hst0 : forall e', e' ∈ snd st0 -> dgt (snd e') (of_int 50) = true).
  { intros e' He'. inversion He'. }
  revert e. generalize dependent st0. generalize (range 0 n_rockets) as idx.
  induction idx as [|i idx IH]; intros st Hst e; simpl; [apply Hst|].
  apply IH. intros e' He'.
  apply integrate_at_log in He' as [He'|[r Hr]]; [auto|].
  apply (integrate_rocket_msg dt r). exact Hr.
Qed.

Lemma exec_inactive (w : World) (op : Op) i r :
  w_rockets w !! i = Some r -> Rocket.active r = 0%Z ->
  w_rockets (exec w op) !! i = Some r.
Proof.
  intros Hr Hz. destruct op; simpl; try exact Hr.
  rewrite update_rockets_lookup, Hr. simpl.
  rewrite advance_inactive by exact Hz.
  in_range.
Qed.

Lemma run_inactive (ops : list Op) : forall (w : World) i r,
  w_rockets w !! i = Some r -> Rocket.active r = 0%Z ->
  w_rockets (run ops w) !! i = Some r.
Proof.
  unfold run. induction ops as [|op ops IH]; intros w i r Hr Hz; simpl.
  - exact Hr.
  - apply IH; [|exact Hz]. apply exec_inactive; assumption.
Qed.

Lemma sim_step_rocket n_bodies n_rockets dt g
  (st : list (Body F) * list (Rocket F)) i r :
  (i < Z.to_nat n_rockets)%nat -> snd st !! i = Some r ->
  exists bodies',
    snd (sim_step n_bodies n_rockets dt g st) !! i
    = Some (advance bodies' n_bodies dt g r).
Proof.
  intros Hi Hr. unfold sim_step. simpl. eexists.
  rewrite update_rockets_lookup, Hr.
  in_range.
Qed.

Lemma sim_loop_inactive n_bodies n_rockets dt g (steps : nat) :
  forall (st : list (Body F) * list (Rocket F)) i r,
  (i < Z.to_nat n_rockets)%nat ->
  snd st !! i = Some r -> Rocket.active r = 0%Z ->
  snd (sim_loop steps n_bodies n_rockets dt g st) !! i = Some r.
Proof.
  induction steps as [|k IH]; intros st i r Hi Hr Hz; simpl; [exact Hr|].
  apply IH; [exact Hi| |exact Hz].
  destruct (sim_step_rocket n_bodies n_rockets dt g st i r Hi Hr)
    as [bodies' ->].
  rewrite advance_inactive by exact Hz. reflexivity.
Qed.

(** A rocket still active after [steps] iterations of the main loop has
    had one sample recorded per iteration until its buffer was full. *)
Lemma sim_loop_trail_length n_bodies n_rockets dt g (steps : nat) :
  forall (st : list (Body F) * list (Rocket F)) i r,
  (i < Z.to_nat n_rockets)%nat -> snd st !! i = Some r ->
  (Rocket.trail_length r <= Rocket.trail_capacity r)%Z ->
  exists r',
    snd (sim_loop steps n_bodies n_rockets dt g st) !! i = Some r'
    /\ Rocket.trail_capacity r' = Rocket.trail_capacity r
    /\ (Rocket.active r' <> 0%Z ->
        Rocket.trail_length r'
        = Z.min (Rocket.trail_length r + Z.of_nat steps)
                (Rocket.trail_capacity r)).
Proof.
  induction steps as [|k IH]; intros st i r Hi Hr Hlen.
  - exists r. simpl. repeat split; auto. intros _. lia.
  - destruct (Z.eq_dec (Rocket.active r) 0) as [Hz|Hnz].
    + exists r. split; [apply sim_loop_inactive; assumption|].
      split; [reflexivity|]. intros Hact. contradiction.
    + destruct (sim_step_rocket n_bodies n_rockets dt g st i r Hi Hr)
        as [bodies' Hstep].
      destruct (advance_active bodies' n_bodies dt g r Hnz)
        as (Hcap & _ & Htrail).
      set (r1 := advance bodies' n_bodies dt g r) in *.
      assert (Hlen1 : Rocket.trail_length r1
                      = Z.min (Rocket.trail_length r + 1)
                              (Rocket.trail_capacity r)).
      { destruct (Rocket.trail_length r <? Rocket.trail_capacity r)%Z eqn:Hlt;
          inversion Htrail; lia. }
      destruct (IH _ i r1 Hi Hstep ltac:(lia)) as (r' & Hr' & Hcap' & Hact').
      exists r'. simpl. split; [exact Hr'|]. split; [congruence|].
      intros Hact. rewrite (Hact' Hact), Hlen1, Hcap. lia.
Qed.
End RocketSteps.

(** C5: a rocket that [update_rockets] processes (in range, active) is
    moved by the semi-implicit step and then deactivated when, at its new
    position, [sqrt (x^2 + y^2) > 50.0], keeping its flag otherwise; and
    through any sequence of [update_bodies], [update_rockets] and [render]
    calls a rocket whose flag is zero keeps a zero flag. *)
Theorem deactivation_is_terminal {F : Type} `{Double F} :
  (forall (rockets : list (Rocket F)) n_rockets bodies n_bodies dt g i r,
      (i < Z.to_nat n_rockets)%nat -> rockets !! i = Some r ->
      Rocket.active r <> 0 ->
      exists r',
        fst (update_rockets rockets n_rockets bodies n_bodies dt g) !! i
        = Some r'
        /\ Rocket.x r' = (Rocket.x r + Rocket.vx r' * dt)%D
        /\ Rocket.y r' = (Rocket.y r + Rocket.vy r' * dt)%D
        /\ (dgt (dsqrt (Rocket.x r' * Rocket.x r' + Rocket.y r' * Rocket.y r')%D)
                (of_int 50) = true -> Rocket.active r' = 0)
        /\ (dgt (dsqrt (Rocket.x r' * Rocket.x r' + Rocket.y r' * Rocket.y r')%D)
                (of_int 50) = false -> Rocket.active r' = Rocket.active r))
  /\ (forall (ops : list Op) (w : World) i r,
        w_rockets w !! i = Some r -> Rocket.active r = 0 ->
        exists r', w_rockets (run ops w) !! i = Some r'
                   /\ Rocket.active r' = 0).
Proof.
  split.
  - intros rockets n_rockets bodies n_bodies dt g i r Hi Hr Hact.
    exists (advance bodies n_bodies dt g r). split.
    + rewrite update_rockets_lookup, Hr.
      in_range.
    + destruct (advance_active bodies n_bodies dt g r Hact) as (_ & Ha & _).
      destruct (advance_moves bodies n_bodies dt g r Hact)
        as (ax & ay & _ & _ & _ & Hx & Hy).
      split; [exact Hx|]. split; [exact Hy|].
      split; intros Hgt; rewrite Ha, Hgt; reflexivity.
  - intros ops w i r Hr Hz. exists r. split; [|exact Hz].
    apply run_inactive; assumption.
Qed.

(** C8: a rocket whose flag is zero comes out of [compute_rocket_forces]
    and of [update_rockets] exactly as it went in, every field included. *)
Theorem inactive_rocket_untouched {F : Type} `{Double F}
  (rockets : list (Rocket F)) n_rockets bodies n_bodies dt g i r :
  rockets !! i = Some r -> Rocket.active r = 0 ->
  compute_rocket_forces rockets n_rockets bodies n_bodies g !! i = Some r
  /\ fst (update_rockets rockets n_rockets bodies n_bodies dt g) !! i = Some r.
Proof.
  intros Hr Hz. split.
  - rewrite compute_rocket_forces_lookup, Hr. simpl.
    rewrite rocket_forces_at_inactive by exact Hz.
    in_range.
  - rewrite update_rockets_lookup, Hr. simpl.
    rewrite advance_inactive by exact Hz.
    in_range.
Qed.

Section Trail.
Context {F : Type} `{Double F}.
Implicit Types (r : Rocket F).

Lemma length_poke (buf : list F) (i : Z) (v : F) :
  length (poke buf i v) = length buf.
Proof. unfold poke. destruct (i <? 0); [reflexivity|apply length_insert]. Qed.

Lemma poke_insert (buf : list F) (i : Z) (v : F) :
  0 <= i -> poke buf i v = <[Z.to_nat i := v]> buf.
Proof.
  intros Hi. unfold poke.
  destruct (i <? 0) eqn:Hneg; [apply Z.ltb_lt in Hneg; lia|reflexivity].
Qed.

Lemma trail_appended (tx ty : list F) (n : nat) (x y : F) :
  (n < length tx)%nat -> (n < length ty)%nat ->
  take (S n) (zip (<[n := x]> tx) (<[n := y]> ty))
  = take n (zip tx ty) ++ [(x, y)].
Proof.
  intros Hx Hy. rewrite <- (insert_zip_with pair tx ty n x y).
  rewrite (take_S_r _ n (x, y)).
  - rewrite take_insert_ge by lia. reflexivity.
  - apply list_lookup_insert_eq. rewrite length_zip_with. lia.
Qed.
End Trail.

(** C6: for an active rocket in range, [update_rockets] neither reallocates
    nor resizes the buffers; below capacity it stores the new position in
    slot [trail_length] and increments [trail_length] (so the recorded trail
    grows by exactly that sample); at capacity it leaves buffers and
    [trail_length] as they are; [trail_length <= trail_capacity] is
    preserved; and the call prints nothing but deactivation messages. *)
Theorem trail_append_or_drop {F : Type} `{Double F}
  (rockets : list (Rocket F)) n_rockets bodies n_bodies dt g i r :
  (i < Z.to_nat n_rockets)%nat -> rockets !! i = Some r ->
  Rocket.active r <> 0 ->
  exists r',
    fst (update_rockets rockets n_rockets bodies n_bodies dt g) !! i = Some r'
    /\ Rocket.trail_capacity r' = Rocket.trail_capacity r
    /\ length (Rocket.trail_x r') = length (Rocket.trail_x r)
    /\ length (Rocket.trail_y r') = length (Rocket.trail_y r)
    /\ (0 <= Rocket.trail_length r < Rocket.trail_capacity r ->
        Rocket.trail_x r'
        = <[Z.to_nat (Rocket.trail_length r) := Rocket.x r']> (Rocket.trail_x r)
        /\ Rocket.trail_y r'
           = <[Z.to_nat (Rocket.trail_length r) := Rocket.y r']> (Rocket.trail_y r)
        /\ Rocket.trail_length r' = Rocket.trail_length r + 1
        /\ ((Z.to_nat (Rocket.trail_length r) < length (Rocket.trail_x r))%nat ->
            (Z.to_nat (Rocket.trail_length r) < length (Rocket.trail_y r))%nat ->
            trail r' = trail r ++ [(Rocket.x r', Rocket.y r')]))
    /\ (Rocket.trail_capacity r <= Rocket.trail_length r ->
        Rocket.trail_x r' = Rocket.trail_x r
        /\ Rocket.trail_y r' = Rocket.trail_y r
        /\ Rocket.trail_length r' = Rocket.trail_length r
        /\ trail r' = trail r)
    /\ (Rocket.trail_length r <= Rocket.trail_capacity r ->
        Rocket.trail_length r' <= Rocket.trail_capacity r')
    /\ (forall e,
          e ∈ snd (update_rockets rockets n_rockets bodies n_bodies dt g) ->
          dgt (snd e) (of_int 50) = true).
Proof.
  intros Hi Hr Hact.
  exists (advance bodies n_bodies dt g r).
  destruct (advance_active bodies n_bodies dt g r Hact) as (Hcap & _ & Htrail).
  set (r' := advance bodies n_bodies dt g r) in *.
  split.
  { rewrite update_rockets_lookup, Hr.
    in_range. }
  split; [exact Hcap|].
  destruct (Rocket.trail_length r <? Rocket.trail_capacity r) eqn:Hlt;
    injection Htrail as Hx Hy Hl.
  - apply Z.ltb_lt in Hlt.
    split; [rewrite Hx, length_poke; reflexivity|].
    split; [rewrite Hy, length_poke; reflexivity|].
    split.
    { intros H0. rewrite poke_insert in Hx, Hy by lia.
      split; [exact Hx|]. split; [exact Hy|]. split; [exact Hl|].
      intros Hbx Hby. unfold trail. rewrite Hx, Hy, Hl.
      replace (Z.to_nat (Rocket.trail_length r + 1))
        with (S (Z.to_nat (Rocket.trail_length r))) by lia.
      apply trail_appended; assumption. }
    split; [intros Hge; lia|].
    split; [intros _; lia|].
    apply update_rockets_log.
  - apply Z.ltb_ge in Hlt.
    split; [rewrite Hx; reflexivity|]. split; [rewrite Hy; reflexivity|].
    split; [intros Hlt'; lia|].
    split.
    { intros _. split; [exact Hx|]. split; [exact Hy|]. split; [exact Hl|].
      unfold trail. rewrite Hx, Hy, Hl. reflexivity. }
    split; [intros Hle; lia|].
    apply update_rockets_log.
Qed.

Lemma deactivation_is_terminal_witness :
  (exists r',
      fst (update_rockets [probe] 1 binary_pair 2 (lit (1 # 100)) (of_int 1))
        !! 0%nat = Some r'
      /\ Rocket.x r' = (Rocket.x probe + Rocket.vx r' * lit (1 # 100))%D
      /\ Rocket.y r' = (Rocket.y probe + Rocket.vy r' * lit (1 # 100))%D
      /\ (dgt (dsqrt (Rocket.x r' * Rocket.x r' + Rocket.y r' * Rocket.y r')%D)
              (of_int 50) = true -> Rocket.active r' = 0)
      /\ (dgt (dsqrt (Rocket.x r' * Rocket.x r' + Rocket.y r' * Rocket.y r')%D)
              (of_int 50) = false -> Rocket.active r' = Rocket.active probe))
  /\ (exists r',
        w_rockets (run [UpdateBodies 2 (lit (1 # 100)) (of_int 1);
                        UpdateRockets 1 2 (lit (1 # 100)) (of_int 1);
                        Render 2 1 (of_int 50)]
                       {| w_bodies := binary_pair; w_rockets := [frozen];
                          w_img := [] |}) !! 0%nat = Some r'
        /\ Rocket.active r' = 0).
Proof.
  split.
  - apply (proj1 (@deactivation_is_terminal float _) [probe] 1 binary_pair 2
                 (lit (1 # 100)) (of_int 1) 0%nat probe);
      [simpl; lia | reflexivity | simpl; lia].
  - apply (proj2 (@deactivation_is_terminal float _)
                 [UpdateBodies 2 (lit (1 # 100)) (of_int 1);
                  UpdateRockets 1 2 (lit (1 # 100)) (of_int 1);
                  Render 2 1 (of_int 50)]
                 {| w_bodies := binary_pair; w_rockets := [frozen];
                    w_img := [] |} 0%nat frozen); reflexivity.
Defined.

Lemma inactive_rocket_untouched_witness :
  compute_rocket_forces [probe; frozen] 2 binary_pair 2 (of_int 1) !! 1%nat
  = Some frozen
  /\ fst (update_rockets [probe; frozen] 2 binary_pair 2 (lit (1 # 100))
                         (of_int 1)) !! 1%nat = Some frozen.
Proof.
  apply (inactive_rocket_untouched [probe; frozen] 2 binary_pair 2
           (lit (1 # 100)) (of_int 1) 1%nat frozen); reflexivity.
Defined.

Lemma trail_append_or_drop_witness :
  exists r',
    fst (update_rockets [probe] 1 binary_pair 2 (lit (1 # 100)) (of_int 1))
      !! 0%nat = Some r'
    /\ Rocket.trail_length r' = 2
    /\ trail r' = trail probe ++ [(Rocket.x r', Rocket.y r')].
Proof.
  destruct (trail_append_or_drop [probe] 1 binary_pair 2 (lit (1 # 100))
              (of_int 1) 0%nat probe ltac:(simpl; lia) eq_refl
              ltac:(simpl; lia))
    as (r' & Hr' & _ & _ & _ & Happ & _).
  destruct (Happ ltac:(simpl; lia)) as (_ & _ & Hlen & Htrail).
  exists r'. split; [exact Hr'|]. split; [exact Hlen|].
  apply Htrail; simpl; lia.
Defined.

Section SetupProofs.
Context {F : Type} `{Double F}.
Implicit Types (rockets : list (Rocket F)) (r : Rocket F).

Lemma steps_slots : Z.to_nat STEPS = S (Z.to_nat STEPS - 1).
Proof. unfold STEPS. lia. Qed.

(** What both set-up functions leave in a slot. *)
Lemma new_rocket_trail (x y vx vy : F) :
  let r := new_rocket x y vx vy in
  Rocket.trail_capacity r = STEPS
  /\ length (Rocket.trail_x r) = Z.to_nat STEPS
  /\ length (Rocket.trail_y r) = Z.to_nat STEPS
  /\ Rocket.trail_length r = 1
  /\ trail r = [(Rocket.x r, Rocket.y r)]
  /\ Rocket.active r = 1.
Proof.
  unfold new_rocket, trail, malloc_doubles.
  cbn [Rocket.trail_capacity Rocket.trail_x Rocket.trail_y Rocket.active
       Rocket.trail_length Rocket.x Rocket.y].
  rewrite !length_insert, !length_replicate.
  do 4 (split; [reflexivity|]). split; [|reflexivity].
  rewrite steps_slots. generalize (Z.to_nat STEPS - 1)%nat as m. intros m.
  reflexivity.
Qed.

Lemma load_rockets_loop_slots (lines : list scanned) :
  forall rockets count max_rockets rockets' n,
  0 <= count -> (Z.to_nat max_rockets <= length rockets)%nat ->
  (forall i, (i < Z.to_nat count)%nat ->
     exists x y vx vy, rockets !! i = Some (new_rocket x y vx vy)) ->
  load_rockets_loop lines rockets count max_rockets = (rockets', n) ->
  0 <= n
  /\ forall i, (i < Z.to_nat n)%nat ->
       exists x y vx vy, rockets' !! i = Some (new_rocket x y vx vy).
Proof.
  induction lines as [|l lines IH];
    intros rockets count max_rockets rockets' n Hc Hmax Hinv Hload;
    simpl in Hload.
  - inversion Hload; subst. auto.
  - destruct (count <? max_rockets) eqn:Hlt.
    + apply Z.ltb_lt in Hlt.
      destruct l as [[[[x y] vx] vy]|].
      * apply IH in Hload; [exact Hload|lia|rewrite length_insert; exact Hmax|].
        intros i Hi.
        destruct (decide (i = Z.to_nat count)) as [->|Hne].
        -- exists x, y, vx, vy. apply list_lookup_insert_eq. lia.
        -- rewrite list_lookup_insert_ne by congruence. apply Hinv. lia.
      * apply IH in Hload; auto.
    + inversion Hload; subst. auto.
Qed.

Lemma setup_rockets_slots (file : option (list scanned)) rockets0 rockets n :
  (Z.to_nat MAX_ROCKETS <= length rockets0)%nat ->
  setup_rockets file rockets0 = (rockets, n) ->
  forall i, (i < Z.to_nat n)%nat ->
    exists x y vx vy, rockets !! i = Some (new_rocket x y vx vy).
Proof.
  intros Hmax Hsetup. unfold setup_rockets, load_rockets in Hsetup.
  destruct file as [lines|].
  - destruct (load_rockets_loop lines rockets0 0 MAX_ROCKETS)
      as [rockets1 n1] eqn:Hload.
    apply load_rockets_loop_slots in Hload as [Hn1 Hslots];
      [|lia|exact Hmax|intros i Hi; simpl in Hi; lia].
    destruct (n1 <? 0) eqn:Hneg; [apply Z.ltb_lt in Hneg; lia|].
    inversion Hsetup; subst. exact Hslots.
  - simpl in Hsetup. unfold init_rockets_default in Hsetup.
    inversion Hsetup; subst. intros i Hi.
    assert (i = 0%nat) as -> by (simpl in Hi; lia).
    eexists _, _, _, _. apply list_lookup_insert_eq.
    unfold MAX_ROCKETS in Hmax. lia.
Qed.
End SetupProofs.

(** C7, as stated, fails.  The default rocket gets [STEPS] slots, not
    [STEPS + 1], and the initial sample takes one: after the [STEPS]
    iterations of the run with the default configuration (binary64, around
    a mass of 100) the rocket is still active, its trail is full, and its
    last recorded sample is not its position: the sample of the last step
    was dropped. *)
Lemma default_rocket_drops_the_last_sample :
  exists r : Rocket float,
    default_run default_config !! 0%nat = Some r
    /\ Rocket.active r = 1
    /\ Rocket.trail_capacity r <> cfg_steps (default_config (F := float)) + 1
    /\ Rocket.trail_length r = cfg_steps (default_config (F := float))
    /\ last (trail r) <> Some (Rocket.x r, Rocket.y r).
Proof.
  eexists. split; [vm_compute; reflexivity|].
  split; [reflexivity|]. split; [vm_compute; discriminate|].
  split; [reflexivity|].
  intros Heq.
  apply (f_equal (fun o => match o with
                           | Some p => float_to_bits (fst p)
                           | None => 0
                           end)) in Heq.
  vm_compute in Heq. discriminate Heq.
Qed.

(** C7, amended: every rocket set up by [load_rockets] or
    [init_rockets_default] has two buffers of [STEPS] (5000) slots,
    [trail_capacity = STEPS], its initial position recorded as the only
    sample ([trail_length = 1]) and is active; a rocket still active after
    the main loop, run for [config.steps = k] iterations, has
    [min (1 + k) STEPS] samples, so every step is recorded when
    [k <= STEPS - 1]. *)
Theorem setup_trail_capacity {F : Type} `{Double F}
  (file : option (list scanned)) (rockets0 rockets : list (Rocket F))
  (n_rockets : Z) :
  (Z.to_nat MAX_ROCKETS <= length rockets0)%nat ->
  setup_rockets file rockets0 = (rockets, n_rockets) ->
  forall i r, (i < Z.to_nat n_rockets)%nat -> rockets !! i = Some r ->
    Rocket.trail_capacity r = STEPS
    /\ length (Rocket.trail_x r) = Z.to_nat STEPS
    /\ length (Rocket.trail_y r) = Z.to_nat STEPS
    /\ Rocket.trail_length r = 1
    /\ trail r = [(Rocket.x r, Rocket.y r)]
    /\ Rocket.active r = 1
    /\ forall (config : SimConfig F) n_bodies bodies r',
         snd (main_loop config n_bodies n_rockets (bodies, rockets)) !! i
         = Some r' ->
         Rocket.active r' <> 0 ->
         Rocket.trail_length r'
         = Z.min (1 + Z.max 0 (cfg_steps config)) STEPS.
Proof.
  intros Hmax Hsetup i r Hi Hr.
  destruct (setup_rockets_slots file rockets0 rockets n_rockets Hmax Hsetup i Hi)
    as (x & y & vx & vy & Hnew).
  assert (r = new_rocket x y vx vy) as -> by congruence.
  destruct (new_rocket_trail x y vx vy) as (Hcap & Hlx & Hly & Hlen & Htr & Hact).
  repeat (split; [assumption|]).
  intros config n_bodies bodies r' Hr' Hact'. unfold main_loop in Hr'.
  destruct (sim_loop_trail_length n_bodies n_rockets (cfg_dt config)
              (cfg_g config) (Z.to_nat (cfg_steps config))
              (bodies, rockets) i (new_rocket x y vx vy) Hi Hr
              ltac:(rewrite Hcap, Hlen; unfold STEPS; lia))
    as (r'' & Hr'' & _ & Hlen'').
  assert (r'' = r') as -> by congruence.
  rewrite (Hlen'' Hact'), Hcap, Hlen. f_equal. lia.
Qed.

Lemma setup_trail_capacity_witness :
  (Z.to_nat MAX_ROCKETS <= length (replicate 10 blank))%nat
  /\ exists r : Rocket float,
       fst (setup_rockets None (replicate 10 blank)) !! 0%nat = Some r
       /\ Rocket.trail_capacity r = STEPS
       /\ Rocket.trail_length r = 1
       /\ forall (config : SimConfig float) r',
            default_run config !! 0%nat = Some r' -> Rocket.active r' <> 0 ->
            Rocket.trail_length r'
            = Z.min (1 + Z.max 0 (cfg_steps config)) STEPS.
Proof.
  split; [vm_compute; lia|].
  eexists. split; [reflexivity|].
  destruct (setup_trail_capacity None (replicate 10 blank)
              (fst (setup_rockets None (replicate 10 blank))) 1
              ltac:(vm_compute; lia) eq_refl 0%nat _ ltac:(simpl; lia) eq_refl)
    as (Hcap & _ & _ & Hlen & _ & _ & Hrun).
  split; [exact Hcap|]. split; [exact Hlen|].
  intros config r'. apply Hrun.
Defined.

(** ** The world-to-pixel projection *)

Lemma R_trunc_truncation (r : R) : truncation r (R_trunc r).
Proof.
  unfold truncation, R_trunc.
  destruct (Rle_dec 0 r) as [Hr|Hr].
  - destruct (base_Int_part r) as [Hle Hgt]. split; [intros _; lra|].
    intros Hr0. assert (Hz : (-1 < Int_part r)%Z) by (apply lt_IZR; lra).
    assert (H0 : (0 <= IZR (Int_part r))%R) by (apply IZR_le; lia).
    lra.
  - destruct (base_Int_part (- r)) as [Hle Hgt]. rewrite opp_IZR.
    split; [intros Hr0; lra|]. intros _. lra.
Qed.




(** ** The image encoder *)

Lemma wrap32_id (z : Z) : - 2 ^ 31 <= z < 2 ^ 31 -> wrap32 z = z.
Proof. intros Hz. unfold wrap32. rewrite Z.mod_small; lia. Qed.

Lemma land_lnot_3 (x : Z) : Z.land x (Z.lnot 3) = 4 * (x / 4).
Proof.
  rewrite <- Z.ldiff_land. change 3 with (Z.ones 2).
  rewrite Z.ldiff_ones_r by lia.
  rewrite Z.shiftr_div_pow2, Z.shiftl_mul_pow2 by lia.
  change (2 ^ 2) with 4. lia.
Qed.

Lemma rowStride_bounds (w : Z) :
  rowStride w mod 4 = 0 /\ w * 3 <= rowStride w < w * 3 + 4.
Proof.
  unfold rowStride. rewrite land_lnot_3.
  pose proof (Z.div_mod (w * 3 + 3) 4 ltac:(lia)) as Hd.
  pose proof (Z.mod_pos_bound (w * 3 + 3) 4 ltac:(lia)) as Hm.
  split; [|lia].
  rewrite Z.mul_comm. apply Z.mod_mul. lia.
Qed.

Lemma header_word_le_bytes (v : Z) : header_word v = le_bytes 4 v.
Proof.
  unfold header_word, le_bytes. simpl.
  change 255 with (Z.ones 8). rewrite !Z.land_ones by lia.
  rewrite !Z.shiftr_div_pow2 by lia.
  rewrite Z.div_1_r. reflexivity.
Qed.

Lemma zrange_0 (n : Z) : zrange 0 (n - 1) = map Z.of_nat (seq 0 (Z.to_nat n)).
Proof.
  unfold zrange. replace (n - 1 - 0 + 1) with n by lia.
  apply map_ext. intros k. lia.
Qed.

(** Reading [n] consecutive slots from [a] on is taking a slice. *)
Lemma slots_slice {A B} (f : A -> list B) (l : list A) (a n : nat) :
  (a + n <= length l)%nat ->
  concat (map (fun k => match l !! (a + k)%nat with
                        | Some p => f p
                        | None => []
                        end) (seq 0 n))
  = concat (map f (take n (drop a l))).
Proof.
  induction n as [|n IH]; intros Hlen; [reflexivity|].
  rewrite seq_S, map_app, concat_app, IH by lia. simpl.
  destruct (lookup_lt_is_Some_2 l (a + n) ltac:(lia)) as [p Hp].
  rewrite Hp.
  rewrite (take_S_r (drop a l) n p) by (rewrite lookup_drop; exact Hp).
  rewrite map_app, concat_app. reflexivity.
Qed.

Lemma bmp_row_image_row (img : list Pixel) (w h : Z) (y : nat) :
  0 < w -> (y < Z.to_nat h)%nat -> w * h < 2 ^ 31 ->
  length img = Z.to_nat (w * h) ->
  bmp_row img w (rowStride w - w * 3) (Z.of_nat y)
  = concat (map (fun p => [Pixel.b p; Pixel.g p; Pixel.r p])
                (image_row img w y))
    ++ replicate (Z.to_nat (rowStride w - w * 3)) 0.
Proof.
  intros Hw Hy Hwh Hlen. unfold bmp_row, image_row.
  assert (Hyw : Z.of_nat y * w + w <= w * h) by nia.
  assert (Hnat : (y * Z.to_nat w + Z.to_nat w <= Z.to_nat (w * h))%nat) by nia.
  f_equal.
  - rewrite zrange_0, map_map.
    rewrite <- (slots_slice (fun p => [Pixel.b p; Pixel.g p; Pixel.r p]) img
                            (y * Z.to_nat w) (Z.to_nat w))
      by (rewrite Hlen; exact Hnat).
    unfold pixel_bytes.
    f_equal. apply map_ext_in. intros x Hx. apply in_seq in Hx.
    assert (H0 : 0 <= Z.of_nat y * w) by nia.
    assert (Hxw : Z.of_nat x < w) by lia.
    rewrite (wrap32_id (Z.of_nat y * w)) by lia.
    rewrite (wrap32_id (Z.of_nat y * w + Z.of_nat x)) by lia.
    cbn zeta.
    destruct (Z.of_nat y * w + Z.of_nat x <? 0) eqn:Hneg;
      [apply Z.ltb_lt in Hneg; lia|].
    replace (Z.to_nat (Z.of_nat y * w + Z.of_nat x))
      with (y * Z.to_nat w + x)%nat by nia.
    reflexivity.
  - pose proof (rowStride_bounds w) as [_ Hb].
    destruct (rowStride w - w * 3 >? 0) eqn:Hpad; [reflexivity|].
    replace (rowStride w - w * 3) with 0 by lia. reflexivity.
Qed.

(** C10, as stated, fails: with two reserved [u32] the listed fields take
    58 bytes, and the file the code writes for a 1x1 image is not laid out
    that way (its bytes 10..13 are the pixel-data offset 54). *)
Lemma bmp_header_has_one_reserved_word :
  write_bmp true [Pixel.mk 1 2 3] 1 1
  <> Some (claimed_header 1 1 ++ pixel_data [Pixel.mk 1 2 3] 1 1)
  /\ length (claimed_header 1 1) = 58%nat.
Proof.
  split; [|reflexivity]. vm_compute. intros Heq. discriminate Heq.
Qed.

(** C10, amended: for [w, h > 0] whose file size fits an [int] and a buffer
    of [w * h] pixels, [write_bmp] emits the 54-byte header 'BM', [u32]
    file size [54 + rowStride * h], one reserved zero [u32] (the format's
    two reserved [u16]), [u32] offset 54, [u32] header size 40, [i32] width
    and height, [u16] planes 1, [u16] bits 24, [u32] compression 0, [u32]
    image size [rowStride * h], four zero [u32]; then the rows, bottom row
    first, each [w] BGR triples padded with zero bytes to
    [rowStride = (w * 3 + 3) & ~3], a multiple of 4. *)
Theorem write_bmp_layout (img : list Pixel) (w h : Z) :
  0 < w -> 0 < h -> 54 + rowStride w * h < 2 ^ 31 ->
  length img = Z.to_nat (w * h) ->
  write_bmp true img w h = Some (bmp_header w h ++ pixel_data img w h)
  /\ length (bmp_header w h) = 54%nat
  /\ rowStride w mod 4 = 0
  /\ w * 3 <= rowStride w < w * 3 + 4
  /\ Z.of_nat (length (pixel_data img w h)) = rowStride w * h.
Proof.
  intros Hw Hh Hsize Hlen.
  pose proof (rowStride_bounds w) as [Hmod Hb].
  assert (Hwh : w * h < 2 ^ 31) by nia.
  assert (Hrs : rowStride w < 2 ^ 31 - 54) by nia.
  split; [|split; [reflexivity|split; [exact Hmod|split; [exact Hb|]]]].
  - unfold write_bmp.
    rewrite (wrap32_id (w * 3)) by lia.
    rewrite (wrap32_id (w * 3 + 3)) by lia.
    fold (rowStride w).
    rewrite (wrap32_id (rowStride w * h)) by nia.
    rewrite (wrap32_id (54 + rowStride w * h)) by nia.
    rewrite (wrap32_id (rowStride w - w * 3)) by lia.
    f_equal. unfold bmp_header, pixel_data, u32, u16, i32.
    rewrite !header_word_le_bytes.
    rewrite (Z.mod_small w), (Z.mod_small h) by nia.
    rewrite <- !app_assoc. do 15 f_equal.
    rewrite zrange_0, <- map_rev, map_map.
    f_equal. apply map_ext_in. intros y Hy.
    apply in_rev, in_seq in Hy.
    apply (bmp_row_image_row img w h y); auto; lia.
  - unfold pixel_data.
    assert (Hrow : forall y, (y < Z.to_nat h)%nat ->
              length (concat (map (fun p => [Pixel.b p; Pixel.g p; Pixel.r p])
                                  (image_row img w y))
                      ++ replicate (Z.to_nat (rowStride w - w * 3)) 0)
              = Z.to_nat (rowStride w)).
    { intros y Hy. rewrite length_app, length_replicate.
      assert (Hc : forall ps : list Pixel,
                 length (concat (map (fun p => [Pixel.b p; Pixel.g p; Pixel.r p])
                                     ps)) = (3 * length ps)%nat).
      { induction ps as [|p ps IH]; simpl; [reflexivity|]. rewrite IH. lia. }
      rewrite Hc. unfold image_row.
      rewrite length_take, length_drop, Hlen. nia. }
    assert (Hall : forall ys : list nat,
               (forall y, In y ys -> (y < Z.to_nat h)%nat) ->
               length (concat
                 (map (fun y =>
                         concat (map (fun p => [Pixel.b p; Pixel.g p; Pixel.r p])
                                     (image_row img w y))
                         ++ replicate (Z.to_nat (rowStride w - w * 3)) 0) ys))
               = (length ys * Z.to_nat (rowStride w))%nat).
    { induction ys as [|y ys IH]; intros Hys; simpl; [reflexivity|].
      rewrite length_app.
      change (length (concat (map (fun p => [Pixel.b p; Pixel.g p; Pixel.r p])
                                  (image_row img w y))
                      ++ replicate (Z.to_nat (rowStride w - w * 3)) 0))
        with (length (concat (map (fun p => [Pixel.b p; Pixel.g p; Pixel.r p])
                                  (image_row img w y))
                      ++ replicate (Z.to_nat (rowStride w - w * 3)) 0)).
      rewrite Hrow by (apply Hys; left; reflexivity).
      rewrite IH by (intros y' Hy'; apply Hys; right; exact Hy'). lia. }
    rewrite Hall.
    + rewrite length_rev, length_seq. nia.
    + intros y Hy. apply in_rev, in_seq in Hy. lia.
Qed.

Lemma write_bmp_layout_witness :
  0 < 1 /\ 0 < 2 /\ 54 + rowStride 1 * 2 < 2 ^ 31
  /\ write_bmp true [Pixel.mk 1 2 3; Pixel.mk 4 5 6] 1 2
     = Some (bmp_header 1 2 ++ pixel_data [Pixel.mk 1 2 3; Pixel.mk 4 5 6] 1 2).
Proof.
  split; [lia|]. split; [lia|]. split; [vm_compute; reflexivity|].
  apply (write_bmp_layout [Pixel.mk 1 2 3; Pixel.mk 4 5 6] 1 2);
    [lia | lia | vm_compute; reflexivity | reflexivity].
Defined.

(** ** The binary64 bit pattern *)

Lemma digits2_pos_bounds (m : positive) :
  2 ^ (Zpos (digits2_pos m) - 1) <= Zpos m < 2 ^ Zpos (digits2_pos m).
Proof.
  induction m as [m IH|m IH|]; cbn [digits2_pos].
  - rewrite Pos2Z.inj_succ.
    replace (Z.succ (Zpos (digits2_pos m)) - 1)
      with (Z.succ (Zpos (digits2_pos m) - 1)) by lia.
    rewrite !Z.pow_succ_r by lia. lia.
  - rewrite Pos2Z.inj_succ.
    replace (Z.succ (Zpos (digits2_pos m)) - 1)
      with (Z.succ (Zpos (digits2_pos m) - 1)) by lia.
    rewrite !Z.pow_succ_r by lia. lia.
  - simpl. lia.
Qed.

(** A valid finite binary64 is subnormal or normal. *)
Lemma valid_finite_cases (s : bool) (m : positive) (e : Z) :
  valid_binary (S754_finite s m e) = true ->
  (Zpos m < 2 ^ 52 /\ e = -1074)
  \/ (2 ^ 52 <= Zpos m < 2 ^ 53 /\ -1074 <= e <= 971).
Proof.
  unfold valid_binary, SpecFloat.valid_binary, bounded, canonical_mantissa,
    fexp, emin, prec, emax.
  intros Hv. apply andb_prop in Hv as [Hc He].
  apply Z.eqb_eq in Hc. apply Z.leb_le in He.
  pose proof (digits2_pos_bounds m) as [Hlo Hhi].
  set (d := Zpos (digits2_pos m)) in *.
  assert (Hd : 1 <= d) by (unfold d; lia).
  unfold SpecFloat.fexp, SpecFloat.emin in Hc.
  destruct (Z.le_gt_cases (-1074) (d + e - 53)) as [Hn|Hs].
  - right. assert (d = 53) as Hd53 by lia. rewrite Hd53 in Hlo, Hhi.
    change (53 - 1) with 52 in Hlo. lia.
  - left. split; [|lia].
    assert (Hpow : 2 ^ d <= 2 ^ 52) by (apply Z.pow_le_mono_r; lia).
    lia.
Qed.

Lemma sign_bit_testbit (s : bool) (low : Z) :
  0 <= low < 2 ^ 63 -> Z.testbit (sign_bit s + low) 63 = s.
Proof.
  intros Hlow. rewrite Z.testbit_odd, Z.shiftr_div_pow2 by lia.
  destruct s; unfold sign_bit.
  - replace ((2 ^ 63 + low) / 2 ^ 63) with 1; [reflexivity|].
    apply (Z.div_unique _ _ 1 low); lia.
  - rewrite Z.add_0_l, Z.div_small by lia. reflexivity.
Qed.

Lemma sign_bit_fields (s : bool) (ex fr : Z) :
  0 <= ex < 2 ^ 11 -> 0 <= fr < 2 ^ 52 ->
  ((sign_bit s + ex * 2 ^ 52 + fr) / 2 ^ 52) mod 2 ^ 11 = ex
  /\ (sign_bit s + ex * 2 ^ 52 + fr) mod 2 ^ 52 = fr
  /\ Z.testbit (sign_bit s + ex * 2 ^ 52 + fr) 63 = s.
Proof.
  intros Hex Hfr.
  assert (H63 : 2 ^ 63 = 2 ^ 11 * 2 ^ 52) by reflexivity.
  split; [|split].
  - replace (sign_bit s + ex * 2 ^ 52 + fr)
      with (fr + ((if s then 2 ^ 11 else 0) + ex) * 2 ^ 52)
      by (destruct s; unfold sign_bit; lia).
    rewrite Z.div_add, Z.div_small, Z.add_0_l by lia.
    destruct s.
    + rewrite Z.add_comm, <- (Z.mul_1_l (2 ^ 11)) at 1.
      rewrite Z.mod_add, Z.mod_small by lia. reflexivity.
    + rewrite Z.add_0_l, Z.mod_small by lia. reflexivity.
  - replace (sign_bit s + ex * 2 ^ 52 + fr)
      with (fr + ((if s then 2 ^ 11 else 0) + ex) * 2 ^ 52)
      by (destruct s; unfold sign_bit; lia).
    rewrite Z.mod_add, Z.mod_small by lia. reflexivity.
  - rewrite <- Z.add_assoc. apply sign_bit_testbit. nia.
Qed.

Lemma bits_to_SF_float_to_bits (x : float) :
  bits_to_SF (float_to_bits x) = Prim2SF x.
Proof.
  pose proof (Prim2SF_valid x) as Hv. unfold float_to_bits.
  destruct (Prim2SF x) as [s|s| |s m e].
  - destruct s; reflexivity.
  - destruct s; reflexivity.
  - reflexivity.
  - apply valid_finite_cases in Hv as [[Hm He]|[Hm He]].
    + assert (Hlt : (Zpos m <? 2 ^ 52) = true) by (apply Z.ltb_lt; exact Hm).
      rewrite Hlt. unfold bits_to_SF.
      destruct (sign_bit_fields s 0 (Zpos m) ltac:(lia) ltac:(lia))
        as (Hex & Hfr & Hs).
      rewrite Z.mul_0_l, Z.add_0_r in Hex, Hfr, Hs.
      rewrite Hex, Hfr, Hs. simpl. subst e. reflexivity.
    + assert (Hlt : (Zpos m <? 2 ^ 52) = false) by (apply Z.ltb_ge; lia).
      rewrite Hlt. unfold bits_to_SF.
      destruct (sign_bit_fields s (e + 1075) (Zpos m - 2 ^ 52)
                  ltac:(change (2 ^ 11) with 2048; lia) ltac:(lia))
        as (Hex & Hfr & Hs).
      rewrite Hex, Hfr, Hs.
      destruct (e + 1075 =? 0) eqn:H0; [apply Z.eqb_eq in H0; lia|].
      destruct (e + 1075 =? 2047) eqn:H1; [apply Z.eqb_eq in H1; lia|].
      f_equal; [|lia].
      replace (Zpos m - 2 ^ 52 + 2 ^ 52) with (Zpos m) by lia. reflexivity.
Qed.

Lemma float_of_to_bits (x : float) : float_of_bits (float_to_bits x) = x.
Proof.
  unfold float_of_bits. rewrite bits_to_SF_float_to_bits.
  apply SF2Prim_Prim2SF.
Qed.

Lemma float_to_bits_range (x : float) : 0 <= float_to_bits x < 2 ^ 64.
Proof.
  pose proof (Prim2SF_valid x) as Hv. unfold float_to_bits.
  assert (Hs : forall s, 0 <= sign_bit s <= 2 ^ 63)
    by (intros []; unfold sign_bit; lia).
  destruct (Prim2SF x) as [s|s| |s m e].
  - specialize (Hs s). lia.
  - specialize (Hs s). lia.
  - lia.
  - specialize (Hs s).
    apply valid_finite_cases in Hv as [[Hm He]|[Hm He]].
    + destruct (Zpos m <? 2 ^ 52); lia.
    + destruct (Zpos m <? 2 ^ 52); lia.
Qed.

(** ** The trajectory dump and its reader *)

Lemma le_bytes_succ (k : nat) (v : Z) :
  le_bytes (S k) v = v mod 256 :: le_bytes k (v / 256).
Proof.
  unfold le_bytes. cbn [seq map]. f_equal.
  - rewrite Z.div_1_r. reflexivity.
  - rewrite <- seq_shift, map_map. apply map_ext. intros i.
    replace (8 * Z.of_nat (S i)) with (8 + 8 * Z.of_nat i) by lia.
    rewrite Z.pow_add_r, Z.div_div by lia. reflexivity.
Qed.

Lemma length_le_bytes (k : nat) (v : Z) : length (le_bytes k v) = k.
Proof. unfold le_bytes. rewrite length_map, length_seq. reflexivity. Qed.

Lemma le_value_le_bytes (k : nat) : forall v : Z,
  le_value (le_bytes k v) = v mod 2 ^ (8 * Z.of_nat k).
Proof.
  induction k as [|k IH]; intros v.
  - simpl. rewrite Z.mod_1_r. reflexivity.
  - rewrite le_bytes_succ. cbn [le_value]. rewrite IH.
    replace (8 * Z.of_nat (S k)) with (8 + 8 * Z.of_nat k) by lia.
    rewrite Z.pow_add_r by lia. change (2 ^ 8) with 256.
    rewrite (Z.rem_mul_r v 256 (2 ^ (8 * Z.of_nat k))) by lia.
    reflexivity.
Qed.

Lemma wrap32_mod (n : Z) :
  - 2 ^ 31 <= n < 2 ^ 31 -> wrap32 (n mod 2 ^ 32) = n.
Proof.
  intros Hn. unfold wrap32.
  rewrite Zplus_mod_idemp_l, Z.mod_small by lia. lia.
Qed.

Lemma read_int_int_bytes (n : Z) (rest : list Z) :
  - 2 ^ 31 <= n < 2 ^ 31 -> read_int (int_bytes n ++ rest) = Some (n, rest).
Proof.
  intros Hn. unfold read_int. change (int_bytes n) with (le_bytes 4 n).
  rewrite length_app, length_le_bytes. cbn [Nat.leb Nat.add].
  rewrite (take_app_length' (le_bytes 4 n) rest 4)
    by (rewrite length_le_bytes; reflexivity).
  rewrite (drop_app_length' (le_bytes 4 n) rest 4)
    by (rewrite length_le_bytes; reflexivity).
  rewrite le_value_le_bytes. change (8 * Z.of_nat 4) with 32.
  rewrite wrap32_mod by exact Hn. reflexivity.
Qed.

Section RoundTrip.
Context {F : Type} `{Double F} `{Repr64 F}.
Hypothesis to_bits_range : forall x : F, 0 <= to_bits x < 2 ^ 64.
Hypothesis of_to_bits : forall x : F, of_bits (to_bits x) = x.

Lemma read_doubles_bytes (xs : list F) (rest : list Z) :
  read_doubles (length xs) (concat (map double_bytes xs) ++ rest)
  = Some (xs, rest).
Proof using to_bits_range of_to_bits.
  induction xs as [|x xs IH]; [reflexivity|].
  cbn [length map concat read_doubles].
  change (double_bytes x) with (le_bytes 8 (to_bits x)).
  rewrite <- app_assoc.
  rewrite length_app, length_le_bytes. cbn [Nat.leb Nat.add].
  rewrite (take_app_length' (le_bytes 8 (to_bits x)) _ 8)
    by (rewrite length_le_bytes; reflexivity).
  rewrite (drop_app_length' (le_bytes 8 (to_bits x)) _ 8)
    by (rewrite length_le_bytes; reflexivity).
  rewrite IH, le_value_le_bytes. change (8 * Z.of_nat 8) with 64.
  rewrite Z.mod_small by apply to_bits_range.
  rewrite of_to_bits. reflexivity.
Qed.

(** What [save_rocket_trails_bin] writes for one rocket. *)
Lemma read_doubles_saved (buf : list F) (count : Z) (rest : list Z) :
  (Z.to_nat count <= length buf)%nat ->
  read_doubles (Z.to_nat count) (doubles_bytes buf count ++ rest)
  = Some (take (Z.to_nat count) buf, rest).
Proof using to_bits_range of_to_bits.
  intros Hc. unfold doubles_bytes.
  rewrite <- (length_take_le buf (Z.to_nat count) Hc) at 1.
  apply read_doubles_bytes.
Qed.

Lemma plot_loop_saved (null_on_zero : bool) (rs : list (Rocket F)) :
  Forall well_formed rs -> Forall (loadable null_on_zero) rs ->
  forall (i : nat) (rest : list Z) (img : list Pixel),
  snd (plot_loop null_on_zero (length rs) i
                 (concat (map rocket_bytes rs) ++ rest) img)
  = recorded <$> rs.
Proof using to_bits_range of_to_bits.
  induction 1 as [|r rs (Hlen & Hx & Hy) Hrs IH]; intros Hload i rest img;
    [reflexivity|].
  apply Forall_cons in Hload as [Hr Hload]. specialize (IH Hload).
  cbn [length map concat plot_loop]. unfold rocket_bytes at 1.
  rewrite <- !app_assoc.
  rewrite read_int_int_bytes by lia.
  destruct (Rocket.trail_length r <? 0) eqn:Hneg;
    [apply Z.ltb_lt in Hneg; lia|].
  assert (Hzero : null_on_zero && (Rocket.trail_length r =? 0) = false).
  { destruct null_on_zero; [|reflexivity]. simpl. apply Z.eqb_neq.
    specialize (Hr eq_refl). lia. }
  rewrite Hzero. cbn [orb].
  rewrite read_doubles_saved by exact Hx.
  rewrite read_doubles_saved by exact Hy.
  match goal with
  | |- context [plot_loop null_on_zero (length rs) ?j ?input ?im] =>
      specialize (IH j rest im);
      destruct (plot_loop null_on_zero (length rs) j input im)
        as [img2 trails]
  end.
  simpl in IH. subst trails. reflexivity.
Qed.

Lemma save_rocket_trails_bin_bytes (rockets : list (Rocket F)) (n : Z) :
  (Z.to_nat n <= length rockets)%nat ->
  save_rocket_trails_bin rockets n
  = int_bytes n ++ concat (map rocket_bytes (take (Z.to_nat n) rockets)).
Proof.
  intros Hn. unfold save_rocket_trails_bin. f_equal.
  rewrite range_0.
  apply (slots_slice rocket_bytes rockets 0 (Z.to_nat n)). lia.
Qed.

Lemma recorded_trail (r : Rocket F) :
  zip (fst (recorded r)) (snd (recorded r)) = trail r.
Proof. unfold recorded, trail. simpl. symmetry. apply zip_with_take. Qed.

(** C9: for [n] rockets whose trail lengths are non-negative [int]s
    within their buffers (and not zero where the C library refuses an
    empty allocation), [save_rocket_trails_bin] writes an [i32] count, then
    per rocket an [i32] trail length, the x values and then the y values
    as [f64]; and the plotting tool, run on these bytes, loads for every
    rocket exactly the x and y arrays that were recorded, hence every
    [(x, y)] sample of its trail. *)
Theorem trail_dump_round_trip (null_on_zero : bool)
  (rockets : list (Rocket F)) (n : Z) :
  0 <= n < 2 ^ 31 -> (Z.to_nat n <= length rockets)%nat ->
  Forall well_formed (take (Z.to_nat n) rockets) ->
  Forall (loadable null_on_zero) (take (Z.to_nat n) rockets) ->
  save_rocket_trails_bin rockets n = dump_layout (take (Z.to_nat n) rockets)
  /\ exists trails image,
      plot_main null_on_zero (save_rocket_trails_bin rockets n)
      = Some (trails, image)
      /\ trails = recorded <$> take (Z.to_nat n) rockets
      /\ (fun t => zip (fst t) (snd t)) <$> trails
         = trail <$> take (Z.to_nat n) rockets.
Proof using to_bits_range of_to_bits.
  intros Hn Hlen Hwf Hload. split.
  { rewrite save_rocket_trails_bin_bytes by exact Hlen.
    unfold dump_layout, i32. rewrite length_take_le by exact Hlen.
    rewrite Z2Nat.id, Z.mod_small by lia.
    f_equal. f_equal. apply map_ext_in. intros r Hin.
    apply list_elem_of_In in Hin.
    destruct (proj1 (Forall_forall _ _) Hwf r Hin) as (Hr & _ & _).
    unfold rocket_bytes, i32. rewrite Z.mod_small by lia. reflexivity. }
  unfold plot_main.
  rewrite save_rocket_trails_bin_bytes by exact Hlen.
  rewrite read_int_int_bytes by lia.
  match goal with
  | |- context [plot_loop null_on_zero ?t ?j ?input ?im] =>
      pose proof (plot_loop_saved null_on_zero _ Hwf Hload j [] im) as Hloop;
      rewrite app_nil_r in Hloop;
      replace (length (take (Z.to_nat n) rockets)) with t in Hloop
        by (rewrite length_take_le; [reflexivity|exact Hlen]);
      destruct (plot_loop null_on_zero t j input im) as [img4 trails]
  end.
  simpl in Hloop. subst trails. eexists _, _. split; [reflexivity|].
  split; [reflexivity|].
  rewrite <- list_fmap_compose. apply list_fmap_ext.
  intros i r _. apply recorded_trail.
Qed.
End RoundTrip.

Lemma trail_dump_round_trip_witness :
  save_rocket_trails_bin [probe; frozen] 2
  = dump_layout (take (Z.to_nat 2) [probe; frozen])
  /\ exists trails image,
      plot_main true (save_rocket_trails_bin [probe; frozen] 2)
      = Some (trails, image)
      /\ trails = recorded <$> take (Z.to_nat 2) [probe; frozen]
      /\ (fun t => zip (fst t) (snd t)) <$> trails
         = trail <$> take (Z.to_nat 2) [probe; frozen].
Proof.
  apply (@trail_dump_round_trip float float_Double float_Repr64
           float_to_bits_range float_of_to_bits true [probe; frozen] 2);
    [lia | simpl; lia | |].
  - repeat constructor; simpl; lia.
  - repeat constructor.
Defined.

(** ** The line loop ends *)

(** With [rx] and [ry] steps left to the end point the error term is
    [dx - dy + rx * dy - ry * dx]; every iteration that does not leave the
    loop takes a step that is still due, so [rx + ry + 1] iterations are
    enough, and more fuel changes nothing. *)
Lemma draw_line_loop_enough (fuel : nat) :
  forall (extra : nat) (img : list Pixel) (x y x2 y2 dx dy sx sy r g b rx ry : Z),
  0 <= rx <= dx -> 0 <= ry <= dy ->
  sx = 1 \/ sx = -1 -> sy = 1 \/ sy = -1 ->
  x2 = x + sx * rx -> y2 = y + sy * ry ->
  (Z.to_nat (rx + ry) < fuel)%nat ->
  draw_line_loop (fuel + extra) img x y x2 y2 dx dy sx sy
                 (dx - dy + rx * dy - ry * dx) r g b
  = draw_line_loop fuel img x y x2 y2 dx dy sx sy
                   (dx - dy + rx * dy - ry * dx) r g b.
Proof.
  induction fuel as [|fuel IH];
    intros extra img x y x2 y2 dx dy sx sy r g b rx ry
           Hrx Hry Hsx Hsy Hx Hy Hfuel; [lia|].
  cbn [Nat.add draw_line_loop].
  destruct ((x =? x2) && (y =? y2)) eqn:Hexit; [reflexivity|].
  assert (Hleft : 0 < rx \/ 0 < ry).
  { apply andb_false_iff in Hexit as [Hne|Hne]; apply Z.eqb_neq in Hne.
    - left. destruct (Z.eq_dec rx 0) as [->|]; [|lia]. lia.
    - right. destruct (Z.eq_dec ry 0) as [->|]; [|lia]. lia. }
  destruct (2 * (dx - dy + rx * dy - ry * dx) >? - dy) eqn:Hgx;
    destruct (2 * (dx - dy + rx * dy - ry * dx) <? dx) eqn:Hgy;
    rewrite ?Z.gtb_ltb in Hgx;
    first [apply Z.ltb_lt in Hgx | apply Z.ltb_ge in Hgx];
    first [apply Z.ltb_lt in Hgy | apply Z.ltb_ge in Hgy].
  - assert (0 < rx) by nia. assert (0 < ry) by nia.
    replace (dx - dy + rx * dy - ry * dx - dy + dx)
      with (dx - dy + (rx - 1) * dy - (ry - 1) * dx) by ring.
    apply IH; try assumption; try lia;
      destruct Hsx, Hsy; subst sx sy; lia.
  - assert (0 < rx) by nia.
    replace (dx - dy + rx * dy - ry * dx - dy)
      with (dx - dy + (rx - 1) * dy - ry * dx) by ring.
    apply IH; try assumption; try lia;
      destruct Hsx; subst sx; lia.
  - assert (0 < ry) by nia.
    replace (dx - dy + rx * dy - ry * dx + dx)
      with (dx - dy + rx * dy - (ry - 1) * dx) by ring.
    apply IH; try assumption; try lia;
      destruct Hsy; subst sy; lia.
  - exfalso. nia.
Qed.

(** [draw_line] returns: the fuel it starts its loop with is enough. *)
Lemma draw_line_returns (img : list Pixel) (x1 y1 x2 y2 r g b : Z)
  (extra : nat) :
  draw_line_loop (Z.to_nat (Z.abs (x2 - x1) + Z.abs (y2 - y1) + 1) + extra)
                 img x1 y1 x2 y2 (Z.abs (x2 - x1)) (Z.abs (y2 - y1))
                 (if x1 <? x2 then 1 else -1) (if y1 <? y2 then 1 else -1)
                 (Z.abs (x2 - x1) - Z.abs (y2 - y1))
                 (uchar r) (uchar g) (uchar b)
  = draw_line img x1 y1 x2 y2 r g b.
Proof.
  unfold draw_line.
  set (dx := Z.abs (x2 - x1)). set (dy := Z.abs (y2 - y1)).
  replace (dx - dy) with (dx - dy + dx * dy - dy * dx) by ring.
  apply draw_line_loop_enough; try lia.
  - destruct (x1 <? x2); auto.
  - destruct (y1 <? y2); auto.
  - destruct (x1 <? x2) eqn:Hlt;
      [apply Z.ltb_lt in Hlt | apply Z.ltb_ge in Hlt]; lia.
  - destruct (y1 <? y2) eqn:Hlt;
      [apply Z.ltb_lt in Hlt | apply Z.ltb_ge in Hlt]; lia.
Qed.

(* ================================================================== *)
(** ** What the force kernel and the integrator leave alone *)

Lemma fold_left_invariant {A B} (P : A -> Prop) (g : A -> B -> A)
  (l : list B) (a : A) :
  P a -> (forall a' b, In b l -> P a' -> P (g a' b)) -> P (fold_left g l a).
Proof.
  revert a. induction l as [|b l IH]; intros a Ha Hstep; cbn; [exact Ha|].
  apply IH; [apply Hstep; [now left|exact Ha]|].
  intros a' b' Hin. apply Hstep. now right.
Qed.

Lemma alter_keeps {A B} (phi : A -> B) (f : A -> A) (i : nat) (l : list A) :
  (forall a, phi (f a) = phi a) -> phi <$> alter f i l = phi <$> l.
Proof.
  intros Hf. revert i. induction l as [|a l IH]; intros [|i]; cbn;
    rewrite ?Hf, ?IH; reflexivity.
Qed.

Section Frame.
Context {F : Type} `{Double F}.
Implicit Types (bodies : list (Body F)) (g dt : F).

Lemma pair_force_keeps {B} (phi : Body F -> B) g i j bodies :
  (forall b a1 a2, phi (set_acc b a1 a2) = phi b) ->
  phi <$> pair_force g i j bodies = phi <$> bodies.
Proof.
  intros Hphi. unfold pair_force.
  destruct (bodies !! i); [|reflexivity].
  destruct (bodies !! j); [|reflexivity].
  rewrite !alter_keeps; auto.
Qed.

Lemma compute_forces_keeps {B} (phi : Body F -> B) bodies n g :
  (forall b a1 a2, phi (set_acc b a1 a2) = phi b) ->
  phi <$> compute_forces bodies n g = phi <$> bodies.
Proof.
  intros Hphi. unfold compute_forces. rewrite nested_loops_pairs.
  apply (fold_left_invariant (fun bs => phi <$> bs = phi <$> bodies)).
  - apply (fold_left_invariant (fun bs => phi <$> bs = phi <$> bodies));
      [reflexivity|].
    intros bs i _ <-. apply alter_keeps. intros b. apply Hphi.
  - intros bs ij _ <-. apply pair_force_keeps. exact Hphi.
Qed.

Lemma pair_force_drop g i j bodies (n : nat) :
  (i < n)%nat -> (j < n)%nat ->
  drop n (pair_force g i j bodies) = drop n bodies.
Proof.
  intros Hi Hj. unfold pair_force.
  destruct (bodies !! i); [|reflexivity].
  destruct (bodies !! j); [|reflexivity].
  rewrite !drop_alter_lt by assumption. reflexivity.
Qed.

Lemma compute_forces_drop bodies n g :
  drop (Z.to_nat n) (compute_forces bodies n g) = drop (Z.to_nat n) bodies.
Proof.
  unfold compute_forces. rewrite nested_loops_pairs.
  apply (fold_left_invariant
           (fun bs => drop (Z.to_nat n) bs = drop (Z.to_nat n) bodies)).
  - apply (fold_left_invariant
             (fun bs => drop (Z.to_nat n) bs = drop (Z.to_nat n) bodies));
      [reflexivity|].
    intros bs i Hin <-. apply drop_alter_lt.
    apply list_elem_of_In, elem_of_range_0 in Hin. exact Hin.
  - intros bs ij Hin <-. apply pairs_ordered in Hin.
    apply pair_force_drop; lia.
Qed.

Lemma integrate_loop_take bodies n dt :
  take (Z.to_nat n)
       (fold_left (fun bs i => alter (integrate_body dt) i bs) (range 0 n)
                  bodies)
  = integrate_body dt <$> take (Z.to_nat n) bodies.
Proof.
  apply list_eq. intros k.
  rewrite list_lookup_fmap.
  destruct (decide (k < Z.to_nat n)%nat) as [Hk|Hk].
  - rewrite !lookup_take_lt by exact Hk. rewrite loop_alter_lookup.
    destruct (decide (k < Z.to_nat n)%nat); [reflexivity|lia].
  - rewrite !lookup_take_ge by lia. reflexivity.
Qed.

Lemma integrate_loop_drop bodies n dt :
  drop (Z.to_nat n)
       (fold_left (fun bs i => alter (integrate_body dt) i bs) (range 0 n)
                  bodies)
  = drop (Z.to_nat n) bodies.
Proof.
  apply (fold_left_invariant
           (fun bs => drop (Z.to_nat n) bs = drop (Z.to_nat n) bodies));
    [reflexivity|].
  intros bs i Hin <-. apply drop_alter_lt.
  apply list_elem_of_In, elem_of_range_0 in Hin. exact Hin.
Qed.

Lemma integrate_loop_keeps {B} (phi : Body F -> B) bodies n dt :
  (forall b, phi (integrate_body dt b) = phi b) ->
  phi <$> fold_left (fun bs i => alter (integrate_body dt) i bs) (range 0 n)
                    bodies
  = phi <$> bodies.
Proof.
  intros Hphi.
  apply (fold_left_invariant (fun bs => phi <$> bs = phi <$> bodies));
    [reflexivity|].
  intros bs i _ <-. apply alter_keeps. exact Hphi.
Qed.
End Frame.

(** X1.  [compute_forces] changes nothing but the accelerations of the
    bodies of its range: positions, velocities and masses of every body,
    and the whole of every array element from index [n] on, come out as
    they went in.  [update_bodies] changes no mass and no element from
    index [n] on, and neither changes the number of elements. *)
Theorem update_bodies_frame {F : Type} `{Double F}
  (bodies : list (Body F)) (n : Z) (dt g : F) :
  ((fun b => (Body.x b, Body.y b, Body.vx b, Body.vy b, Body.mass b))
     <$> compute_forces bodies n g
   = (fun b => (Body.x b, Body.y b, Body.vx b, Body.vy b, Body.mass b))
       <$> bodies)
  /\ drop (Z.to_nat n) (compute_forces bodies n g) = drop (Z.to_nat n) bodies
  /\ Body.mass <$> update_bodies bodies n dt g = Body.mass <$> bodies
  /\ drop (Z.to_nat n) (update_bodies bodies n dt g)
     = drop (Z.to_nat n) bodies
  /\ length (compute_forces bodies n g) = length bodies
  /\ length (update_bodies bodies n dt g) = length bodies.
Proof.
  assert (Hm : Body.mass <$> update_bodies bodies n dt g
               = Body.mass <$> bodies).
  { unfold update_bodies. rewrite integrate_loop_keeps by reflexivity.
    apply compute_forces_keeps. reflexivity. }
  assert (Hc : Body.mass <$> compute_forces bodies n g = Body.mass <$> bodies)
    by (apply compute_forces_keeps; reflexivity).
  repeat split.
  - apply compute_forces_keeps. reflexivity.
  - apply compute_forces_drop.
  - exact Hm.
  - unfold update_bodies. rewrite integrate_loop_drop.
    apply compute_forces_drop.
  - apply (f_equal length) in Hc. rewrite !length_fmap in Hc. exact Hc.
  - apply (f_equal length) in Hm. rewrite !length_fmap in Hm. exact Hm.
Qed.

(* ================================================================== *)
(** ** Momentum *)

Lemma total_cons (x : R) (l : list R) : total (x :: l) = (x + total l)%R.
Proof. reflexivity. Qed.

Lemma total_alter {A} (phi : A -> R) (f : A -> A) (i : nat) (l : list A)
  (a : A) :
  l !! i = Some a ->
  total (map phi (alter f i l))
  = (total (map phi l) + (phi (f a) - phi a))%R.
Proof.
  revert i. induction l as [|a' l IH]; intros [|i] Hl; try discriminate.
  - injection Hl as ->. cbn. lra.
  - change (alter f (S i) (a' :: l)) with (a' :: alter f i l).
    change (total (map phi (a' :: alter f i l)))
      with (phi a' + total (map phi (alter f i l)))%R.
    change (total (map phi (a' :: l))) with (phi a' + total (map phi l))%R.
    rewrite (IH i Hl). lra.
Qed.

Lemma total_zero {A} (phi : A -> R) (l : list A) :
  (forall a, In a l -> phi a = 0%R) -> total (map phi l) = 0%R.
Proof.
  induction l as [|a l IH]; intros Hl; [reflexivity|].
  cbn [map]. rewrite total_cons.
  rewrite (Hl a) by now left. rewrite IH; [lra|].
  intros a' Hin. apply Hl. now right.
Qed.

Lemma total_integrated (phi_v phi_a : Body R -> R) (dt : R)
  (l : list (Body R)) (phi_v' : Body R -> R) :
  (forall b, phi_v' (integrate_body dt b) = (phi_v b + phi_a b * dt)%R) ->
  total (map phi_v' (integrate_body dt <$> l))
  = (total (map phi_v l) + total (map phi_a l) * dt)%R.
Proof.
  intros Hb. induction l as [|b l IH]; [cbn; lra|].
  rewrite fmap_cons. cbn [map]. rewrite !total_cons, IH, Hb. lra.
Qed.

Lemma pair_force_net_force (g : R) (i j n : nat) (bodies : list (Body R)) :
  (i < j < n)%nat ->
  net_force (take n (pair_force g i j bodies)) = net_force (take n bodies).
Proof.
  intros Hij. unfold pair_force.
  destruct (bodies !! i) as [bi|] eqn:Hi; [|reflexivity].
  destruct (bodies !! j) as [bj|] eqn:Hj; [|reflexivity].
  rewrite !take_alter_lt by lia.
  unfold net_force. f_equal.
  - rewrite (total_alter _ _ j _ bj), (total_alter _ _ i _ bi).
    + cbn. lra.
    + rewrite lookup_take_lt by lia. exact Hi.
    + rewrite list_lookup_alter_ne by lia.
      rewrite lookup_take_lt by lia. exact Hj.
  - rewrite (total_alter _ _ j _ bj), (total_alter _ _ i _ bi).
    + cbn. lra.
    + rewrite lookup_take_lt by lia. exact Hi.
    + rewrite list_lookup_alter_ne by lia.
      rewrite lookup_take_lt by lia. exact Hj.
Qed.

Lemma net_force_reset (n : Z) (bodies : list (Body R)) :
  net_force
    (take (Z.to_nat n)
          (fold_left (fun bs i => alter reset_acc i bs) (range 0 n) bodies))
  = (0%R, 0%R).
Proof.
  assert (Hz : forall b,
             In b (take (Z.to_nat n)
                        (fold_left (fun bs i => alter reset_acc i bs)
                                   (range 0 n) bodies)) ->
             Body.ax b = 0%R /\ Body.ay b = 0%R).
  { intros b Hin. apply list_elem_of_In, list_elem_of_lookup in Hin as [k Hk].
    apply lookup_take_Some in Hk as [Hk Hlt].
    rewrite loop_alter_lookup in Hk.
    destruct (decide (k < Z.to_nat n)%nat); [|lia].
    destruct (bodies !! k); [|discriminate]. injection Hk as <-.
    split; reflexivity. }
  unfold net_force. f_equal; apply total_zero; intros b Hin;
    destruct (Hz b Hin) as [Hax Hay]; rewrite ?Hax, ?Hay; lra.
Qed.

Lemma compute_forces_net_force (bodies : list (Body R)) (n : Z) (g : R) :
  net_force (take (Z.to_nat n) (compute_forces bodies n g)) = (0%R, 0%R).
Proof.
  unfold compute_forces. rewrite nested_loops_pairs.
  apply (fold_left_invariant
           (fun bs => net_force (take (Z.to_nat n) bs) = (0%R, 0%R))).
  - apply net_force_reset.
  - intros bs ij Hin <-. apply pairs_ordered in Hin.
    apply pair_force_net_force. exact Hin.
Qed.

(** X2.  Over the reals the forces [compute_forces] leaves in the bodies
    of its range cancel: the sum of mass times acceleration is zero in
    both coordinates, for any number of bodies, any masses (also zero or
    negative) and any positions (also coincident). *)
Theorem compute_forces_forces_cancel (bodies : list (Body R)) (n : Z)
  (g : R) :
  net_force (take (Z.to_nat n) (compute_forces bodies n g)) = (0%R, 0%R).
Proof. apply compute_forces_net_force. Qed.

(** X3.  Over the reals [update_bodies] conserves the total momentum of
    the bodies of its range. *)
Theorem update_bodies_conserves_momentum (bodies : list (Body R)) (n : Z)
  (dt g : R) :
  momentum (take (Z.to_nat n) (update_bodies bodies n dt g))
  = momentum (take (Z.to_nat n) bodies).
Proof.
  unfold update_bodies. rewrite integrate_loop_take.
  pose proof (compute_forces_net_force bodies n g) as Hnet.
  injection Hnet as Hx Hy.
  assert (Hkeep : (fun b => (Body.vx b, Body.vy b, Body.mass b))
                    <$> take (Z.to_nat n) (compute_forces bodies n g)
                  = (fun b => (Body.vx b, Body.vy b, Body.mass b))
                      <$> take (Z.to_nat n) bodies).
  { rewrite !fmap_take. f_equal. apply compute_forces_keeps. reflexivity. }
  unfold momentum. f_equal.
  - rewrite (total_integrated (fun b => Body.mass b * Body.vx b)%R
                              (fun b => Body.mass b * Body.ax b)%R).
    2:{ intros b. cbn. lra. }
    rewrite Hx.
    transitivity (total (map (fun p => (snd p * fst (fst p))%R)
                             ((fun b => (Body.vx b, Body.vy b, Body.mass b))
                                <$> take (Z.to_nat n)
                                      (compute_forces bodies n g)))).
    { rewrite <- list_fmap_compose. cbn. unfold compose. cbn.
      change (total (map (fun b => (Body.mass b * Body.vx b)%R)
                      (take (Z.to_nat n) (compute_forces bodies n g))) + 0 * dt
              = total (map (fun b => (Body.mass b * Body.vx b)%R)
                      (take (Z.to_nat n) (compute_forces bodies n g))))%R.
      lra. }
    rewrite Hkeep, <- list_fmap_compose. reflexivity.
  - rewrite (total_integrated (fun b => Body.mass b * Body.vy b)%R
                              (fun b => Body.mass b * Body.ay b)%R).
    2:{ intros b. cbn. lra. }
    rewrite Hy.
    transitivity (total (map (fun p => (snd p * snd (fst p))%R)
                             ((fun b => (Body.vx b, Body.vy b, Body.mass b))
                                <$> take (Z.to_nat n)
                                      (compute_forces bodies n g)))).
    { rewrite <- list_fmap_compose. cbn. unfold compose. cbn.
      change (total (map (fun b => (Body.mass b * Body.vy b)%R)
                      (take (Z.to_nat n) (compute_forces bodies n g))) + 0 * dt
              = total (map (fun b => (Body.mass b * Body.vy b)%R)
                      (take (Z.to_nat n) (compute_forces bodies n g))))%R.
      lra. }
    rewrite Hkeep, <- list_fmap_compose. reflexivity.
Qed.
(* ================================================================== *)
(** ** Rockets: the pull of the bodies in closed form *)

Lemma lookups_take {A} (l : list A) (n : nat) :
  omap (fun j => l !! j) (seq 0 n) = take n l.
Proof.
  induction n as [|n IH]; [reflexivity|].
  rewrite seq_S, omap_app, IH. cbn.
  destruct (l !! n) as [a|] eqn:Hn.
  - rewrite (take_S_r _ _ _ Hn). reflexivity.
  - apply lookup_ge_None in Hn. rewrite !take_ge by lia.
    apply app_nil_r.
Qed.

Lemma rocket_pull_sum (bodies : list (Body R)) (g : R) (r : Rocket R)
  (js : list nat) : forall a1 a2 : R,
  fold_left (fun r' j => match bodies !! j with
                         | Some bj => rocket_pull g r' bj
                         | None => r'
                         end) js (set_racc r a1 a2)
  = set_racc r
      (fst (fold_left (fun s v => (fst s + fst v, snd s + snd v)%R)
                      (map (pull g (Rocket.x r) (Rocket.y r))
                           (omap (fun j => bodies !! j) js)) (a1, a2)))
      (snd (fold_left (fun s v => (fst s + fst v, snd s + snd v)%R)
                      (map (pull g (Rocket.x r) (Rocket.y r))
                           (omap (fun j => bodies !! j) js)) (a1, a2))).
Proof.
  induction js as [|j js IH]; intros a1 a2; [reflexivity|].
  cbn [fold_left omap list_omap].
  destruct (bodies !! j) as [bj|]; [|apply IH].
  cbn [map fold_left].
  rewrite <- IH. f_equal.
  unfold rocket_pull, pull. rewrite softening_R. unfold set_racc. cbn.
  f_equal; unfold Rdiv; ring.
Qed.

(** X4.  Over the reals [compute_rocket_forces] gives an active rocket of
    its range the sum of the pulls [g * mass / d2] of the first
    [n_bodies] bodies, each directed at its body; whatever acceleration
    the rocket carried before is discarded, and nothing else of the rocket
    changes. *)
Theorem compute_rocket_forces_sums_pulls (rockets : list (Rocket R))
  (n_rockets : Z) (bodies : list (Body R)) (n_bodies : Z) (g : R) (k : nat)
  (r : Rocket R) :
  (k < Z.to_nat n_rockets)%nat -> rockets !! k = Some r ->
  Rocket.active r <> 0 ->
  compute_rocket_forces rockets n_rockets bodies n_bodies g !! k
  = Some (set_racc r
            (fst (vsum (map (pull g (Rocket.x r) (Rocket.y r))
                            (take (Z.to_nat n_bodies) bodies))))
            (snd (vsum (map (pull g (Rocket.x r) (Rocket.y r))
                            (take (Z.to_nat n_bodies) bodies))))).
Proof.
  intros Hk Hr Hact. rewrite compute_rocket_forces_lookup.
  destruct (decide (k < Z.to_nat n_rockets)%nat); [|lia].
  rewrite Hr. cbn [fmap option_fmap option_map]. f_equal.
  unfold rocket_forces_at.
  destruct (Rocket.active r =? 0) eqn:Hz; [apply Z.eqb_eq in Hz; lia|].
  rewrite rocket_pull_sum, range_0, lookups_take. reflexivity.
Qed.

Lemma compute_rocket_forces_sums_pulls_witness :
  compute_rocket_forces
    [Rocket.mk 3 4 0 0 7 7 1 [] [] 0 0]%R 1 [Body.mk 0 0 0 0 0 0 100]%R 1 1%R
    !! 0%nat
  = Some (set_racc (Rocket.mk 3 4 0 0 7 7 1 [] [] 0 0)%R
            (fst (vsum (map (pull 1 3 4)
                            (take (Z.to_nat 1) [Body.mk 0 0 0 0 0 0 100]%R))))
            (snd (vsum (map (pull 1 3 4)
                            (take (Z.to_nat 1) [Body.mk 0 0 0 0 0 0 100]%R))))).
Proof.
  apply (compute_rocket_forces_sums_pulls
           [Rocket.mk 3 4 0 0 7 7 1 [] [] 0 0]%R 1
           [Body.mk 0 0 0 0 0 0 100]%R 1 1%R 0).
  - cbn. lia.
  - reflexivity.
  - cbn. lia.
Defined.

(* ================================================================== *)
(** ** Rockets: the messages of one call *)

Lemma omap_ext_in {A B} (f f' : A -> option B) (l : list A) :
  (forall a, In a l -> f a = f' a) -> omap f l = omap f' l.
Proof.
  induction l as [|a l IH]; intros Hl; [reflexivity|].
  cbn. rewrite (Hl a) by now left. rewrite IH; [reflexivity|].
  intros a' Hin. apply Hl. now right.
Qed.

Section Messages.
Context {F : Type} `{Double F}.

Lemma integrate_loop_log (dt : F) (idx : list nat) :
  NoDup idx -> forall st : list (Rocket F) * Log,
  snd (fold_left (integrate_at dt) idx st)
  = snd st ++ omap (message_at dt (fst st)) idx.
Proof.
  induction 1 as [|i idx Hi Hnd IH]; intros st; cbn [fold_left omap list_omap].
  - symmetry. apply app_nil_r.
  - rewrite IH.
    rewrite (omap_ext_in (message_at dt (fst (integrate_at dt st i)))
                         (message_at dt (fst st))).
    2:{ intros j Hj. unfold message_at. rewrite fst_integrate_at.
        rewrite list_lookup_alter_ne; [reflexivity|].
        intros ->. apply Hi, list_elem_of_In, Hj. }
    unfold integrate_at, message_at.
    destruct (fst st !! i) as [r|]; [|reflexivity].
    destruct (integrate_rocket dt r) as [r' [d|]]; cbn.
    + rewrite <- app_assoc. reflexivity.
    + reflexivity.
Qed.

Lemma update_rockets_messages rockets n_rockets bodies n_bodies (dt g : F) :
  snd (update_rockets rockets n_rockets bodies n_bodies dt g)
  = omap (fun i => match rockets !! i with
                   | Some r =>
                       pair i <$> snd (integrate_rocket dt
                                         (rocket_forces_at bodies n_bodies g r))
                   | None => None
                   end) (range 0 n_rockets).
Proof.
  unfold update_rockets. rewrite integrate_loop_log.
  2:{ rewrite range_0. apply NoDup_seq. }
  cbn [fst snd app]. apply omap_ext_in. intros i Hi.
  apply list_elem_of_In, elem_of_range_0 in Hi.
  unfold message_at. rewrite compute_rocket_forces_lookup.
  destruct (decide (i < Z.to_nat n_rockets)%nat); [|lia].
  destruct (rockets !! i); reflexivity.
Qed.
End Messages.

Lemma omap_indices_sublist {B} (f : nat -> option (nat * B)) (idx : list nat) :
  (forall j e, f j = Some e -> fst e = j) ->
  fst <$> omap f idx `sublist_of` idx.
Proof.
  intros Hf. induction idx as [|j idx IH]; cbn; [constructor|].
  destruct (f j) as [e|] eqn:He.
  - cbn. rewrite (Hf j e He). now constructor.
  - now constructor.
Qed.

(** X5.  One call of [update_rockets] prints a message for rocket [i] with
    distance [d] exactly when [i] is in range, the rocket entered the call
    active and leaves it inactive, and [d] is the distance of its new
    position from the origin; the messages come in the order of the
    indices, at most one for each. *)
Theorem update_rockets_reports_deactivations {F : Type} `{Double F}
  (rockets : list (Rocket F)) (n_rockets : Z) (bodies : list (Body F))
  (n_bodies : Z) (dt g : F) :
  (forall (i : nat) (d : F),
      (i, d) ∈ snd (update_rockets rockets n_rockets bodies n_bodies dt g)
      <-> (i < Z.to_nat n_rockets)%nat
          /\ exists r r',
               rockets !! i = Some r
               /\ fst (update_rockets rockets n_rockets bodies n_bodies dt g)
                    !! i = Some r'
               /\ Rocket.active r <> 0 /\ Rocket.active r' = 0
               /\ d = dsqrt (Rocket.x r' * Rocket.x r'
                             + Rocket.y r' * Rocket.y r')%D)
  /\ fst <$> snd (update_rockets rockets n_rockets bodies n_bodies dt g)
     `sublist_of` range 0 n_rockets.
Proof.
  split.
  - intros i d. rewrite update_rockets_messages, list_elem_of_omap. split.
    + intros (j & Hj & Hmsg). apply elem_of_range_0 in Hj.
      destruct (rockets !! j) as [r|] eqn:Hr; [|discriminate].
      destruct (snd (integrate_rocket dt (rocket_forces_at bodies n_bodies g r)))
        as [d'|] eqn:Hd; [|discriminate].
      injection Hmsg as -> ->. split; [exact Hj|].
      assert (Hact : Rocket.active r <> 0).
      { intros Hz. rewrite rocket_forces_at_inactive in Hd by exact Hz.
        rewrite integrate_rocket_inactive in Hd by exact Hz. discriminate. }
      exists r, (advance bodies n_bodies dt g r).
      destruct (rocket_forces_at_acc bodies n_bodies g r) as (a1 & a2 & Hacc).
      assert (Hact1 : Rocket.active (rocket_forces_at bodies n_bodies g r) <> 0)
        by (rewrite Hacc; exact Hact).
      pose proof (integrate_rocket_active dt _ Hact1) as Hint.
      cbn zeta in Hint.
      destruct Hint as (_ & _ & _ & _ & _ & _ & _ & Ha & Hs & _).
      fold (advance bodies n_bodies dt g r) in Ha, Hs.
      rewrite Hd in Hs.
      destruct (dgt _ _); [|discriminate]. injection Hs as ->.
      repeat split; try assumption.
      rewrite update_rockets_lookup, Hr.
      destruct (decide (i < Z.to_nat n_rockets)%nat); [reflexivity|lia].
    + intros (Hi & r & r' & Hr & Hr' & Hact & Hoff & ->).
      exists i. split; [apply elem_of_range_0; exact Hi|].
      rewrite Hr.
      rewrite update_rockets_lookup, Hr in Hr'.
      destruct (decide (i < Z.to_nat n_rockets)%nat); [|lia].
      injection Hr' as <-.
      destruct (rocket_forces_at_acc bodies n_bodies g r) as (a1 & a2 & Hacc).
      assert (Hact1 : Rocket.active (rocket_forces_at bodies n_bodies g r) <> 0)
        by (rewrite Hacc; exact Hact).
      pose proof (integrate_rocket_active dt _ Hact1) as Hint.
      cbn zeta in Hint.
      destruct Hint as (_ & _ & _ & _ & _ & _ & _ & Ha & Hs & _).
      fold (advance bodies n_bodies dt g r) in Ha, Hs.
      rewrite Hs. rewrite Hoff in Ha.
      destruct (dgt _ _); [reflexivity|]. congruence.
  - rewrite update_rockets_messages. apply omap_indices_sublist.
    intros j e He. destruct (rockets !! j); [|discriminate].
    destruct (snd _); [|discriminate]. injection He as <-. reflexivity.
Qed.

(* ================================================================== *)
(** ** Rockets: the trail only grows *)

Section TrailGrowth.
Context {F : Type} `{Double F}.

Lemma advance_trail bodies n_bodies (dt g : F) (r : Rocket F) :
  trail_fits r ->
  let r' := advance bodies n_bodies dt g r in
  trail r `prefix_of` trail r'
  /\ trail_fits r'
  /\ Rocket.trail_capacity r' = Rocket.trail_capacity r
  /\ length (Rocket.trail_x r') = length (Rocket.trail_x r)
  /\ length (Rocket.trail_y r') = length (Rocket.trail_y r)
  /\ Rocket.trail_length r <= Rocket.trail_length r'
  /\ (Rocket.trail_length r <= Rocket.trail_capacity r ->
      Rocket.trail_length r' <= Rocket.trail_capacity r).
Proof.
  intros (Hlen & Hx & Hy & Hcx & Hcy) r'.
  destruct (Z.eq_dec (Rocket.active r) 0) as [Hz|Hact].
  { subst r'. rewrite advance_inactive by exact Hz.
    repeat split; try assumption; try reflexivity; try lia. }
  destruct (advance_active bodies n_bodies dt g r Hact) as (Hcap & _ & Htrail).
  fold r' in Hcap, Htrail.
  destruct (Rocket.trail_length r <? Rocket.trail_capacity r) eqn:Hroom;
    [apply Z.ltb_lt in Hroom | apply Z.ltb_ge in Hroom];
    injection Htrail as Htx Hty Hl.
  - rewrite poke_insert in Htx, Hty by exact Hlen.
    assert (Hnx : (Z.to_nat (Rocket.trail_length r)
                   < length (Rocket.trail_x r))%nat) by lia.
    assert (Hny : (Z.to_nat (Rocket.trail_length r)
                   < length (Rocket.trail_y r))%nat) by lia.
    assert (Hlx : length (Rocket.trail_x r') = length (Rocket.trail_x r))
      by (rewrite Htx; apply length_insert).
    assert (Hly : length (Rocket.trail_y r') = length (Rocket.trail_y r))
      by (rewrite Hty; apply length_insert).
    repeat split; try lia.
    + unfold trail. rewrite Htx, Hty, Hl.
      replace (Z.to_nat (Rocket.trail_length r + 1))
        with (S (Z.to_nat (Rocket.trail_length r))) by lia.
      rewrite trail_appended by assumption.
      eexists. reflexivity.
  - repeat split; try lia; try congruence.
    unfold trail. rewrite Htx, Hty, Hl. reflexivity.
Qed.

Lemma exec_trail (w : World) (op : Op) i r :
  w_rockets w !! i = Some r -> trail_fits r ->
  exists r',
    w_rockets (exec w op) !! i = Some r'
    /\ trail r `prefix_of` trail r'
    /\ trail_fits r'
    /\ Rocket.trail_capacity r' = Rocket.trail_capacity r
    /\ length (Rocket.trail_x r') = length (Rocket.trail_x r)
    /\ length (Rocket.trail_y r') = length (Rocket.trail_y r)
    /\ Rocket.trail_length r <= Rocket.trail_length r'
    /\ (Rocket.trail_length r <= Rocket.trail_capacity r ->
        Rocket.trail_length r' <= Rocket.trail_capacity r).
Proof.
  intros Hr Hfit.
  assert (Hsame : exists r', Some r = Some r'
    /\ trail r `prefix_of` trail r'
    /\ trail_fits r'
    /\ Rocket.trail_capacity r' = Rocket.trail_capacity r
    /\ length (Rocket.trail_x r') = length (Rocket.trail_x r)
    /\ length (Rocket.trail_y r') = length (Rocket.trail_y r)
    /\ Rocket.trail_length r <= Rocket.trail_length r'
    /\ (Rocket.trail_length r <= Rocket.trail_capacity r ->
        Rocket.trail_length r' <= Rocket.trail_capacity r)).
  { exists r. repeat split; try apply Hfit; try reflexivity; try lia. }
  destruct op as [n dt g|n_rockets n_bodies dt g|n_bodies n_rockets scale];
    cbn [exec w_rockets]; rewrite ?Hr; try exact Hsame.
  rewrite update_rockets_lookup, Hr.
  destruct (decide (i < Z.to_nat n_rockets)%nat); [|exact Hsame].
  eexists. split; [reflexivity|].
  apply advance_trail. exact Hfit.
Qed.
End TrailGrowth.

(** X6.  Whatever sequence of [update_bodies], [update_rockets] and
    [render] calls is run, a rocket whose trail fits its buffers keeps
    every sample it has recorded, in place: the old trail is a prefix of
    the new one, the trail length never decreases and never passes a
    capacity it was within, and the capacity and the two buffer sizes stay
    what they were. *)
Theorem trail_only_grows {F : Type} `{Double F} (ops : list Op) :
  forall (w : World) (i : nat) (r : Rocket F),
  w_rockets w !! i = Some r -> trail_fits r ->
  exists r',
    w_rockets (run ops w) !! i = Some r'
    /\ trail r `prefix_of` trail r'
    /\ trail_fits r'
    /\ Rocket.trail_capacity r' = Rocket.trail_capacity r
    /\ length (Rocket.trail_x r') = length (Rocket.trail_x r)
    /\ length (Rocket.trail_y r') = length (Rocket.trail_y r)
    /\ Rocket.trail_length r <= Rocket.trail_length r'
    /\ (Rocket.trail_length r <= Rocket.trail_capacity r ->
        Rocket.trail_length r' <= Rocket.trail_capacity r).
Proof.
  induction ops as [|op ops IH]; intros w i r Hr Hfit.
  - exists r. repeat split; try assumption; try reflexivity; try lia;
      apply Hfit.
  - destruct (exec_trail w op i r Hr Hfit)
      as (r1 & Hr1 & Hp1 & Hfit1 & Hc1 & Hx1 & Hy1 & Hl1 & Hb1).
    destruct (IH (exec w op) i r1 Hr1 Hfit1)
      as (r2 & Hr2 & Hp2 & Hfit2 & Hc2 & Hx2 & Hy2 & Hl2 & Hb2).
    rewrite Hc1 in Hb2.
    exists r2. repeat split; try apply Hfit2; try congruence; try lia.
    + exact Hr2.
    + etransitivity; eassumption.
Qed.

Lemma trail_only_grows_witness :
  exists r',
    w_rockets (run [UpdateBodies 2 (lit (1 # 100)) (of_int 1);
                    UpdateRockets 1 2 (lit (1 # 100)) (of_int 1)]
                   {| w_bodies := binary_pair; w_rockets := [probe];
                      w_img := [] |}) !! 0%nat = Some r'
    /\ trail probe `prefix_of` trail r'
    /\ trail_fits r'
    /\ Rocket.trail_capacity r' = Rocket.trail_capacity probe
    /\ length (Rocket.trail_x r') = length (Rocket.trail_x probe)
    /\ length (Rocket.trail_y r') = length (Rocket.trail_y probe)
    /\ Rocket.trail_length probe <= Rocket.trail_length r'
    /\ (Rocket.trail_length probe <= Rocket.trail_capacity probe ->
        Rocket.trail_length r' <= Rocket.trail_capacity probe).
Proof.
  apply (trail_only_grows
           [UpdateBodies 2 (lit (1 # 100)) (of_int 1);
            UpdateRockets 1 2 (lit (1 # 100)) (of_int 1)]
           {| w_bodies := binary_pair; w_rockets := [probe]; w_img := [] |}
           0 probe).
  - reflexivity.
  - unfold trail_fits. cbn. lia.
Defined.

(* ================================================================== *)
(** ** The loaders *)

Lemma fill_loop_closed {A D} (mk : D -> A) (lines : list (option D)) :
  forall (slots : list A) (count max : Z),
  0 <= count -> (Z.to_nat max <= length slots)%nat ->
  fill_loop mk lines slots count max
  = (take (Z.to_nat count) slots
     ++ (mk <$> take (Z.to_nat (max - count)) (data_lines lines))
     ++ drop (Z.to_nat count
              + Nat.min (Z.to_nat (max - count)) (length (data_lines lines)))
             slots,
     count + Z.of_nat (Nat.min (Z.to_nat (max - count))
                               (length (data_lines lines)))).
Proof.
  induction lines as [|l rest IH]; intros slots count max Hc Hmax.
  - cbn. rewrite take_nil, Nat.min_0_r, Nat.add_0_r. cbn.
    rewrite take_drop. f_equal. lia.
  - cbn [fill_loop].
    destruct (count <? max) eqn:Hlt;
      [apply Z.ltb_lt in Hlt | apply Z.ltb_ge in Hlt].
    + destruct l as [d|].
      * rewrite IH by (rewrite ?length_insert; lia).
        change (data_lines (Some d :: rest)) with (d :: data_lines rest).
        replace (Z.to_nat (max - count)) with (S (Z.to_nat (max - (count + 1))))
          by lia.
        set (k := Z.to_nat (max - (count + 1))).
        cbn [take length fmap list_fmap].
        rewrite <- Nat.succ_min_distr.
        replace (Z.to_nat (count + 1)) with (S (Z.to_nat count)) by lia.
        rewrite (take_S_r _ _ (mk d)).
        2:{ apply list_lookup_insert_eq. lia. }
        rewrite take_insert_ge by lia.
        rewrite drop_insert_lt by lia.
        rewrite <- app_assoc. cbn [app].
        rewrite Nat.add_succ_r. f_equal. lia.
      * rewrite IH by lia. reflexivity.
    + replace (Z.to_nat (max - count)) with 0%nat by lia.
      rewrite take_0, Nat.min_0_l, Nat.add_0_r. cbn [fmap list_fmap app].
      rewrite take_drop. f_equal. lia.
Qed.

Lemma load_rockets_loop_fill {F : Type} `{Double F} (lines : list scanned) :
  forall (rockets : list (Rocket F)) (count max_rockets : Z),
  load_rockets_loop lines rockets count max_rockets
  = fill_loop rocket_of_line lines rockets count max_rockets.
Proof.
  induction lines as [|[[[[x y] vx] vy]|] rest IH]; intros rockets count m;
    cbn [load_rockets_loop fill_loop]; [reflexivity| |];
    destruct (count <? m); rewrite ?IH; reflexivity.
Qed.

Lemma load_bodies_loop_fill {F : Type} `{Double F}
  (lines : list scanned_body) :
  forall (bodies : list (Body F)) (count max_bodies : Z),
  load_bodies_loop lines bodies count max_bodies
  = fill_loop body_of_line lines bodies count max_bodies.
Proof.
  induction lines as [|[[[[[x y] vx] vy] mass]|] rest IH];
    intros bodies count m;
    cbn [load_bodies_loop fill_loop]; [reflexivity| |];
    destruct (count <? m); rewrite ?IH; reflexivity.
Qed.

(** X7.  [load_rockets] on a file that opens fills the first slots of the
    array with the rockets of the first [max_rockets] data lines, in the
    order of the file, leaves every later slot as it was and returns the
    number of slots filled; comments, empty lines and lines that do not
    scan are skipped without using up a slot.  A file that cannot be
    opened gives [-1] and an untouched array.  In [main], a file that
    opens but holds no data line therefore gives a run with no rocket:
    the default rocket is set up only when the file does not open. *)
Theorem load_rockets_fills {F : Type} `{Double F} (lines : list scanned)
  (rockets : list (Rocket F)) (max_rockets : Z) :
  (Z.to_nat max_rockets <= length rockets)%nat ->
  load_rockets (Some lines) rockets max_rockets
  = ((rocket_of_line <$> take (Z.to_nat max_rockets) (data_lines lines))
     ++ drop (Nat.min (Z.to_nat max_rockets) (length (data_lines lines)))
             rockets,
     Z.of_nat (Nat.min (Z.to_nat max_rockets) (length (data_lines lines))))
  /\ load_rockets None rockets max_rockets = (rockets, -1)
  /\ (data_lines lines = [] ->
      setup_rockets (Some lines) rockets = (rockets, 0)).
Proof.
  intros Hmax. split; [|split; [reflexivity|]].
  - cbn [load_rockets]. rewrite load_rockets_loop_fill.
    rewrite fill_loop_closed by lia.
    rewrite Z.sub_0_r. reflexivity.
  - intros Hnone. unfold setup_rockets. cbn [load_rockets].
    rewrite load_rockets_loop_fill.
    destruct (Nat.le_gt_cases (Z.to_nat MAX_ROCKETS) (length rockets))
      as [Hle|Hgt].
    + rewrite fill_loop_closed by lia. rewrite Hnone. cbn. rewrite drop_0.
      reflexivity.
    + clear Hmax Hgt. revert Hnone.
      induction lines as [|[d|] rest IH]; intros Hnone; try discriminate.
      * reflexivity.
      * cbn [fill_loop]. change (0 <? MAX_ROCKETS) with true. cbn iota.
        apply IH. exact Hnone.
Qed.

Lemma load_rockets_fills_witness :
  load_rockets
    (Some [None; Some (of_int 1, of_int 2, of_int 3, of_int 4); None;
           Some (of_int 5, of_int 6, of_int 7, of_int 8)])
    [blank; blank] 1
  = ((rocket_of_line
        <$> take (Z.to_nat 1)
              (data_lines
                 [None; Some (of_int 1, of_int 2, of_int 3, of_int 4); None;
                  Some (of_int 5, of_int 6, of_int 7, of_int 8)]))
     ++ drop (Nat.min (Z.to_nat 1)
                (length
                   (data_lines
                      [None; Some (of_int 1, of_int 2, of_int 3, of_int 4);
                       None; Some (of_int 5, of_int 6, of_int 7, of_int 8)])))
             [blank; blank],
     Z.of_nat
       (Nat.min (Z.to_nat 1)
          (length
             (data_lines
                [None; Some (of_int 1, of_int 2, of_int 3, of_int 4); None;
                 Some (of_int 5, of_int 6, of_int 7, of_int 8)])))).
Proof.
  apply (load_rockets_fills
           [None; Some (of_int 1, of_int 2, of_int 3, of_int 4); None;
            Some (of_int 5, of_int 6, of_int 7, of_int 8)]
           [blank; blank] 1).
  cbn. lia.
Defined.

(** X8.  [load_bodies] on a file that opens fills the first slots of the
    array with the bodies of the first [max_bodies] data lines, in the
    order of the file and with zero acceleration, leaves every later slot
    as it was and returns the number of slots filled; a file that cannot
    be opened gives [-1] and an untouched array. *)
Theorem load_bodies_fills {F : Type} `{Double F} (lines : list scanned_body)
  (bodies : list (Body F)) (max_bodies : Z) :
  (Z.to_nat max_bodies <= length bodies)%nat ->
  load_bodies (Some lines) bodies max_bodies
  = ((body_of_line <$> take (Z.to_nat max_bodies) (data_lines lines))
     ++ drop (Nat.min (Z.to_nat max_bodies) (length (data_lines lines)))
             bodies,
     Z.of_nat (Nat.min (Z.to_nat max_bodies) (length (data_lines lines))))
  /\ load_bodies None bodies max_bodies = (bodies, -1).
Proof.
  intros Hmax. split; [|reflexivity].
  cbn [load_bodies]. rewrite load_bodies_loop_fill.
  rewrite fill_loop_closed by lia.
  rewrite Z.sub_0_r. reflexivity.
Qed.

Lemma load_bodies_fills_witness :
  load_bodies
    (Some [Some (of_int 1, of_int 2, of_int 3, of_int 4, of_int 9); None])
    binary_pair 2
  = ((body_of_line
        <$> take (Z.to_nat 2)
              (data_lines
                 [Some (of_int 1, of_int 2, of_int 3, of_int 4, of_int 9);
                  None]))
     ++ drop (Nat.min (Z.to_nat 2)
                (length
                   (data_lines
                      [Some (of_int 1, of_int 2, of_int 3, of_int 4, of_int 9);
                       None])))
             binary_pair,
     Z.of_nat
       (Nat.min (Z.to_nat 2)
          (length
             (data_lines
                [Some (of_int 1, of_int 2, of_int 3, of_int 4, of_int 9);
                 None])))).
Proof.
  apply (load_bodies_fills
           [Some (of_int 1, of_int 2, of_int 3, of_int 4, of_int 9); None]
           binary_pair 2).
  cbn. lia.
Defined.
(* ================================================================== *)
(** ** The configuration file *)

Section Config.
Context {F : Type} `{Double F}.



End Config.

(* ================================================================== *)
(** ** Drawing: which pixels change *)

Lemma elem_of_zrange (lo hi z : Z) : In z (zrange lo hi) <-> lo <= z <= hi.
Proof.
  unfold zrange. rewrite in_map_iff. split.
  - intros (k & <- & Hk). apply in_seq in Hk. lia.
  - intros Hz. exists (Z.to_nat (z - lo)). split; [lia|].
    apply in_seq. lia.
Qed.

Lemma in_image_spec (px py : Z) :
  in_image px py = true <-> 0 <= px < WIDTH /\ 0 <= py < HEIGHT.
Proof.
  unfold in_image. rewrite !andb_true_iff, !Z.leb_le, !Z.ltb_lt. lia.
Qed.

Lemma length_plot (img : list Pixel) (x y r g b : Z) :
  length (plot img x y r g b) = length img.
Proof.
  unfold plot, store. destruct (_ && _); [apply length_insert|reflexivity].
Qed.

Lemma drop_plot (img : list Pixel) (x y r g b : Z) :
  drop (Z.to_nat (WIDTH * HEIGHT)) (plot img x y r g b)
  = drop (Z.to_nat (WIDTH * HEIGHT)) img.
Proof.
  unfold plot, store.
  destruct (_ && _) eqn:Hin; [|reflexivity].
  apply (in_image_spec x y) in Hin. apply drop_insert_lt.
  unfold WIDTH, HEIGHT in *. lia.
Qed.

Lemma pixel_at_plot (img : list Pixel) (x y r g b px py : Z) :
  (Z.to_nat (WIDTH * HEIGHT) <= length img)%nat ->
  in_image px py = true ->
  pixel_at (plot img x y r g b) px py
  = if (x =? px) && (y =? py) then Some (Pixel.mk b g r)
    else pixel_at img px py.
Proof.
  intros Hlen Hp. apply in_image_spec in Hp.
  unfold plot, store, pixel_at.
  destruct ((0 <=? x) && (x <? WIDTH) && (0 <=? y) && (y <? HEIGHT)) eqn:Hin.
  - apply (in_image_spec x y) in Hin.
    destruct ((x =? px) && (y =? py)) eqn:Heq.
    + apply andb_true_iff in Heq as [->%Z.eqb_eq ->%Z.eqb_eq].
      apply list_lookup_insert_eq. unfold WIDTH, HEIGHT in *. lia.
    + apply list_lookup_insert_ne.
      apply andb_false_iff in Heq as [Hne%Z.eqb_neq|Hne%Z.eqb_neq];
        unfold WIDTH, HEIGHT in *; lia.
  - destruct ((x =? px) && (y =? py)) eqn:Heq; [|reflexivity].
    apply andb_true_iff in Heq as [->%Z.eqb_eq ->%Z.eqb_eq].
    apply (in_image_spec px py) in Hp. unfold in_image in Hp. congruence.
Qed.

(** A loop whose iterations plot one colour under a guard: a pixel of the
    image ends up with that colour when an iteration passes the guard at
    its coordinates, and is left alone otherwise. *)
Lemma pixel_at_paint {A} (guard : A -> bool) (fx fy : A -> Z) (r g b : Z)
  (px py : Z) (l : list A) : forall img : list Pixel,
  (Z.to_nat (WIDTH * HEIGHT) <= length img)%nat ->
  in_image px py = true ->
  pixel_at (fold_left (fun im a => if guard a then plot im (fx a) (fy a) r g b
                                   else im) l img) px py
  = if existsb (fun a => guard a && (fx a =? px) && (fy a =? py)) l
    then Some (Pixel.mk b g r) else pixel_at img px py.
Proof.
  induction l as [|a l IH]; intros img Hlen Hp; [reflexivity|].
  cbn [fold_left existsb].
  destruct (guard a); cbn [andb orb].
  - rewrite IH by (rewrite ?length_plot; assumption).
    rewrite pixel_at_plot by assumption.
    destruct ((fx a =? px) && (fy a =? py)); cbn [orb];
      [destruct (existsb _ l)|]; reflexivity.
  - apply IH; assumption.
Qed.

Lemma length_paint {A} (guard : A -> bool) (fx fy : A -> Z) (r g b : Z)
  (l : list A) (img : list Pixel) :
  length (fold_left (fun im a => if guard a then plot im (fx a) (fy a) r g b
                                 else im) l img)
  = length img.
Proof.
  apply (fold_left_invariant (fun im => length im = length img));
    [reflexivity|].
  intros im a _ <-. destruct (guard a); [apply length_plot|reflexivity].
Qed.

Lemma drop_paint {A} (guard : A -> bool) (fx fy : A -> Z) (r g b : Z)
  (l : list A) (img : list Pixel) :
  drop (Z.to_nat (WIDTH * HEIGHT))
       (fold_left (fun im a => if guard a then plot im (fx a) (fy a) r g b
                               else im) l img)
  = drop (Z.to_nat (WIDTH * HEIGHT)) img.
Proof.
  apply (fold_left_invariant
           (fun im => drop (Z.to_nat (WIDTH * HEIGHT)) im
                      = drop (Z.to_nat (WIDTH * HEIGHT)) img));
    [reflexivity|].
  intros im a _ <-. destruct (guard a); [apply drop_plot|reflexivity].
Qed.

Lemma square_le_bound (a r : Z) : 0 <= r -> a * a <= r * r -> - r <= a <= r.
Proof. intros Hr Ha. nia. Qed.

(** The two loops of [draw_circle] as one loop over the offsets of the
    square, row by row. *)
Lemma draw_circle_paint (img : list Pixel) (cx cy radius r g b : Z) :
  draw_circle img cx cy radius r g b
  = fold_left
      (fun im d =>
         if fst d * fst d + snd d * snd d <=? radius * radius
         then plot im (cx + fst d) (cy + snd d) (uchar r) (uchar g) (uchar b)
         else im)
      (flat_map (fun dy => map (fun dx => (dx, dy)) (zrange (- radius) radius))
                (zrange (- radius) radius)) img.
Proof.
  unfold draw_circle. rewrite fold_left_flat_map.
  apply fold_left_ext_in. intros im dy _.
  rewrite fold_left_map'. reflexivity.
Qed.

Lemma pixel_at_draw_circle (img : list Pixel)
  (cx cy radius r g b px py : Z) :
  0 <= radius ->
  (Z.to_nat (WIDTH * HEIGHT) <= length img)%nat ->
  in_image px py = true ->
  pixel_at (draw_circle img cx cy radius r g b) px py
  = if (px - cx) * (px - cx) + (py - cy) * (py - cy) <=? radius * radius
    then Some (painted r g b) else pixel_at img px py.
Proof.
  intros Hr Hlen Hp. rewrite draw_circle_paint.
  rewrite (pixel_at_paint
             (fun d => fst d * fst d + snd d * snd d <=? radius * radius)
             (fun d => cx + fst d) (fun d => cy + snd d))
    by assumption.
  unfold painted.
  destruct ((px - cx) * (px - cx) + (py - cy) * (py - cy) <=? radius * radius)
    eqn:Hd; [apply Z.leb_le in Hd | apply Z.leb_gt in Hd].
  - replace (existsb _ _) with true; [reflexivity|].
    symmetry. apply existsb_exists. exists (px - cx, py - cy). split.
    + pose proof (Z.square_nonneg (px - cx)) as Hsx.
      pose proof (Z.square_nonneg (py - cy)) as Hsy.
      apply in_flat_map. exists (py - cy). split.
      * apply elem_of_zrange, square_le_bound; lia.
      * apply in_map_iff. exists (px - cx). split; [reflexivity|].
        apply elem_of_zrange, square_le_bound; lia.
    + cbn [fst snd]. rewrite !andb_true_iff, Z.leb_le, !Z.eqb_eq. lia.
  - replace (existsb _ _) with false; [reflexivity|].
    symmetry. apply not_true_is_false. intros Hex.
    apply existsb_exists in Hex as ([dx dy] & _ & Hex).
    cbn [fst snd] in Hex.
    rewrite !andb_true_iff, Z.leb_le, !Z.eqb_eq in Hex.
    destruct Hex as [[Hle <-] <-].
    replace (cx + dx - cx) with dx in Hd by lia.
    replace (cy + dy - cy) with dy in Hd by lia. lia.
Qed.

(** X10.  [draw_circle] with a radius that is not negative gives every
    pixel of the image within [radius] of the centre (in the Euclidean
    sense, on integer offsets) the colour, reduced to [unsigned char], and
    leaves every other pixel alone; the part of the disc outside the
    image is clipped, and the buffer keeps its size. *)
Theorem draw_circle_fills_disc (img : list Pixel)
  (cx cy radius r g b px py : Z) :
  0 <= radius ->
  (Z.to_nat (WIDTH * HEIGHT) <= length img)%nat ->
  in_image px py = true ->
  pixel_at (draw_circle img cx cy radius r g b) px py
  = (if (px - cx) * (px - cx) + (py - cy) * (py - cy) <=? radius * radius
     then Some (painted r g b) else pixel_at img px py)
  /\ length (draw_circle img cx cy radius r g b) = length img.
Proof.
  intros Hr Hlen Hp. split; [apply pixel_at_draw_circle; assumption|].
  rewrite draw_circle_paint. apply length_paint.
Qed.

Lemma draw_circle_fills_disc_witness :
  pixel_at (draw_circle (replicate (Z.to_nat (WIDTH * HEIGHT)) black) 0 0 1 255 50 50) 1 0
  = (if (1 - 0) * (1 - 0) + (0 - 0) * (0 - 0) <=? 1 * 1
     then Some (painted 255 50 50)
     else pixel_at (replicate (Z.to_nat (WIDTH * HEIGHT)) black) 1 0)
  /\ length (draw_circle (replicate (Z.to_nat (WIDTH * HEIGHT)) black) 0 0 1 255 50 50)
     = length (replicate (Z.to_nat (WIDTH * HEIGHT)) black).
Proof.
  apply (draw_circle_fills_disc (replicate (Z.to_nat (WIDTH * HEIGHT)) black) 0 0 1 255 50 50 1 0).
  - lia.
  - rewrite length_replicate. apply Nat.le_refl.
  - reflexivity.
Defined.

(* ================================================================== *)
(** ** The line loop, point by point *)

Lemma draw_line_loop_points (fuel : nat) :
  forall (img : list Pixel) (x y x2 y2 dx dy sx sy err r g b : Z),
  draw_line_loop fuel img x y x2 y2 dx dy sx sy err r g b
  = fold_left (fun im p => if true then plot im (fst p) (snd p) r g b else im)
              (line_points fuel x y x2 y2 dx dy sx sy err) img.
Proof.
  induction fuel as [|fuel IH]; intros; [reflexivity|].
  cbn [draw_line_loop line_points fold_left fst snd].
  destruct ((x =? x2) && (y =? y2)); [reflexivity|].
  destruct (2 * err >? - dy); destruct (2 * err <? dx); apply IH.
Qed.



Lemma draw_line_paint (img : list Pixel) (x1 y1 x2 y2 r g b : Z) :
  draw_line img x1 y1 x2 y2 r g b
  = fold_left (fun im p => if true
                           then plot im (fst p) (snd p)
                                     (uchar r) (uchar g) (uchar b)
                           else im)
              (line_pixels x1 y1 x2 y2) img.
Proof. unfold draw_line, line_pixels. apply draw_line_loop_points. Qed.



(* ================================================================== *)
(** ** The frame buffer under [render] *)

Lemma length_draw_line (img : list Pixel) (x1 y1 x2 y2 r g b : Z) :
  length (draw_line img x1 y1 x2 y2 r g b) = length img.
Proof.
  rewrite draw_line_paint. apply (length_paint (fun _ => true) fst snd).
Qed.

Lemma drop_draw_line (img : list Pixel) (x1 y1 x2 y2 r g b : Z) :
  drop (Z.to_nat (WIDTH * HEIGHT)) (draw_line img x1 y1 x2 y2 r g b)
  = drop (Z.to_nat (WIDTH * HEIGHT)) img.
Proof.
  rewrite draw_line_paint. apply (drop_paint (fun _ => true) fst snd).
Qed.

Lemma length_draw_circle (img : list Pixel) (cx cy radius r g b : Z) :
  length (draw_circle img cx cy radius r g b) = length img.
Proof. rewrite draw_circle_paint. apply length_paint. Qed.

Lemma drop_draw_circle (img : list Pixel) (cx cy radius r g b : Z) :
  drop (Z.to_nat (WIDTH * HEIGHT)) (draw_circle img cx cy radius r g b)
  = drop (Z.to_nat (WIDTH * HEIGHT)) img.
Proof. rewrite draw_circle_paint. apply drop_paint. Qed.

Lemma elem_of_stride (hi step z : Z) :
  0 < step ->
  In z (stride hi step) <-> 0 <= z < hi /\ z mod step = 0.
Proof.
  intros Hstep. unfold stride. rewrite in_map_iff.
  pose proof (Z.div_mod (hi + step - 1) step ltac:(lia)) as Hdm.
  pose proof (Z.mod_pos_bound (hi + step - 1) step Hstep) as Hmb.
  split.
  - intros (k & <- & Hk). apply in_seq in Hk.
    split; [nia|]. rewrite Z.mul_comm. apply Z.mod_mul. lia.
  - intros [Hz Hmod].
    pose proof (Z.div_mod z step ltac:(lia)) as Hz'. rewrite Hmod in Hz'.
    exists (Z.to_nat (z / step)).
    assert (0 <= z / step) by (apply Z.div_pos; lia).
    split; [lia|]. apply in_seq. nia.
Qed.

(** The grid loops of [render] and of the plotting tool store inside the
    image only, so they are loops of guarded stores as well. *)
Lemma grid_columns_paint (c : Z) (img : list Pixel) :
  fold_left (fun im i =>
               fold_left (fun im' j => store im' i j c c c)
                         (zrange 0 (HEIGHT - 1)) im)
            (stride WIDTH 50) img
  = fold_left (fun im p => if true then plot im (fst p) (snd p) c c c else im)
              (flat_map (fun i => map (fun j => (i, j)) (zrange 0 (HEIGHT - 1)))
                        (stride WIDTH 50)) img.
Proof.
  rewrite fold_left_flat_map. apply fold_left_ext_in. intros im i Hi.
  rewrite fold_left_map'. apply fold_left_ext_in. intros im' j Hj.
  apply elem_of_stride in Hi; [|lia]. apply elem_of_zrange in Hj.
  cbn [fst snd]. unfold plot.
  replace ((0 <=? i) && (i <? WIDTH) && (0 <=? j) && (j <? HEIGHT)) with true;
    [reflexivity|].
  symmetry. apply (in_image_spec i j). lia.
Qed.

Lemma grid_rows_paint (c : Z) (img : list Pixel) :
  fold_left (fun im j =>
               fold_left (fun im' i => store im' i j c c c)
                         (zrange 0 (WIDTH - 1)) im)
            (stride HEIGHT 50) img
  = fold_left (fun im p => if true then plot im (fst p) (snd p) c c c else im)
              (flat_map (fun j => map (fun i => (i, j)) (zrange 0 (WIDTH - 1)))
                        (stride HEIGHT 50)) img.
Proof.
  rewrite fold_left_flat_map. apply fold_left_ext_in. intros im j Hj.
  rewrite fold_left_map'. apply fold_left_ext_in. intros im' i Hi.
  apply elem_of_stride in Hj; [|lia]. apply elem_of_zrange in Hi.
  cbn [fst snd]. unfold plot.
  replace ((0 <=? i) && (i <? WIDTH) && (0 <=? j) && (j <? HEIGHT)) with true;
    [reflexivity|].
  symmetry. apply (in_image_spec i j). lia.
Qed.

Lemma on_grid_columns (px py : Z) :
  in_image px py = true ->
  existsb (fun p : Z * Z => true && (fst p =? px) && (snd p =? py))
          (flat_map (fun i => map (fun j => (i, j)) (zrange 0 (HEIGHT - 1)))
                    (stride WIDTH 50))
  = (px mod 50 =? 0).
Proof.
  intros Hp. apply in_image_spec in Hp.
  apply eq_true_iff_eq. rewrite existsb_exists, Z.eqb_eq. split.
  - intros ([i j] & Hin & Heq). cbn in Heq.
    apply andb_true_iff in Heq as [->%Z.eqb_eq ->%Z.eqb_eq].
    apply in_flat_map in Hin as (i & Hi & Hin).
    apply in_map_iff in Hin as (j & [= -> ->] & _).
    apply elem_of_stride in Hi; lia.
  - intros Hmod. exists (px, py). split.
    + apply in_flat_map. exists px. split.
      * apply elem_of_stride; lia.
      * apply in_map_iff. exists py. split; [reflexivity|].
        apply elem_of_zrange. lia.
    + cbn. rewrite !Z.eqb_refl. reflexivity.
Qed.

Lemma on_grid_rows (px py : Z) :
  in_image px py = true ->
  existsb (fun p : Z * Z => true && (fst p =? px) && (snd p =? py))
          (flat_map (fun j => map (fun i => (i, j)) (zrange 0 (WIDTH - 1)))
                    (stride HEIGHT 50))
  = (py mod 50 =? 0).
Proof.
  intros Hp. apply in_image_spec in Hp.
  apply eq_true_iff_eq. rewrite existsb_exists, Z.eqb_eq. split.
  - intros ([i j] & Hin & Heq). cbn in Heq.
    apply andb_true_iff in Heq as [->%Z.eqb_eq ->%Z.eqb_eq].
    apply in_flat_map in Hin as (j & Hj & Hin).
    apply in_map_iff in Hin as (i & [= -> ->] & _).
    apply elem_of_stride in Hj; lia.
  - intros Hmod. exists (px, py). split.
    + apply in_flat_map. exists py. split.
      * apply elem_of_stride; lia.
      * apply in_map_iff. exists px. split; [reflexivity|].
        apply elem_of_zrange. lia.
    + cbn. rewrite !Z.eqb_refl. reflexivity.
Qed.

Lemma length_background (img : list Pixel) :
  length (background img)
  = Nat.max (Z.to_nat (WIDTH * HEIGHT)) (length img).
Proof.
  unfold background. rewrite grid_rows_paint, grid_columns_paint.
  rewrite !(length_paint (fun _ => true) fst snd).
  rewrite length_app, length_replicate, length_drop. lia.
Qed.

Lemma drop_background (img : list Pixel) :
  drop (Z.to_nat (WIDTH * HEIGHT)) (background img)
  = drop (Z.to_nat (WIDTH * HEIGHT)) img.
Proof.
  unfold background. rewrite grid_rows_paint, grid_columns_paint.
  rewrite !(drop_paint (fun _ => true) fst snd).
  apply drop_app_length'. symmetry. apply length_replicate.
Qed.

Lemma pixel_at_background (img : list Pixel) (px py : Z) :
  in_image px py = true ->
  pixel_at (background img) px py
  = Some (if (px mod 50 =? 0) || (py mod 50 =? 0) then Pixel.mk 20 20 20
          else black).
Proof.
  intros Hp. unfold background.
  rewrite grid_rows_paint, grid_columns_paint.
  assert (Hlen : (Z.to_nat (WIDTH * HEIGHT)
                  <= length (replicate (Z.to_nat (WIDTH * HEIGHT)) black
                             ++ drop (Z.to_nat (WIDTH * HEIGHT)) img))%nat)
    by (rewrite length_app, length_replicate; lia).
  rewrite (pixel_at_paint (fun _ => true) fst snd)
    by (rewrite ?(length_paint (fun _ => true) fst snd); assumption).
  rewrite (pixel_at_paint (fun _ => true) fst snd) by assumption.
  rewrite on_grid_rows, on_grid_columns by assumption.
  assert (Hblack : pixel_at (replicate (Z.to_nat (WIDTH * HEIGHT)) black
                             ++ drop (Z.to_nat (WIDTH * HEIGHT)) img) px py
                   = Some black).
  { unfold pixel_at. apply in_image_spec in Hp.
    rewrite lookup_app_l by (rewrite length_replicate;
                             unfold WIDTH, HEIGHT in *; lia).
    apply lookup_replicate_2. unfold WIDTH, HEIGHT in *. lia. }
  rewrite Hblack.
  destruct (px mod 50 =? 0), (py mod 50 =? 0); reflexivity.
Qed.

Section RenderProofs.
Context {F : Type} `{Double F}.

Lemma render_from_background (bodies : list (Body F)) n_bodies
  (rockets : list (Rocket F)) n_rockets img (scale : F) :
  render bodies n_bodies rockets n_rockets img scale
  = fold_left (fun im i => match bodies !! i with
                           | Some b => render_body scale im i b
                           | None => im
                           end)
              (range 0 n_bodies)
              (fold_left (fun im i => match rockets !! i with
                                      | Some r => render_rocket scale im r
                                      | None => im
                                      end)
                         (range 0 n_rockets) (background img)).
Proof. unfold render, background. cbv zeta. reflexivity. Qed.

Lemma render_segment_kept (scale : F) (r : Rocket F) img (t : nat) :
  length (render_segment scale r img t) = length img
  /\ drop (Z.to_nat (WIDTH * HEIGHT)) (render_segment scale r img t)
     = drop (Z.to_nat (WIDTH * HEIGHT)) img.
Proof.
  unfold render_segment.
  destruct (Rocket.trail_x r !! t), (Rocket.trail_y r !! t),
    (Rocket.trail_x r !! S t), (Rocket.trail_y r !! S t); try (split; reflexivity).
  split; [apply length_draw_line|apply drop_draw_line].
Qed.

Lemma render_rocket_kept (scale : F) img (r : Rocket F) :
  length (render_rocket scale img r) = length img
  /\ drop (Z.to_nat (WIDTH * HEIGHT)) (render_rocket scale img r)
     = drop (Z.to_nat (WIDTH * HEIGHT)) img.
Proof.
  unfold render_rocket.
  assert (Hseg :
    length (fold_left (render_segment scale r)
                      (range 0 (Rocket.trail_length r - 1)) img) = length img
    /\ drop (Z.to_nat (WIDTH * HEIGHT))
            (fold_left (render_segment scale r)
                       (range 0 (Rocket.trail_length r - 1)) img)
       = drop (Z.to_nat (WIDTH * HEIGHT)) img).
  { apply (fold_left_invariant
             (fun im => length im = length img
                        /\ drop (Z.to_nat (WIDTH * HEIGHT)) im
                           = drop (Z.to_nat (WIDTH * HEIGHT)) img));
      [split; reflexivity|].
    intros im t _ [<- <-]. apply render_segment_kept. }
  destruct (Rocket.trail_length r >? 0); [|exact Hseg].
  destruct (in_image _ _); [|exact Hseg].
  rewrite length_draw_circle, drop_draw_circle. exact Hseg.
Qed.

Lemma render_body_kept (scale : F) img (i : nat) (b : Body F) :
  length (render_body scale img i b) = length img
  /\ drop (Z.to_nat (WIDTH * HEIGHT)) (render_body scale img i b)
     = drop (Z.to_nat (WIDTH * HEIGHT)) img.
Proof.
  unfold render_body.
  destruct (in_image _ _); [|split; reflexivity].
  destruct (i =? 0)%nat;
    rewrite length_draw_circle, drop_draw_circle; split; reflexivity.
Qed.

Lemma render_kept (bodies : list (Body F)) n_bodies
  (rockets : list (Rocket F)) n_rockets img (scale : F) :
  length (render bodies n_bodies rockets n_rockets img scale)
  = Nat.max (Z.to_nat (WIDTH * HEIGHT)) (length img)
  /\ drop (Z.to_nat (WIDTH * HEIGHT))
          (render bodies n_bodies rockets n_rockets img scale)
     = drop (Z.to_nat (WIDTH * HEIGHT)) img.
Proof.
  rewrite render_from_background.
  rewrite <- length_background, <- (drop_background img).
  apply (fold_left_invariant
           (fun im => length im = length (background img)
                      /\ drop (Z.to_nat (WIDTH * HEIGHT)) im
                         = drop (Z.to_nat (WIDTH * HEIGHT)) (background img))).
  - apply (fold_left_invariant
             (fun im => length im = length (background img)
                        /\ drop (Z.to_nat (WIDTH * HEIGHT)) im
                           = drop (Z.to_nat (WIDTH * HEIGHT)) (background img)));
      [split; reflexivity|].
    intros im i _ [<- <-]. destruct (rockets !! i); [|split; reflexivity].
    apply render_rocket_kept.
  - intros im i _ [<- <-]. destruct (bodies !! i); [|split; reflexivity].
    apply render_body_kept.
Qed.

Lemma render_same (bodies : list (Body F)) n_bodies
  (rockets : list (Rocket F)) n_rockets img img' (scale : F) :
  drop (Z.to_nat (WIDTH * HEIGHT)) img = drop (Z.to_nat (WIDTH * HEIGHT)) img' ->
  render bodies n_bodies rockets n_rockets img scale
  = render bodies n_bodies rockets n_rockets img' scale.
Proof.
  intros Hdrop. rewrite !render_from_background. unfold background.
  rewrite Hdrop. reflexivity.
Qed.
End RenderProofs.

(** X12.  [render] owns the image: the frame it leaves does not depend on
    what the first [WIDTH * HEIGHT] pixels of the buffer held before, so
    nothing of an earlier frame shows through; the buffer keeps its size
    and whatever lies behind the image is not touched. *)
Theorem render_overwrites_the_image {F : Type} `{Double F}
  (bodies : list (Body F)) (n_bodies : Z) (rockets : list (Rocket F))
  (n_rockets : Z) (img img' : list Pixel) (scale : F) :
  (drop (Z.to_nat (WIDTH * HEIGHT)) img = drop (Z.to_nat (WIDTH * HEIGHT)) img'
   -> render bodies n_bodies rockets n_rockets img scale
      = render bodies n_bodies rockets n_rockets img' scale)
  /\ ((Z.to_nat (WIDTH * HEIGHT) <= length img)%nat ->
      length (render bodies n_bodies rockets n_rockets img scale)
      = length img)
  /\ drop (Z.to_nat (WIDTH * HEIGHT))
          (render bodies n_bodies rockets n_rockets img scale)
     = drop (Z.to_nat (WIDTH * HEIGHT)) img.
Proof.
  split; [apply render_same|].
  destruct (render_kept bodies n_bodies rockets n_rockets img scale)
    as [Hlen Hdrop].
  split; [|exact Hdrop]. intros Hsize. rewrite Hlen. lia.
Qed.

(** X13.  With no body and no rocket to draw, [render] leaves the
    background: every pixel of the image is black, except on the columns
    and rows whose index is a multiple of 50, which are grey
    [(20, 20, 20)]. *)
Theorem render_background_grid {F : Type} `{Double F}
  (bodies : list (Body F)) (n_bodies : Z) (rockets : list (Rocket F))
  (n_rockets : Z) (img : list Pixel) (scale : F) (px py : Z) :
  n_bodies <= 0 -> n_rockets <= 0 -> in_image px py = true ->
  pixel_at (render bodies n_bodies rockets n_rockets img scale) px py
  = Some (if (px mod 50 =? 0) || (py mod 50 =? 0) then Pixel.mk 20 20 20
          else black).
Proof.
  intros Hb Hr Hp. rewrite render_from_background, !range_0.
  replace (Z.to_nat n_bodies) with 0%nat by lia.
  replace (Z.to_nat n_rockets) with 0%nat by lia.
  cbn [seq fold_left]. apply pixel_at_background. exact Hp.
Qed.

Lemma render_background_grid_witness :
  pixel_at (render binary_pair 0 [probe] 0 [] (of_int 50)) 100 7
  = Some (if (100 mod 50 =? 0) || (7 mod 50 =? 0) then Pixel.mk 20 20 20
          else black).
Proof.
  apply (render_background_grid binary_pair 0 [probe] 0 [] (of_int 50) 100 7).
  - lia.
  - lia.
  - reflexivity.
Defined.

(** X14.  The body drawn last is never hidden: when the projected centre
    of body [n_bodies - 1] is in the image, the pixel there has that
    body's colour after [render], yellow [(255, 255, 100)] for body 0 and
    [((100 + 30 i) mod 256, 150, 255)] for body [i > 0]. *)
Theorem render_shows_last_body {F : Type} `{Double F}
  (bodies : list (Body F)) (n_bodies : Z) (rockets : list (Rocket F))
  (n_rockets : Z) (img : list Pixel) (scale : F) (k : nat) (b : Body F) :
  0 < n_bodies -> k = Z.to_nat (n_bodies - 1) -> bodies !! k = Some b ->
  in_image (project (Body.x b) scale WIDTH) (project (Body.y b) scale HEIGHT)
  = true ->
  pixel_at (render bodies n_bodies rockets n_rockets img scale)
           (project (Body.x b) scale WIDTH) (project (Body.y b) scale HEIGHT)
  = Some (body_colour k).
Proof.
  intros Hn -> Hb Hp.
  pose proof (render_kept bodies (n_bodies - 1) rockets n_rockets img scale)
    as [Hlen _].
  rewrite render_from_background in Hlen |- *. rewrite range_0 in Hlen |- *.
  replace (Z.to_nat n_bodies) with (S (Z.to_nat (n_bodies - 1))) by lia.
  rewrite seq_S, fold_left_app. cbn [fold_left Nat.add]. rewrite Hb.
  set (im := fold_left _ (seq 0 (Z.to_nat (n_bodies - 1))) _) in *.
  unfold render_body. rewrite Hp.
  assert (Hsize : (Z.to_nat (WIDTH * HEIGHT) <= length im)%nat) by lia.
  unfold body_colour.
  destruct (Z.to_nat (n_bodies - 1) =? 0)%nat;
    rewrite pixel_at_draw_circle by (assumption || lia);
    rewrite !Z.sub_diag; reflexivity.
Qed.

Lemma render_shows_last_body_witness :
  pixel_at (render binary_pair 2 [probe] 1 [] (of_int 50))
           (project (of_int 2 : float) (of_int 50) WIDTH)
           (project (of_int 0 : float) (of_int 50) HEIGHT)
  = Some (body_colour 1).
Proof.
  apply (render_shows_last_body binary_pair 2 [probe] 1 [] (of_int 50) 1
           (Body.mk (of_int 2) (of_int 0) (of_int 0) (of_int 0) (of_int 0)
                    (of_int 0) (of_int 5))).
  - lia.
  - reflexivity.
  - reflexivity.
  - vm_compute. reflexivity.
Defined.



(* ================================================================== *)
(** ** Where a pixel is in the file *)

Lemma lookup_concat_uniform {A} (n : nat) (ls : list (list A)) :
  Forall (fun l => length l = n) ls ->
  forall (j i : nat) (l : list A),
  ls !! j = Some l -> (i < n)%nat -> concat ls !! (j * n + i)%nat = l !! i.
Proof.
  induction 1 as [|l0 ls Hl0 Hls IH]; intros j i l Hj Hi; [discriminate|].
  cbn [concat]. destruct j as [|j].
  - injection Hj as ->. apply lookup_app_l. lia.
  - rewrite lookup_app_r by (cbn; lia).
    replace (S j * n + i - length l0)%nat with (j * n + i)%nat by (cbn; lia).
    apply IH; assumption.
Qed.

Lemma length_concat_uniform {A} (n : nat) (ls : list (list A)) :
  Forall (fun l => length l = n) ls ->
  length (concat ls) = (length ls * n)%nat.
Proof.
  induction 1 as [|l0 ls Hl0 Hls IH]; [reflexivity|].
  cbn [concat length]. rewrite length_app, IH, Hl0. lia.
Qed.

Lemma rev_seq_lookup (n k : nat) :
  (k < n)%nat -> rev (seq 0 n) !! k = Some (n - 1 - k)%nat.
Proof.
  revert k. induction n as [|n IH]; intros k Hk; [lia|].
  rewrite seq_S, rev_app_distr. cbn [rev app Nat.add].
  destruct k as [|k]; cbn [lookup list_lookup]; [f_equal; lia|].
  change (rev (seq 0 n) !! k = Some (S n - 1 - S k)%nat).
  rewrite IH by lia. f_equal. lia.
Qed.

Lemma write_bmp_encodes (img : list Pixel) (w h : Z) :
  0 < w -> 0 < h -> 54 + rowStride w * h < 2 ^ 31 ->
  length img = Z.to_nat (w * h) ->
  write_bmp true img w h = Some (bmp_header w h ++ pixel_data img w h).
Proof.
  intros Hw Hh Hsize Hlen.
  pose proof (rowStride_bounds w) as [Hmod Hb].
  assert (Hwh : w * h < 2 ^ 31) by nia.
  assert (Hrs : rowStride w < 2 ^ 31 - 54) by nia.
  unfold write_bmp.
  rewrite (wrap32_id (w * 3)) by lia.
  rewrite (wrap32_id (w * 3 + 3)) by lia.
  fold (rowStride w).
  rewrite (wrap32_id (rowStride w * h)) by nia.
  rewrite (wrap32_id (54 + rowStride w * h)) by nia.
  rewrite (wrap32_id (rowStride w - w * 3)) by lia.
  f_equal. unfold bmp_header, pixel_data, u32, u16, i32.
  rewrite !header_word_le_bytes.
  rewrite (Z.mod_small w), (Z.mod_small h) by nia.
  rewrite <- !app_assoc. do 15 f_equal.
  rewrite zrange_0, <- map_rev, map_map.
  f_equal. apply map_ext_in. intros y Hy.
  apply in_rev, in_seq in Hy.
  apply (bmp_row_image_row img w h y); auto; lia.
Qed.

Lemma pixel_row_lookup (img : list Pixel) (w : Z) (y x : nat) (p : Pixel)
  (pad : list Z) (c : nat) :
  (x < Z.to_nat w)%nat -> img !! (y * Z.to_nat w + x)%nat = Some p ->
  (c < 3)%nat ->
  (concat (map (fun p => [Pixel.b p; Pixel.g p; Pixel.r p])
               (image_row img w y)) ++ pad) !! (x * 3 + c)%nat
  = [Pixel.b p; Pixel.g p; Pixel.r p] !! c.
Proof.
  intros Hx Hp Hc.
  assert (Hrow : image_row img w y !! x = Some p).
  { unfold image_row. rewrite lookup_take_lt by exact Hx.
    rewrite lookup_drop. exact Hp. }
  assert (Hall : Forall (fun l : list Z => length l = 3%nat)
                        (map (fun p => [Pixel.b p; Pixel.g p; Pixel.r p])
                             (image_row img w y))).
  { apply Forall_forall. intros l Hl. apply list_elem_of_In in Hl.
    apply in_map_iff in Hl as (q & <- & _).
    reflexivity. }
  rewrite lookup_app_l.
  - apply (lookup_concat_uniform 3 _ Hall); [|exact Hc].
    change (map ?f ?l) with (f <$> l). rewrite list_lookup_fmap, Hrow.
    reflexivity.
  - rewrite (length_concat_uniform 3 _ Hall), length_map.
    apply lookup_lt_Some in Hrow. lia.
Qed.

Lemma length_pixel_row (img : list Pixel) (w h : Z) (y : nat) :
  0 < w -> (y < Z.to_nat h)%nat -> length img = Z.to_nat (w * h) ->
  length (concat (map (fun p => [Pixel.b p; Pixel.g p; Pixel.r p])
                      (image_row img w y))
          ++ replicate (Z.to_nat (rowStride w - w * 3)) 0)
  = Z.to_nat (rowStride w).
Proof.
  intros Hw Hy Hlen.
  pose proof (rowStride_bounds w) as [_ Hb].
  rewrite length_app, length_replicate.
  rewrite (length_concat_uniform 3).
  - rewrite length_map. unfold image_row.
    rewrite length_take, length_drop, Hlen. nia.
  - apply Forall_forall. intros l Hl. apply list_elem_of_In in Hl.
    apply in_map_iff in Hl as (q & <- & _). reflexivity.
Qed.

Lemma pixel_rows_uniform (img : list Pixel) (w h : Z) :
  0 < w -> length img = Z.to_nat (w * h) ->
  Forall (fun l : list Z => length l = Z.to_nat (rowStride w))
         (map (fun y =>
                 concat (map (fun p => [Pixel.b p; Pixel.g p; Pixel.r p])
                             (image_row img w y))
                 ++ replicate (Z.to_nat (rowStride w - w * 3)) 0)
              (rev (seq 0 (Z.to_nat h)))).
Proof.
  intros Hw Hlen.
  apply Forall_forall. intros l Hl. apply list_elem_of_In in Hl.
  apply in_map_iff in Hl as (y' & <- & Hy').
  apply in_rev, in_seq in Hy'. apply (length_pixel_row img w h); lia.
Qed.

Lemma length_pixel_data (img : list Pixel) (w h : Z) :
  0 < w -> length img = Z.to_nat (w * h) ->
  length (pixel_data img w h) = (Z.to_nat h * Z.to_nat (rowStride w))%nat.
Proof.
  intros Hw Hlen. unfold pixel_data.
  rewrite (length_concat_uniform _ _ (pixel_rows_uniform img w h Hw Hlen)).
  rewrite length_map, length_rev, length_seq. reflexivity.
Qed.

(** X16.  In the file [write_bmp] writes, the three bytes of the pixel in
    column [x] of row [y] are at offset [54 + (h - 1 - y) * rowStride +
    3 * x], blue first, then green, then red: the rows are stored bottom
    up.  The file is [54 + rowStride * h] bytes long, and that is the
    number its header gives at offset 2. *)
Theorem write_bmp_pixel_offset (img : list Pixel) (w h x y : Z) (p : Pixel) :
  0 < w -> 0 < h -> 54 + rowStride w * h < 2 ^ 31 ->
  length img = Z.to_nat (w * h) ->
  0 <= x < w -> 0 <= y < h -> img !! Z.to_nat (y * w + x) = Some p ->
  exists out : list Z,
    write_bmp true img w h = Some out
    /\ Z.of_nat (length out) = 54 + rowStride w * h
    /\ le_value (take 4 (drop 2 out)) = Z.of_nat (length out)
    /\ out !! Z.to_nat (54 + (h - 1 - y) * rowStride w + 3 * x)
       = Some (Pixel.b p)
    /\ out !! Z.to_nat (54 + (h - 1 - y) * rowStride w + 3 * x + 1)
       = Some (Pixel.g p)
    /\ out !! Z.to_nat (54 + (h - 1 - y) * rowStride w + 3 * x + 2)
       = Some (Pixel.r p).
Proof.
  intros Hw Hh Hsize Hlen Hx Hy Hp.
  pose proof (rowStride_bounds w) as [_ Hb].
  exists (bmp_header w h ++ pixel_data img w h).
  split; [apply write_bmp_encodes; assumption|].
  set (rows := map (fun y =>
                      concat (map (fun p => [Pixel.b p; Pixel.g p; Pixel.r p])
                                  (image_row img w y))
                      ++ replicate (Z.to_nat (rowStride w - w * 3)) 0)
                   (rev (seq 0 (Z.to_nat h)))).
  pose proof (pixel_rows_uniform img w h Hw Hlen) as Hall. fold rows in Hall.
  pose proof (length_pixel_data img w h Hw Hlen) as Hdata.
  assert (Hhead : length (bmp_header w h) = 54%nat) by reflexivity.
  assert (Htotal : Z.of_nat (length (bmp_header w h ++ pixel_data img w h))
                   = 54 + rowStride w * h).
  { rewrite length_app, Hhead, Hdata. nia. }
  split; [exact Htotal|]. split.
  { rewrite Htotal. unfold bmp_header. cbn [app drop].
    unfold u32 at 1.
    rewrite drop_0, <- app_assoc.
    rewrite take_app_length' by (symmetry; apply length_le_bytes).
    rewrite le_value_le_bytes. apply Z.mod_small.
    change (2 ^ (8 * Z.of_nat 4)) with (2 ^ 32). nia. }
  assert (Hrow : rows !! Z.to_nat (h - 1 - y)
                 = Some (concat (map (fun p => [Pixel.b p; Pixel.g p; Pixel.r p])
                                     (image_row img w (Z.to_nat y)))
                         ++ replicate (Z.to_nat (rowStride w - w * 3)) 0)).
  { unfold rows. change (map ?f ?l) with (f <$> l) at 1.
    rewrite list_lookup_fmap, rev_seq_lookup by lia.
    replace (Z.to_nat h - 1 - Z.to_nat (h - 1 - y))%nat with (Z.to_nat y)
      by lia.
    reflexivity. }
  assert (Hbyte : forall c : nat, (c < 3)%nat ->
            (bmp_header w h ++ pixel_data img w h)
              !! Z.to_nat (54 + (h - 1 - y) * rowStride w + 3 * x + Z.of_nat c)
            = [Pixel.b p; Pixel.g p; Pixel.r p] !! c).
  { intros c Hc. rewrite lookup_app_r by (rewrite Hhead; nia).
    rewrite Hhead. unfold pixel_data. fold rows.
    replace (Z.to_nat (54 + (h - 1 - y) * rowStride w + 3 * x + Z.of_nat c)
             - 54)%nat
      with (Z.to_nat (h - 1 - y) * Z.to_nat (rowStride w)
            + (Z.to_nat x * 3 + c))%nat by nia.
    rewrite (lookup_concat_uniform _ _ Hall _ _ _ Hrow) by lia.
    apply pixel_row_lookup; [lia| |exact Hc].
    replace (Z.to_nat y * Z.to_nat w + Z.to_nat x)%nat
      with (Z.to_nat (y * w + x)) by nia.
    exact Hp. }
  split; [|split].
  - pose proof (Hbyte 0%nat ltac:(lia)) as H0.
    rewrite Z.add_0_r in H0. exact H0.
  - apply (Hbyte 1%nat). lia.
  - apply (Hbyte 2%nat). lia.
Qed.

Lemma write_bmp_pixel_offset_witness :
  exists out : list Z,
    write_bmp true [Pixel.mk 1 2 3; Pixel.mk 4 5 6] 1 2 = Some out
    /\ Z.of_nat (length out) = 54 + rowStride 1 * 2
    /\ le_value (take 4 (drop 2 out)) = Z.of_nat (length out)
    /\ out !! Z.to_nat (54 + (2 - 1 - 1) * rowStride 1 + 3 * 0) = Some 4
    /\ out !! Z.to_nat (54 + (2 - 1 - 1) * rowStride 1 + 3 * 0 + 1) = Some 5
    /\ out !! Z.to_nat (54 + (2 - 1 - 1) * rowStride 1 + 3 * 0 + 2) = Some 6.
Proof.
  apply (write_bmp_pixel_offset [Pixel.mk 1 2 3; Pixel.mk 4 5 6] 1 2 0 1
                                (Pixel.mk 4 5 6)).
  - lia.
  - lia.
  - vm_compute. reflexivity.
  - reflexivity.
  - lia.
  - lia.
  - reflexivity.
Defined.

(* ================================================================== *)
(** ** The frames of a run *)

(** The steps below [n] that are multiples of the interval. *)
Lemma multiples_stride (interval : Z) (n : nat) :
  0 < interval ->
  List.filter (fun s => s `rem` interval =? 0)
              (map (fun k => 0 + Z.of_nat k) (seq 0 n))
  = stride (Z.of_nat n) interval.
Proof.
  intros Hi. unfold stride. induction n as [|n IH].
  - cbn [seq map List.filter]. rewrite Z.div_small by lia. reflexivity.
  - rewrite seq_S, map_app, List.filter_app, IH. cbn [map List.filter Nat.add].
    pose proof (Z.div_mod (Z.of_nat n) interval ltac:(lia)) as Hdm.
    pose proof (Z.mod_pos_bound (Z.of_nat n) interval Hi) as Hmb.
    rewrite Z.add_0_l, Z.rem_mod_nonneg by lia.
    assert (Hq : 0 <= Z.of_nat n / interval) by (apply Z.div_pos; lia).
    destruct (Z.of_nat n mod interval =? 0) eqn:Hmod;
      [apply Z.eqb_eq in Hmod | apply Z.eqb_neq in Hmod].
    + assert (H1 : (Z.of_nat n + interval - 1) / interval
                   = Z.of_nat n / interval).
      { symmetry. apply (Z.div_unique _ _ _ (interval - 1)); lia. }
      assert (H2 : (Z.of_nat (S n) + interval - 1) / interval
                   = Z.of_nat n / interval + 1).
      { symmetry. apply (Z.div_unique _ _ _ 0); lia. }
      rewrite H1, H2.
      replace (Z.to_nat (Z.of_nat n / interval + 1))
        with (S (Z.to_nat (Z.of_nat n / interval))) by lia.
      rewrite seq_S, map_app. cbn [map Nat.add]. f_equal. f_equal. lia.
    + assert (H1 : (Z.of_nat n + interval - 1) / interval
                   = Z.of_nat n / interval + 1).
      { symmetry.
        apply (Z.div_unique _ _ _ (Z.of_nat n mod interval - 1)); lia. }
      assert (H2 : (Z.of_nat (S n) + interval - 1) / interval
                   = Z.of_nat n / interval + 1).
      { symmetry.
        apply (Z.div_unique _ _ _ (Z.of_nat n mod interval)); lia. }
      rewrite H1, H2. apply app_nil_r.
Qed.

Section FrameProofs.
Context {F : Type} `{Double F}.

Lemma frame_loop_closed (opened : bool) (interval : Z) (config : SimConfig F)
  (n_bodies n_rockets : Z) (img : list Pixel) (todo : nat) :
  forall (step : Z) (st : list (Body F) * list (Rocket F)) (img' : list Pixel),
  drop (Z.to_nat (WIDTH * HEIGHT)) img' = drop (Z.to_nat (WIDTH * HEIGHT)) img ->
  frame_loop opened todo step interval config n_bodies n_rockets st img'
  = map (fun s =>
           (s `quot` interval, s,
            write_bmp opened
              (render
                 (fst (sim_loop (S (Z.to_nat (s - step))) n_bodies n_rockets
                                (cfg_dt config) (cfg_g config) st))
                 n_bodies
                 (snd (sim_loop (S (Z.to_nat (s - step))) n_bodies n_rockets
                                (cfg_dt config) (cfg_g config) st))
                 n_rockets img (of_int 50))
              WIDTH HEIGHT))
        (List.filter (fun s => s `rem` interval =? 0)
                     (map (fun k => step + Z.of_nat k) (seq 0 todo))).
Proof.
  induction todo as [|todo IH]; intros step st img' Hdrop; [reflexivity|].
  cbn [frame_loop seq map List.filter].
  rewrite <- seq_shift, map_map.
  assert (Hshift :
    map (fun k => step + Z.of_nat (S k)) (seq 0 todo)
    = map (fun k => step + 1 + Z.of_nat k) (seq 0 todo)).
  { apply map_ext. intros k. lia. }
  rewrite Hshift.
  assert (Htail : forall img1,
    drop (Z.to_nat (WIDTH * HEIGHT)) img1
    = drop (Z.to_nat (WIDTH * HEIGHT)) img ->
    frame_loop opened todo (step + 1) interval config n_bodies n_rockets
               (sim_step n_bodies n_rockets (cfg_dt config) (cfg_g config) st)
               img1
    = map (fun s =>
             (s `quot` interval, s,
              write_bmp opened
                (render
                   (fst (sim_loop (S (Z.to_nat (s - step))) n_bodies n_rockets
                                  (cfg_dt config) (cfg_g config) st))
                   n_bodies
                   (snd (sim_loop (S (Z.to_nat (s - step))) n_bodies n_rockets
                                  (cfg_dt config) (cfg_g config) st))
                   n_rockets img (of_int 50))
                WIDTH HEIGHT))
          (List.filter (fun s => s `rem` interval =? 0)
                       (map (fun k => step + 1 + Z.of_nat k) (seq 0 todo)))).
  { intros img1 Hdrop1. rewrite (IH _ _ _ Hdrop1).
    apply map_ext_in. intros s Hs.
    apply List.filter_In in Hs as [Hs _]. apply in_map_iff in Hs as (k & <- & _).
    replace (Z.to_nat (step + 1 + Z.of_nat k - step))
      with (S (Z.to_nat (step + 1 + Z.of_nat k - (step + 1)))) by lia.
    reflexivity. }
  rewrite Z.add_0_r.
  destruct (step `rem` interval =? 0).
  - cbn [map]. rewrite Z.sub_diag. cbn [Z.to_nat sim_loop].
    rewrite (render_same _ _ _ _ img' img) by exact Hdrop.
    f_equal. apply Htail.
    apply (render_kept (fst (sim_step n_bodies n_rockets (cfg_dt config)
                                      (cfg_g config) st))).
  - apply Htail. exact Hdrop.
Qed.
End FrameProofs.

(** X17.  With a positive frame interval, [main] writes one frame for
    every step that is a multiple of the interval, in order, numbered
    0, 1, 2, ... without a gap.  The frame of step [s] shows the state
    after [s + 1] updates (the first frame is drawn after the first
    update, not from the initial state), drawn on a cleared image. *)
Theorem main_frames_schedule {F : Type} `{Double F} (opened : bool)
  (config : SimConfig F) (n_bodies n_rockets : Z)
  (st : list (Body F) * list (Rocket F)) (img : list Pixel) (interval : Z) :
  frame_interval config = Some interval -> 0 < interval ->
  main_frames opened config n_bodies n_rockets st img
  = Some
      (map (fun s =>
              (s `quot` interval, s,
               write_bmp opened
                 (render
                    (fst (sim_loop (S (Z.to_nat s)) n_bodies n_rockets
                                   (cfg_dt config) (cfg_g config) st))
                    n_bodies
                    (snd (sim_loop (S (Z.to_nat s)) n_bodies n_rockets
                                   (cfg_dt config) (cfg_g config) st))
                    n_rockets img (of_int 50))
                 WIDTH HEIGHT))
           (stride (Z.max 0 (cfg_steps config)) interval))
  /\ map (fun s => s `quot` interval)
         (stride (Z.max 0 (cfg_steps config)) interval)
     = map Z.of_nat
           (seq 0 (Z.to_nat ((Z.max 0 (cfg_steps config) + interval - 1)
                             / interval))).
Proof.
  intros Hfi Hpos. split.
  - unfold main_frames. rewrite Hfi.
    replace (interval =? 0) with false by (symmetry; apply Z.eqb_neq; lia).
    cbn [andb]. f_equal.
    rewrite (frame_loop_closed opened interval config n_bodies n_rockets img)
      by reflexivity.
    rewrite multiples_stride by exact Hpos.
    replace (Z.of_nat (Z.to_nat (cfg_steps config)))
      with (Z.max 0 (cfg_steps config)) by lia.
    apply map_ext. intros s. rewrite Z.sub_0_r. reflexivity.
  - unfold stride. rewrite map_map. apply map_ext. intros k.
    rewrite Z.mul_comm. apply Z.quot_mul. lia.
Qed.

Lemma main_frames_schedule_witness :
  main_frames true (default_config (F := float)) 2 1 (binary_pair, [probe]) []
  = Some
      (map (fun s =>
              (s `quot` 50, s,
               write_bmp true
                 (render
                    (fst (sim_loop (S (Z.to_nat s)) 2 1
                                   (cfg_dt default_config)
                                   (cfg_g default_config)
                                   (binary_pair, [probe])))
                    2
                    (snd (sim_loop (S (Z.to_nat s)) 2 1
                                   (cfg_dt default_config)
                                   (cfg_g default_config)
                                   (binary_pair, [probe])))
                    1 [] (of_int 50))
                 WIDTH HEIGHT))
           (stride (Z.max 0 (cfg_steps (default_config (F := float)))) 50))
  /\ map (fun s => s `quot` 50)
         (stride (Z.max 0 (cfg_steps (default_config (F := float)))) 50)
     = map Z.of_nat
           (seq 0 (Z.to_nat ((Z.max 0 (cfg_steps (default_config (F := float)))
                              + 50 - 1) / 50))).
Proof.
  apply (main_frames_schedule true default_config 2 1
                              (binary_pair, [probe]) [] 50).
  - reflexivity.
  - lia.
Defined.


(* ================================================================== *)
(** ** The trajectory statistics *)

Section Stats.
Local Open Scope R_scope.

Lemma norm_nonneg (p : R * R) : 0 <= norm p.
Proof. apply sqrt_pos. Qed.

Lemma max_norm_nonneg (l : list (R * R)) : 0 <= max_norm l.
Proof.
  destruct l as [|p l]; cbn; [lra|].
  eapply Rle_trans; [apply norm_nonneg|apply Rmax_l].
Qed.

Lemma max_norm_snoc (l : list (R * R)) (p : R * R) :
  max_norm (l ++ [p]) = Rmax (max_norm l) (norm p).
Proof.
  unfold max_norm. induction l as [|q l IH]; cbn [app fold_right].
  - rewrite Rmax_comm. reflexivity.
  - rewrite IH. apply Rmax_assoc.
Qed.

Lemma max_norm_bound (l : list (R * R)) (p : R * R) :
  In p l -> norm p <= max_norm l.
Proof.
  induction l as [|q l IH]; intros Hin; [destruct Hin|].
  change (max_norm (q :: l)) with (Rmax (norm q) (max_norm l)).
  destruct Hin as [->|Hin]; [apply Rmax_l|].
  eapply Rle_trans; [apply IH, Hin|apply Rmax_r].
Qed.

Lemma path_length_snoc (l : list (R * R)) (p : R * R) :
  path_length (l ++ [p])
  = path_length l
    + match last l with
      | Some q => norm (fst p - fst q, snd p - snd q)
      | None => 0
      end.
Proof.
  induction l as [|a [|b l] IH].
  - cbn. lra.
  - cbn. lra.
  - change (path_length ((a :: b :: l) ++ [p]))
      with (norm (fst b - fst a, snd b - snd a) + path_length ((b :: l) ++ [p])).
    change (path_length (a :: b :: l))
      with (norm (fst b - fst a, snd b - snd a) + path_length (b :: l)).
    rewrite IH, last_cons_cons. lra.
Qed.

Lemma stats_loop (r : Rocket R) (k : nat) :
  (k <= length (Rocket.trail_x r))%nat ->
  (k <= length (Rocket.trail_y r))%nat ->
  fold_left (stats_sample r) (seq 0 k) (0, 0)
  = (max_norm (take k (zip (Rocket.trail_x r) (Rocket.trail_y r))),
     path_length (take k (zip (Rocket.trail_x r) (Rocket.trail_y r)))).
Proof.
  induction k as [|k IH]; intros Hx Hy; [reflexivity|].
  rewrite seq_S, fold_left_app, IH by lia. cbn [fold_left Nat.add].
  destruct (lookup_lt_is_Some_2 (Rocket.trail_x r) k ltac:(lia)) as [xk Hxk].
  destruct (lookup_lt_is_Some_2 (Rocket.trail_y r) k ltac:(lia)) as [yk Hyk].
  assert (Hzip : zip (Rocket.trail_x r) (Rocket.trail_y r) !! k
                 = Some (xk, yk)).
  { apply lookup_zip_with_Some. exists xk, yk. auto. }
  rewrite (take_S_r _ _ _ Hzip), max_norm_snoc, path_length_snoc.
  unfold stats_sample. rewrite Hxk, Hyk. cbn [fst snd].
  assert (Hmax : (if dgt (dsqrt (xk * xk + yk * yk)%D)
                         (max_norm (take k (zip (Rocket.trail_x r)
                                                (Rocket.trail_y r))))
                  then dsqrt (xk * xk + yk * yk)%D
                  else max_norm (take k (zip (Rocket.trail_x r)
                                             (Rocket.trail_y r))))
                 = Rmax (max_norm (take k (zip (Rocket.trail_x r)
                                               (Rocket.trail_y r))))
                        (norm (xk, yk))).
  { cbn. unfold R_gt, norm, Rmax. cbn [fst snd].
    destruct (Rlt_dec _ _), (Rle_dec _ _); lra. }
  rewrite Hmax.
  destruct k as [|k].
  - rewrite take_0. cbn. f_equal. lra.
  - replace (0 <? S k)%nat with true by reflexivity.
    replace (S k - 1)%nat with k by lia.
    destruct (lookup_lt_is_Some_2 (Rocket.trail_x r) k ltac:(lia)) as [xp Hxp].
    destruct (lookup_lt_is_Some_2 (Rocket.trail_y r) k ltac:(lia)) as [yp Hyp].
    rewrite Hxp, Hyp.
    assert (Hlast : last (take (S k) (zip (Rocket.trail_x r)
                                          (Rocket.trail_y r)))
                    = Some (xp, yp)).
    { rewrite last_lookup, length_take, length_zip_with.
      replace (pred (S k `min` (length (Rocket.trail_x r)
                                `min` length (Rocket.trail_y r))))
        with k by lia.
      rewrite lookup_take_lt by lia.
      apply lookup_zip_with_Some. exists xp, yp. auto. }
    rewrite Hlast. reflexivity.
Qed.
End Stats.

(** X19.  In real arithmetic, for a rocket whose trail lies within its
    buffers, the statistics line of [save_trajectory_stats] holds: the
    distance of the final position from the origin; the largest distance
    from the origin among the recorded samples (0 for an empty trail);
    and as average speed the length of the recorded path divided by
    [trail_length * dt], or 0 when that product is not positive. *)
Theorem trajectory_stats_closed_form (dt : R) (r : Rocket R) :
  (Z.to_nat (Rocket.trail_length r) <= length (Rocket.trail_x r))%nat ->
  (Z.to_nat (Rocket.trail_length r) <= length (Rocket.trail_y r))%nat ->
  trajectory_stats dt r
  = (Rocket.trail_length r,
     norm (Rocket.x r, Rocket.y r),
     max_norm (trail r),
     if Rlt_dec 0 (IZR (Rocket.trail_length r) * dt)
     then (path_length (trail r) / (IZR (Rocket.trail_length r) * dt))%R
     else 0%R)
  /\ forall p, In p (trail r) -> (norm p <= max_norm (trail r))%R.
Proof.
  intros Hx Hy. split; [|intros p; apply max_norm_bound].
  unfold trajectory_stats. rewrite range_0.
  change (of_int 0 : R) with 0%R.
  rewrite stats_loop by assumption.
  unfold trail, norm. cbn. unfold R_gt.
  destruct (Rlt_dec _ _); reflexivity.
Qed.

Lemma trajectory_stats_closed_form_witness :
  trajectory_stats (1 / 100)%R
    (Rocket.mk 3 4 0 0 0 0 1 [0; 3; 3] [0; 0; 4] 3 3)%R
  = (3,
     norm (3, 4)%R,
     max_norm (trail (Rocket.mk 3 4 0 0 0 0 1 [0; 3; 3] [0; 0; 4] 3 3)%R),
     if Rlt_dec 0 (IZR 3 * (1 / 100))
     then (path_length
             (trail (Rocket.mk 3 4 0 0 0 0 1 [0; 3; 3] [0; 0; 4] 3 3)%R)
           / (IZR 3 * (1 / 100)))%R
     else 0%R).
Proof.
  apply (trajectory_stats_closed_form (1 / 100)%R
           (Rocket.mk 3 4 0 0 0 0 1 [0; 3; 3] [0; 0; 4] 3 3)%R).
  - cbn. lia.
  - cbn. lia.
Defined.

(* ================================================================== *)
(** ** The reader on a dump that is cut short *)

Section Truncated.
Context {F : Type} `{Double F} `{Repr64 F}.
Hypothesis to_bits_range : forall x : F, 0 <= to_bits x < 2 ^ 64.
Hypothesis of_to_bits : forall x : F, of_bits (to_bits x) = x.


End Truncated.


(* ================================================================== *)
(** ** Which coordinates the projection keeps in the image *)

Lemma project_bounds (v scale : R) (dim lo hi : Z) :
  lo <= 0 <= hi ->
  (lo <= project v scale dim <= hi
   <-> (IZR lo - 1 < v * scale + IZR (dim `quot` 2) < IZR hi + 1)%R).
Proof.
  intros Hlohi. unfold project. cbn [to_int of_int dmul dadd R_Double].
  set (u := (v * scale + IZR (dim `quot` 2))%R).
  destruct (R_trunc_truncation u) as [Hpos Hneg].
  set (z := R_trunc u) in *. clearbody z. clearbody u.
  assert (Hlo0 : (IZR lo <= 0)%R) by (apply (IZR_le lo 0); lia).
  assert (Hhi0 : (0 <= IZR hi)%R) by (apply (IZR_le 0 hi); lia).
  split.
  - intros [Hlo Hhi]. apply IZR_le in Hlo, Hhi.
    destruct (Rle_dec 0 u) as [Hu|Hu].
    + specialize (Hpos Hu). lra.
    + assert (Hu' : (u <= 0)%R) by lra. specialize (Hneg Hu'). lra.
  - intros [Hlo Hhi].
    destruct (Rle_dec 0 u) as [Hu|Hu].
    + specialize (Hpos Hu).
      assert (Hz : z < hi + 1) by (apply lt_IZR; rewrite plus_IZR; lra).
      assert (Hz' : -1 < z) by (apply lt_IZR; lra).
      lia.
    + assert (Hu' : (u <= 0)%R) by lra. specialize (Hneg Hu').
      assert (Hz : lo - 1 < z) by (apply lt_IZR; rewrite minus_IZR; lra).
      assert (Hz' : z < 1) by (apply lt_IZR; lra).
      lia.
Qed.

(** X21.  In real arithmetic a coordinate [v] is projected into the image
    exactly when [-1 < v * scale + 400 < 800]: because the cast cuts
    toward zero, pixel 0 collects the whole interval [(-1, 1)] of
    [v * scale + 400], twice the width every other pixel gets, and values
    just left of the image edge are drawn on the edge instead of being
    clipped. *)
Theorem project_visible_window (v scale : R) :
  (0 <= project v scale WIDTH < WIDTH
   <-> (-1 < v * scale + 400 < 800)%R)
  /\ (project v scale WIDTH = 0 <-> (-1 < v * scale + 400 < 1)%R)
  /\ (forall x y : R,
        in_image (project x scale WIDTH) (project y scale HEIGHT) = true
        <-> (-1 < x * scale + 400 < 800)%R /\ (-1 < y * scale + 400 < 800)%R).
Proof.
  assert (Hwin : forall (u : R) (dim : Z), dim = 800 ->
            0 <= project u scale dim < dim
            <-> (-1 < u * scale + 400 < 800)%R).
  { intros u dim ->.
    pose proof (project_bounds u scale 800 0 799 ltac:(lia)) as Hb.
    change (IZR (800 `quot` 2)) with 400%R in Hb.
    replace (IZR 0 - 1)%R with (-1)%R in Hb by lra.
    replace (IZR 799 + 1)%R with 800%R in Hb by lra.
    rewrite <- Hb. lia. }
  split; [apply Hwin; reflexivity|]. split.
  - pose proof (project_bounds v scale WIDTH 0 0 ltac:(lia)) as Hb.
    change (IZR (WIDTH `quot` 2)) with 400%R in Hb.
    replace (IZR 0 - 1)%R with (-1)%R in Hb by lra.
    replace (IZR 0 + 1)%R with 1%R in Hb by lra.
    rewrite <- Hb. lia.
  - intros x y. rewrite in_image_spec.
    rewrite (Hwin x WIDTH eq_refl), (Hwin y HEIGHT eq_refl). reflexivity.
Qed.
